(** * Directory walker of bazel-gazelle: configuration chain, ignore files,
      directory cache and parallel prefetch.

    The development embeds the Go code of package [walk] (config.go, the
    directory cache, the two generations of [loadDirInfo] and
    [populateCache]) and proves the properties its specification states
    about them.  Go strings are byte strings ([string]), slices are lists of
    their visible elements, [map]s are [gmap]s, and effects (log output,
    [log.Fatalf], panics, goroutine interleaving) are explicit. *)

From Stdlib Require Import Ascii String List Bool Arith NArith Lia.
From Stdlib Require Import Sorting.Sorted.
From stdpp Require Import base option list strings gmap.

Set Default Proof Using "Type".
Set Warnings "-register-all,-clear-no-such-hyp".
Local Open Scope stdpp_scope.

(** ** Byte-string helpers *)

(** Go's [s[n:]] and [s[:n]] on a byte string (within range). *)
Fixpoint sliceFrom (n : nat) (s : string) : string :=
  match n, s with
  | 0, _ => s
  | S n', String _ s' => sliceFrom n' s'
  | S _, EmptyString => EmptyString
  end.

Fixpoint sliceTo (n : nat) (s : string) : string :=
  match n, s with
  | 0, _ => EmptyString
  | S n', String c s' => String c (sliceTo n' s')
  | S _, EmptyString => EmptyString
  end.

Definition is_slash (c : ascii) : bool := bool_decide (c = "/"%char).

(** ** Package [strings] of the Go standard library *)
Module GoStrings.

(** [strings.HasPrefix]. *)
Fixpoint HasPrefix (s pre : string) : bool :=
  match pre, s with
  | EmptyString, _ => true
  | String a pre', String b s' => bool_decide (a = b) && HasPrefix s' pre'
  | String _ _, EmptyString => false
  end.

(** [strings.Index]: position of the first occurrence of [sep] in [s];
    [None] stands for Go's [-1]. *)
Fixpoint Index (s sep : string) : option nat :=
  if HasPrefix s sep then Some 0
  else match s with
       | EmptyString => None
       | String _ s' => S <$> Index s' sep
       end.

Fixpoint containsByte (c : ascii) (chars : string) : bool :=
  match chars with
  | EmptyString => false
  | String d chars' => bool_decide (c = d) || containsByte c chars'
  end.

(** [strings.ContainsAny] for a set of one-byte characters. *)
Fixpoint ContainsAny (s chars : string) : bool :=
  match s with
  | EmptyString => false
  | String c s' => containsByte c chars || ContainsAny s' chars
  end.

(** White space as [unicode.IsSpace] sees it, on the UTF-8 encoding:
    the six ASCII characters, U+0085 and U+00A0 (two bytes), and U+1680,
    U+2000..U+200A, U+2028, U+2029, U+202F, U+205F, U+3000 (three
    bytes). *)
Definition asciiSpace (c : ascii) : bool :=
  match c with
  | "009" | "010" | "011" | "012" | "013" | " " => true
  | _ => false
  end%char.

Definition byte_is (c : ascii) (n : N) : bool := (N_of_ascii c =? n)%N.

Definition space2 (c1 c2 : ascii) : bool :=
  byte_is c1 194 && (byte_is c2 133 || byte_is c2 160).

Definition space3 (c1 c2 c3 : ascii) : bool :=
  let n := N_of_ascii c3 in
  byte_is c1 225 && byte_is c2 154 && byte_is c3 128
  || byte_is c1 226 && byte_is c2 128
     && ((128 <=? n)%N && (n <=? 138)%N || byte_is c3 168 || byte_is c3 169
         || byte_is c3 175)
  || byte_is c1 226 && byte_is c2 129 && byte_is c3 159
  || byte_is c1 227 && byte_is c2 128 && byte_is c3 128.

(** [strings.TrimLeftFunc(s, unicode.IsSpace)]. *)
Fixpoint trimLeft (s : string) : string :=
  match s with
  | EmptyString => EmptyString
  | String c1 r1 =>
      if asciiSpace c1 then trimLeft r1
      else match r1 with
           | String c2 r2 =>
               if space2 c1 c2 then trimLeft r2
               else match r2 with
                    | String c3 r3 => if space3 c1 c2 c3 then trimLeft r3 else s
                    | EmptyString => s
                    end
           | EmptyString => s
           end
  end.

(** The same scan from the end, on the reversed byte list. *)
Fixpoint trimLeftRev (l : list ascii) : list ascii :=
  match l with
  | [] => []
  | c1 :: r1 =>
      if asciiSpace c1 then trimLeftRev r1
      else match r1 with
           | c2 :: r2 =>
               if space2 c2 c1 then trimLeftRev r2
               else match r2 with
                    | c3 :: r3 => if space3 c3 c2 c1 then trimLeftRev r3 else l
                    | [] => l
                    end
           | [] => l
           end
  end.

(** [strings.TrimRightFunc(s, unicode.IsSpace)]. *)
Definition trimRight (s : string) : string :=
  string_of_list_ascii (rev (trimLeftRev (rev (list_ascii_of_string s)))).

(** [strings.TrimSpace]. *)
Definition TrimSpace (s : string) : string := trimRight (trimLeft s).

End GoStrings.

(** ** Package [path] of the Go standard library *)
Module GoPath.

(** The elements of a path between its slashes; never the empty list. *)
Fixpoint splitSlash (s : string) : list string :=
  match s with
  | EmptyString => [EmptyString]
  | String c s' =>
      if is_slash c then EmptyString :: splitSlash s'
      else match splitSlash s' with
           | seg :: rest => String c seg :: rest
           | [] => [String c EmptyString]
           end
  end.

Fixpoint joinSlash (l : list string) : string :=
  match l with
  | [] => EmptyString
  | [x] => x
  | x :: l' => x +:+ "/" +:+ joinSlash l'
  end.

(** One element of the scan in [path.Clean].  [out] is the output written
    so far as a stack of elements, last written first. *)
Definition cleanStep (rooted : bool) (out : list string) (e : string)
  : list string :=
  if decide (e = "") then out                  (* empty path element *)
  else if decide (e = ".") then out            (* . element *)
  else if decide (e = "..") then               (* .. element *)
    match out with
    | top :: rest =>
        if decide (top = "..") then ".." :: out  (* cannot backtrack *)
        else rest                                (* remove to last / *)
    | [] => if rooted then [] else [".."]
    end
  else e :: out.                               (* real path element *)

Definition isRooted (p : string) : bool :=
  match p with
  | String c _ => is_slash c
  | EmptyString => false
  end.

(** [path.Clean]: the shortest path equivalent to [p] by lexical
    processing. *)
Definition Clean (p : string) : string :=
  if decide (p = "") then "."
  else
    let rooted := isRooted p in
    let out := joinSlash (rev (fold_left (cleanStep rooted) (splitSlash p) [])) in
    if rooted then "/" +:+ out
    else if decide (out = "") then "." else out.

(** The buffer [path.Join] builds before cleaning it. *)
Definition joinBuf (buf e : string) : string :=
  if decide (buf = "") then e else buf +:+ "/" +:+ e.

(** [path.Join]. *)
Definition Join (elem : list string) : string :=
  let buf := fold_left joinBuf elem "" in
  if decide (buf = "") then "" else Clean buf.

Fixpoint hasSlash (s : string) : bool :=
  match s with
  | EmptyString => false
  | String c s' => is_slash c || hasSlash s'
  end.

(** The first component of [path.Split]: [p] up to and including its
    final slash. *)
Fixpoint splitDir (p : string) : string :=
  match p with
  | EmptyString => EmptyString
  | String c p' =>
      if hasSlash p' then String c (splitDir p')
      else if is_slash c then "/" else EmptyString
  end.

(** [path.Dir]. *)
Definition Dir (p : string) : string := Clean (splitDir p).

End GoPath.

(** ** Errors, log output and the ways a run can stop *)

(** Go [error] values: errors of the operating system (with the answer of
    [errors.Is(err, fs.ErrNotExist)]), errors made from a message
    ([errors.New], [fmt.Errorf] with [%v]), the matcher's
    [doublestar.ErrBadPattern], and the result of [errors.Join]. *)
Inductive error : Type :=
  | OsError (notExist : bool) (msg : string)
  | ErrorString (msg : string)
  | ErrBadPattern
  | joinError (errs : list error).

Module GoErrors.

(** [errors.Is(err, fs.ErrNotExist)]. *)
Fixpoint IsNotExist (e : error) : bool :=
  match e with
  | OsError b _ => b
  | ErrorString _ => false
  | ErrBadPattern => false
  | joinError errs =>
      (fix any (l : list error) : bool :=
         match l with
         | [] => false
         | x :: l' => IsNotExist x || any l'
         end) errs
  end.

(** [err.Error()]. *)
Fixpoint Error (e : error) : string :=
  match e with
  | OsError _ msg => msg
  | ErrorString msg => msg
  | ErrBadPattern => "syntax error in pattern"
  | joinError errs =>
      (fix lines (l : list error) : string :=
         match l with
         | [] => ""
         | [x] => Error x
         | x :: l' => Error x +:+ String "010" (lines l')
         end) errs
  end.

(** [fmt.Errorf(prefix + "%v", err)]: the cause is formatted, not
    wrapped. *)
Definition Errorf (pre : string) (e : error) : error :=
  ErrorString (pre +:+ Error e).

(** [errors.Join(errs...)]: nil values are discarded; the result is nil
    when none is left. *)
Definition Join (errs : list (option error)) : option error :=
  match omap id errs with
  | [] => None
  | es => Some (joinError es)
  end.

End GoErrors.

(** What the standard logger receives. *)
Inductive logEvent : Type :=
  | LogUnknownGenerationMode (value pkg : string)
  | LogBadExclude (pattern : string) (err : error)
  | LogBadFollow (pattern : string) (err : error)
  | LogIgnoreArgument (pkg value : string)
  | LogBazelIgnoreGlob (ignore : string)
  | LogBadIgnoreDirectories (pattern : string) (err : error).

(** A call either returns, or ends the process: [log.Fatalf] exits with
    status 1, a failed type assertion or [panic] unwinds. *)
Inductive outcome (A : Type) : Type :=
  | Return (a : A)
  | Exit1
  | Panic (msg : string).
Arguments Return {A} a.
Arguments Exit1 {A}.
Arguments Panic {A} msg.

(** Computations that write to the log and may stop the process. *)
Definition M (A : Type) : Type := list logEvent * outcome A.

Definition ret {A} (a : A) : M A := ([], Return a).
Definition logPrintf (ev : logEvent) : M unit := ([ev], Return tt).
Definition logFatalf {A} (ev : logEvent) : M A := ([ev], Exit1).
Definition bind {A B} (m : M A) (k : A -> M B) : M B :=
  match m with
  | (l, Return a) => let '(l', r) := k a in (l ++ l', r)
  | (l, Exit1) => (l, Exit1)
  | (l, Panic msg) => (l, Panic msg)
  end.

#[global] Instance M_ret : MRet M := @ret.
#[global] Instance M_bind : MBind M := fun A B k m => bind m k.

(** ** The glob matcher (package doublestar) *)

(** [doublestar.Match] reports a malformed pattern with an error;
    [doublestar.MatchUnvalidated] only answers. *)
Class Doublestar : Type := {
  Match : string -> string -> bool * option error;
  MatchUnvalidated : string -> string -> bool
}.

(** A matcher for patterns without metacharacters: such a pattern matches
    its own text only, and a pattern with an unclosed bracket is
    malformed. *)
Fixpoint unclosedBracket (open : bool) (p : string) : bool :=
  match p with
  | EmptyString => open
  | String c p' =>
      if bool_decide (c = "["%char) then unclosedBracket true p'
      else if bool_decide (c = "]"%char) then unclosedBracket false p'
      else unclosedBracket open p'
  end.

Definition LiteralGlob : Doublestar := {|
  Match pattern name :=
    if unclosedBracket false pattern then (false, Some ErrBadPattern)
    else (bool_decide (pattern = name), None);
  MatchUnvalidated pattern name := bool_decide (pattern = name)
|}.

(** ** config.go *)

Definition generationModeUpdate : string := "update_only".
Definition generationModeCreate : string := "create_and_update".

(** The two slices are lists of the elements they show.  The backing
    array that [append] may share between a parent's slice and a child's
    is not part of this record: what follows is about a configuration at
    the point where [Configure] has built it. *)
Record walkConfig : Type := mkWalkConfig {
  updateOnly : bool;
  excludes : list string;
  ignore : bool;
  follow : list string
}.

Definition setUpdateOnly (b : bool) (wc : walkConfig) : walkConfig :=
  mkWalkConfig b (excludes wc) (ignore wc) (follow wc).
Definition setExcludes (l : list string) (wc : walkConfig) : walkConfig :=
  mkWalkConfig (updateOnly wc) l (ignore wc) (follow wc).
Definition setIgnore (b : bool) (wc : walkConfig) : walkConfig :=
  mkWalkConfig (updateOnly wc) (excludes wc) b (follow wc).
Definition setFollow (l : list string) (wc : walkConfig) : walkConfig :=
  mkWalkConfig (updateOnly wc) (excludes wc) (ignore wc) l.

Definition walkName : string := "_walk".

(** [rule.Directive], and the part of [rule.File] the walker reads: the
    package, the directives in file order, and for each rule its [out] and
    [outs] attributes. *)
Record Directive : Type := mkDirective { Key : string; Value : string }.
Record Rule : Type := mkRule { AttrOut : option string; AttrOuts : list string }.
Record File : Type := mkFile {
  Pkg : string;
  Directives : list Directive;
  Rules : list Rule
}.

(** [config.Config]: [Exts] is a [map[string]interface{}]; the walker's own
    extension is a pointer to a [walkConfig], any other value belongs to another
    configurer. *)
Inductive ext : Type :=
  | WalkExt (wc : walkConfig)
  | OtherExt.

Record Config : Type := mkConfig {
  RepoRoot : string;
  ReadBuildFilesDir : string;
  Exts : gmap string ext
}.

Definition setExts (m : gmap string ext) (c : Config) : Config :=
  mkConfig (RepoRoot c) (ReadBuildFilesDir c) m.

(** The type assertion on [c.Exts[walkName]] panics on any other value. *)
Definition getWalkConfig (c : Config) : outcome walkConfig :=
  match Exts c !! walkName with
  | Some (WalkExt wc) => Return wc
  | _ => Panic "interface conversion"
  end.

(** [fs.DirEntry]: the name, whether the entry is a directory, and whether
    its type has [os.ModeSymlink]. *)
Record DirEntry : Type := mkDirEntry {
  Name : string;
  IsDir : bool;
  IsSymlink : bool
}.

(** An opened file as the [bufio.Scanner] loop reads it: the lines that
    [Scan] yields before it returns false, and the error that [Err] holds
    then, nil when the end of the file was reached. *)
Record scanned : Type := mkScanned {
  scanLines : list string;
  scanErr : option error
}.

(** The storage the walker reads.  [os_Open] answers for [os.Open] followed
    by the [bufio.Scanner] loop: an error of [os.Open], or what the scanner
    reads from the opened file.  [os_ReadDir] may return entries together
    with an error, as [os.ReadDir] does. *)
Record FileSystem : Type := mkFileSystem {
  os_Open : string -> error + scanned;
  os_ReadFile : string -> error + string;
  os_ReadDir : string -> list DirEntry * option error
}.

(** Syntax trees of package [build] (buildtools), as far as
    [loadRepoDirectoryIgnore] inspects them. *)
Inductive Expr : Type :=
  | Ident (name : string)
  | StringExpr (value : string)
  | ListExpr (items : list Expr)
  | CallExpr (X : Expr) (args : list Expr)
  | OtherExpr (typeName : string).

(** [bzl.Parse(filename, content)]: the statements of the file, or a parse
    error. *)
Class BzlParser : Type := bzl_Parse : string -> string -> error + list Expr.

Definition isIgnoredFunc : Type := string -> bool.

Definition nothingIgnored : isIgnoredFunc := fun _ => false.

Section Config.
Context `{Doublestar}.

Definition matchAnyGlob (patterns : list string) (p : string) : bool :=
  existsb (fun x => MatchUnvalidated x p) patterns.

Definition isExcluded (wc : walkConfig) (p : string) : bool :=
  matchAnyGlob (excludes wc) p.

Definition shouldFollow (wc : walkConfig) (p : string) : bool :=
  matchAnyGlob (follow wc) p.

Definition checkPathMatchPattern (pattern : string) : option error :=
  snd (Match pattern "x").

(** The body of the loop over [f.Directives] in [Configure]. *)
Definition applyDirective (rel pkg : string) (wcCopy : walkConfig)
    (d : Directive) : M walkConfig :=
  if decide (Key d = "generation_mode") then
    let mode := GoStrings.TrimSpace (Value d) in
    if decide (mode = generationModeUpdate) then
      ret (setUpdateOnly true wcCopy)
    else if decide (mode = generationModeCreate) then
      ret (setUpdateOnly false wcCopy)
    else logFatalf (LogUnknownGenerationMode (Value d) pkg)
  else if decide (Key d = "exclude") then
    match checkPathMatchPattern (GoPath.Join [rel; Value d]) with
    | Some err =>
        logPrintf (LogBadExclude (GoPath.Join [rel; Value d]) err) ;;
        ret wcCopy
    | None =>
        ret (setExcludes (excludes wcCopy ++ [GoPath.Join [rel; Value d]]) wcCopy)
    end
  else if decide (Key d = "follow") then
    match checkPathMatchPattern (GoPath.Join [rel; Value d]) with
    | Some err =>
        logPrintf (LogBadFollow (GoPath.Join [rel; Value d]) err) ;;
        ret wcCopy
    | None =>
        ret (setFollow (follow wcCopy ++ [GoPath.Join [rel; Value d]]) wcCopy)
    end
  else if decide (Key d = "ignore") then
    (if decide (Value d = "") then ret tt
     else logPrintf (LogIgnoreArgument pkg (Value d))) ;;
    ret (setIgnore true wcCopy)
  else ret wcCopy.

Fixpoint applyDirectives (rel pkg : string) (ds : list Directive)
    (wcCopy : walkConfig) : M walkConfig :=
  match ds with
  | [] => ret wcCopy
  | d :: ds' =>
      wcCopy' ← applyDirective rel pkg wcCopy d;
      applyDirectives rel pkg ds' wcCopy'
  end.

(** What [Configure] computes between reading and storing the walker's
    extension. *)
Definition configureWalk (wc : walkConfig) (rel : string) (f : option File)
    : M walkConfig :=
  let wcCopy := setIgnore false wc in
  match f with
  | Some f => applyDirectives rel (Pkg f) (Directives f) wcCopy
  | None => ret wcCopy
  end.

(** [Configurer.Configure]. *)
Definition Configure (c : Config) (rel : string) (f : option File) : M Config :=
  match getWalkConfig c with
  | Return wc =>
      wcCopy ← configureWalk wc rel f;
      ret (setExts (<[walkName := WalkExt wcCopy]> (Exts c)) c)
  | Exit1 => ([], Exit1)
  | Panic msg => ([], Panic msg)
  end.

(** The body of the scanner loop in [loadBazelIgnore]. *)
Definition bazelIgnoreLine (excludes : gset string) (text : string)
    : M (gset string) :=
  let ignore := GoStrings.TrimSpace text in
  if decide (ignore = "") then ret excludes
  else if GoStrings.HasPrefix ignore "#" then ret excludes
  else if GoStrings.ContainsAny ignore "*?[" then
    logPrintf (LogBazelIgnoreGlob ignore) ;; ret excludes
  else ret ({[GoPath.Clean ignore]} ∪ excludes).

Fixpoint bazelIgnoreLines (lines : list string) (excludes : gset string)
    : M (gset string) :=
  match lines with
  | [] => ret excludes
  | text :: lines' =>
      excludes' ← bazelIgnoreLine excludes text;
      bazelIgnoreLines lines' excludes'
  end.

Definition loadBazelIgnore (fs : FileSystem) (repoRoot : string)
    : M (isIgnoredFunc * option error) :=
  let ignorePath := GoPath.Join [repoRoot; ".bazelignore"] in
  match os_Open fs ignorePath with
  | inl err =>
      if GoErrors.IsNotExist err then ret (nothingIgnored, None)
      else ret (nothingIgnored,
                Some (GoErrors.Errorf ".bazelignore exists but couldn't be read: " err))
  | inr file =>
      (* [scanner.Err()] is not consulted after the loop *)
      excludes ← bazelIgnoreLines (scanLines file) ∅;
      let isBazelIgnored : isIgnoredFunc := fun p => bool_decide (p ∈ excludes) in
      ret (isBazelIgnored, None)
  end.

(** The items of the list given to [ignore_directories]: string literals
    with a valid pattern are kept, other strings are logged, anything
    else is passed over. *)
Fixpoint ignoreDirectoriesItems (items : list Expr) (acc : list string)
    : M (list string) :=
  match items with
  | [] => ret acc
  | StringExpr value :: items' =>
      match checkPathMatchPattern value with
      | Some err =>
          logPrintf (LogBadIgnoreDirectories value err) ;;
          ignoreDirectoriesItems items' acc
      | None => ignoreDirectoriesItems items' (acc ++ [value])
      end
  | _ :: items' => ignoreDirectoriesItems items' acc
  end.

Definition exprTypeName (e : Expr) : string :=
  match e with
  | Ident _ => "*build.Ident"
  | StringExpr _ => "*build.StringExpr"
  | ListExpr _ => "*build.ListExpr"
  | CallExpr _ _ => "*build.CallExpr"
  | OtherExpr t => t
  end.

(** The search for [ignore_directories([...])] among the statements: the
    first such call decides, later ones are not looked at. *)
Fixpoint searchIgnoreDirectories (stmts : list Expr)
    : M (error + list string) :=
  match stmts with
  | [] => ret (inr [])
  | CallExpr (Ident name) args :: stmts' =>
      if decide (name = "ignore_directories") then
        match args with
        | [ListExpr items] =>
            ignoreDirectories ← ignoreDirectoriesItems items [];
            ret (inr ignoreDirectories)
        | [arg] =>
            ret (inl (ErrorString
              ("REPO.bazel ignore_directories() unexpected argument type: "
               +:+ exprTypeName arg)))
        | _ =>
            ret (inl (ErrorString
              "REPO.bazel ignore_directories() expects one argument"))
        end
      else searchIgnoreDirectories stmts'
  | _ :: stmts' => searchIgnoreDirectories stmts'
  end.

Definition loadRepoDirectoryIgnore `{BzlParser} (fs : FileSystem)
    (repoRoot : string) : M (isIgnoredFunc * option error) :=
  let repoFilePath := GoPath.Join [repoRoot; "REPO.bazel"] in
  match os_ReadFile fs repoFilePath with
  | inl err =>
      if GoErrors.IsNotExist err then ret (nothingIgnored, None)
      else ret (nothingIgnored,
                Some (GoErrors.Errorf "REPO.bazel exists but couldn't be read: " err))
  | inr repoFileContent =>
      match bzl_Parse repoRoot repoFileContent with
      | inl err =>
          ret (nothingIgnored,
               Some (GoErrors.Errorf "failed to parse REPO.bazel: " err))
      | inr stmts =>
          found ← searchIgnoreDirectories stmts;
          match found with
          | inl err => ret (nothingIgnored, Some err)
          | inr [] => ret (nothingIgnored, None)
          | inr ignoreDirectories =>
              let isRepoIgnored : isIgnoredFunc :=
                fun p => existsb (fun ignore => MatchUnvalidated ignore p)
                                 ignoreDirectories in
              ret (isRepoIgnored, None)
          end
      end
  end.

End Config.

(** ** The directory cache *)

(** A [cacheEntry]: [doneC] records whether the channel has been closed;
    [info] and [err] hold zero values until the loader's result is
    assigned. *)
Record cacheEntry (I : Type) : Type := mkCacheEntry {
  doneC : bool;
  info : I;
  err : option error
}.
Arguments mkCacheEntry {I} doneC info err.
Arguments doneC {I} c.
Arguments info {I} c.
Arguments err {I} c.

Definition closeDone {I} (e : cacheEntry I) : cacheEntry I :=
  mkCacheEntry true (info e) (err e).

Definition assignResult {I} (r : I * option error) (e : cacheEntry I)
    : cacheEntry I :=
  mkCacheEntry (doneC e) (fst r) (snd r).

(** [cache.getLoaded]: the result of a finished [get], a panic
    otherwise. *)
Definition getLoaded {I} (entryMap : gmap string (cacheEntry I)) (rel : string)
    : outcome (I * option error) :=
  match entryMap !! rel with
  | Some e =>
      if doneC e then Return (info e, err e)
      else Panic "getLoaded called before it was loaded"
  | None => Panic "getLoaded called before it was loaded"
  end.

(** ** Directory information *)

(** The older [dirInfo]. *)
Record dirInfo : Type := mkDirInfoOld {
  subdirs : list string;
  regularFiles : list string;
  file : option File;
  config : option walkConfig
}.

(** The newer [DirInfo]. *)
Record DirInfo : Type := mkDirInfo {
  Subdirs : list string;
  RegularFiles : list string;
  GenFiles : list string;
  File_ : option File;
  config_ : option walkConfig
}.

Definition zeroDirInfoOld : dirInfo := mkDirInfoOld [] [] None None.
Definition zeroDirInfo : DirInfo := mkDirInfo [] [] [] None None.

(** The helpers of the walker that [loadDirInfo] and [populateCache] call.
    [configureForWalk] writes to the log and may end the run, as
    [Configure] does. *)
Class WalkHelpers : Type := {
  loadBuildFile :
    walkConfig -> string -> string -> string -> list DirEntry
    -> option File * option error;
  configureForWalk : walkConfig -> string -> option File -> M walkConfig;
  isExcludedDir : walkConfig -> string -> bool;
  isExcludedFile : walkConfig -> string -> bool;
  maybeResolveSymlink : walkConfig -> string -> string -> DirEntry -> DirEntry;
  findGenFiles : walkConfig -> option File -> list string
}.

Definition liftOutcome {A} (o : outcome A) : M A := ([], o).

(** [s[:len(s):len(s)]]: the elements stay, the capacity becomes the
    length. *)
Definition capToLen (s : list string) : list string := firstn (length s) s.

Section LoadDirInfo.
Context `{WalkHelpers}.
Variable fs : FileSystem.
Variable rootConfig : Config.

(** The configuration of the parent directory: the root configuration
    for the repository root, the parent's cache slot otherwise. *)
Definition parentConfigOf {I} (configOf : I -> option walkConfig)
    (entryMap : gmap string (cacheEntry I)) (rel : string) : M walkConfig :=
  if decide (rel = "") then liftOutcome (getWalkConfig rootConfig)
  else
    let parentRel := GoPath.Dir rel in
    let parentRel := if decide (parentRel = ".") then "" else parentRel in
    parent ← liftOutcome (getLoaded entryMap parentRel);
    match configOf (fst parent) with
    | Some parentConfig => ret parentConfig
    | None => liftOutcome (Panic "nil pointer dereference")
    end.

(** The body of the loop over the entries, older version. *)
Definition classifyOld (cfg : walkConfig) (dir rel : string)
    (info : dirInfo) (e : DirEntry) : dirInfo :=
  let entryRel := GoPath.Join [rel; Name e] in
  let e := maybeResolveSymlink cfg dir entryRel e in
  if IsDir e && negb (isExcludedDir cfg entryRel) then
    mkDirInfoOld (subdirs info ++ [Name e]) (regularFiles info)
                 (file info) (config info)
  else if negb (IsDir e) && negb (isExcludedFile cfg entryRel) then
    mkDirInfoOld (subdirs info) (regularFiles info ++ [Name e])
                 (file info) (config info)
  else info.

(** [walker.loadDirInfo], older version. *)
Definition loadDirInfoOld (entryMap : gmap string (cacheEntry dirInfo))
    (rel : string) : M (dirInfo * option error) :=
  let dir := GoPath.Join [RepoRoot rootConfig; rel] in
  let '(entries, err) := os_ReadDir fs dir in
  let errs := [err] in
  parentConfig ← parentConfigOf config entryMap rel;
  let '(f, err) :=
    loadBuildFile parentConfig (ReadBuildFilesDir rootConfig) rel dir entries in
  let errs := errs ++ [err] in
  cfg ← configureForWalk parentConfig rel f;
  let entries := if isExcludedDir cfg rel then [] else entries in
  let info :=
    fold_left (classifyOld cfg dir rel) entries
              (mkDirInfoOld [] [] f (Some cfg)) in
  ret (info, GoErrors.Join errs).

(** The body of the loop over the entries, newer version. *)
Definition classify (cfg : walkConfig) (dir rel : string)
    (info : DirInfo) (e : DirEntry) : DirInfo :=
  let entryRel := GoPath.Join [rel; Name e] in
  let e := maybeResolveSymlink cfg dir entryRel e in
  if IsDir e && negb (isExcludedDir cfg entryRel) then
    mkDirInfo (Subdirs info ++ [Name e]) (RegularFiles info) (GenFiles info)
              (File_ info) (config_ info)
  else if negb (IsDir e) && negb (isExcludedFile cfg entryRel) then
    mkDirInfo (Subdirs info) (RegularFiles info ++ [Name e]) (GenFiles info)
              (File_ info) (config_ info)
  else info.

(** [walker.loadDirInfo], newer version. *)
Definition loadDirInfo (entryMap : gmap string (cacheEntry DirInfo))
    (rel : string) : M (DirInfo * option error) :=
  let dir := GoPath.Join [RepoRoot rootConfig; rel] in
  let '(entries, err) := os_ReadDir fs dir in
  let errs := [err] in
  parentConfig ← parentConfigOf config_ entryMap rel;
  let '(f, err) :=
    loadBuildFile parentConfig (ReadBuildFilesDir rootConfig) rel dir entries in
  let errs := errs ++ [err] in
  cfg ← configureForWalk parentConfig rel f;
  let entries := if isExcludedDir cfg rel then [] else entries in
  let info :=
    fold_left (classify cfg dir rel) entries
              (mkDirInfo [] [] [] f (Some cfg)) in
  let info :=
    mkDirInfo (Subdirs info) (RegularFiles info) (findGenFiles cfg f)
              (File_ info) (config_ info) in
  let info :=
    mkDirInfo (capToLen (Subdirs info)) (capToLen (RegularFiles info))
              (capToLen (GenFiles info)) (File_ info) (config_ info) in
  ret (info, GoErrors.Join errs).

End LoadDirInfo.

(** ** Closed forms of the lists [loadDirInfo] returns *)

Section Listing.
Context `{WalkHelpers}.

(** The names of the entries that are directories once symbolic links
    are resolved and that the configuration does not exclude, in the
    order of the entries. *)
Definition keptSubdirs (cfg : walkConfig) (dir rel : string)
    (entries : list DirEntry) : list string :=
  omap (fun e =>
          let entryRel := GoPath.Join [rel; Name e] in
          let e' := maybeResolveSymlink cfg dir entryRel e in
          if IsDir e' && negb (isExcludedDir cfg entryRel)
          then Some (Name e') else None) entries.

(** The names of the entries that are not directories and that the
    configuration does not exclude as files. *)
Definition keptFiles (cfg : walkConfig) (dir rel : string)
    (entries : list DirEntry) : list string :=
  omap (fun e =>
          let entryRel := GoPath.Join [rel; Name e] in
          let e' := maybeResolveSymlink cfg dir entryRel e in
          if negb (IsDir e') && negb (isExcludedFile cfg entryRel)
          then Some (Name e') else None) entries.

End Listing.

(** A newer [DirInfo] seen as an older [dirInfo]: the generated files are
    dropped. *)
Definition forget (i : DirInfo) : dirInfo :=
  mkDirInfoOld (Subdirs i) (RegularFiles i) (File_ i) (config_ i).

Definition forgetEntry (e : cacheEntry DirInfo) : cacheEntry dirInfo :=
  mkCacheEntry (doneC e) (forget (info e)) (err e).

Definition outcomeMap {A B} (f : A -> B) (o : outcome A) : outcome B :=
  match o with
  | Return a => Return (f a)
  | Exit1 => Exit1
  | Panic msg => Panic msg
  end.

(** ** [cache.get] and [populateCache] as a machine of goroutines *)

(** A loader, as [cache.get] receives it.  The cache the walker holds is
    passed explicitly: [loadDirInfo] reads its parent's slot from it. *)
Definition loader : Type :=
  gmap string (cacheEntry dirInfo) -> string -> M (dirInfo * option error).

(** Where a goroutine stands inside [cache.get]. *)
Inductive getPc : Type :=
  | GLoad                                   (* before [entryMap.Load] *)
  | GLoadOrStore                            (* before [entryMap.LoadOrStore] *)
  | GWait                                   (* receiving from [entry.doneC] *)
  | GRun                                    (* own entry stored, before [load] *)
  | GClose (r : dirInfo * option error)     (* result assigned, close deferred *)
  | GRet (r : dirInfo * option error).      (* [get] has returned [r] *)

(** What a goroutine does once its [get] has returned. *)
Inductive cont : Type :=
  | CCaller                                 (* a plain caller of [get] *)
  | CVisit                                  (* [visit]: before [<-sem] *)
  | CRange (rest : list string)             (* [visit]: the loop over subdirs *)
  | CDone                                   (* [visit] and [wg.Done] finished *)
  | CPrefix (todo rels : list string)       (* [populateCache]: prefix loads *)
  | CSpawn (rels : list string)             (* [populateCache]: spawning roots *)
  | CWait                                   (* [populateCache]: [wg.Wait] *)
  | CReturned.                              (* [populateCache] has returned *)

Record thread : Type := mkThread {
  t_key : string;
  t_load : loader;
  t_get : getPc;
  t_cont : cont
}.

(** The shared state: the cache's map, the goroutines, the number of tokens
    in the semaphore channel [sem] (capacity 6), the counter of the wait
    group, the keys for which a loader has been invoked (latest first), and
    whether the process has stopped. *)
Record state : Type := mkState {
  entryMap : gmap string (cacheEntry dirInfo);
  threads : list thread;
  sem : nat;
  wg : nat;
  loads : list string;
  halted : bool
}.

Definition semCap : nat := 6.

Definition setThread (i : nat) (t : thread) (s : state) : state :=
  mkState (entryMap s) (<[i := t]> (threads s)) (sem s) (wg s) (loads s) (halted s).

Definition setGet (g : getPc) (t : thread) : thread :=
  mkThread (t_key t) (t_load t) g (t_cont t).

Definition setCont (k : cont) (t : thread) : thread :=
  mkThread (t_key t) (t_load t) (t_get t) k.

(** The goroutine that [go func() { defer wg.Done(); visit(rel) }()]
    starts. *)
Definition visitThread (load : loader) (rel : string) : thread :=
  mkThread rel load GLoad CVisit.

Section Machine.
Context `{WalkHelpers}.

(** One step inside [cache.get] of goroutine [i], whose record is [t]. *)
Definition getStep (i : nat) (t : thread) (s : state) : option state :=
  let key := t_key t in
  match t_get t with
  | GLoad =>
      match entryMap s !! key with
      | Some _ => Some (setThread i (setGet GWait t) s)
      | None => Some (setThread i (setGet GLoadOrStore t) s)
      end
  | GLoadOrStore =>
      match entryMap s !! key with
      | Some _ => Some (setThread i (setGet GWait t) s)
      | None =>
          Some (mkState (<[key := mkCacheEntry false zeroDirInfoOld None]> (entryMap s))
                        (<[i := setGet GRun t]> (threads s))
                        (sem s) (wg s) (loads s) (halted s))
      end
  | GWait =>
      match entryMap s !! key with
      | Some e =>
          if doneC e then Some (setThread i (setGet (GRet (info e, err e)) t) s)
          else None
      | None => None
      end
  | GRun =>
      match snd (t_load t (entryMap s) key) with
      | Return r =>
          Some (mkState (alter (assignResult r) key (entryMap s))
                        (<[i := setGet (GClose r) t]> (threads s))
                        (sem s) (wg s) (key :: loads s) (halted s))
      | _ =>
          (* the loader ended the process ([log.Fatalf] or a panic) *)
          Some (mkState (entryMap s) (threads s) (sem s) (wg s)
                        (key :: loads s) true)
      end
  | GClose r =>
      Some (mkState (alter closeDone key (entryMap s))
                    (<[i := setGet (GRet r) t]> (threads s))
                    (sem s) (wg s) (loads s) (halted s))
  | GRet _ => None
  end.

(** One step of goroutine [i] after its [get] has returned [r]. *)
Definition contStep (i : nat) (t : thread) (r : dirInfo * option error)
    (s : state) : option state :=
  match t_cont t with
  | CCaller => None
  | CVisit =>
      match sem s with
      | S n =>
          let rest := match snd r with
                      | Some _ => []
                      | None => subdirs (fst r)
                      end in
          Some (mkState (entryMap s) (<[i := setCont (CRange rest) t]> (threads s))
                        n (wg s) (loads s) (halted s))
      | 0 => None
      end
  | CRange (subdir :: rest) =>
      let subdirRel := GoPath.Join [t_key t; subdir] in
      match config (fst r) with
      | None =>
          Some (mkState (entryMap s) (threads s) (sem s) (wg s) (loads s) true)
      | Some wc =>
          if isExcludedDir wc subdirRel then
            Some (setThread i (setCont (CRange rest) t) s)
          else if decide (sem s < semCap) then
            Some (mkState (entryMap s)
                          (<[i := setCont (CRange rest) t]> (threads s)
                             ++ [visitThread (t_load t) subdirRel])
                          (S (sem s)) (S (wg s)) (loads s) (halted s))
          else None
      end
  | CRange [] =>
      match wg s with
      | S n =>
          Some (mkState (entryMap s) (<[i := setCont CDone t]> (threads s))
                        (sem s) n (loads s) (halted s))
      | 0 =>
          Some (mkState (entryMap s) (threads s) (sem s) (wg s) (loads s) true)
      end
  | CDone => None
  | CPrefix (prefix :: todo) rels =>
      Some (setThread i (mkThread prefix (t_load t) GLoad (CPrefix todo rels)) s)
  | CPrefix [] rels => Some (setThread i (setCont (CSpawn rels) t) s)
  | CSpawn (dir :: rels) =>
      if decide (sem s < semCap) then
        Some (mkState (entryMap s)
                      (<[i := setCont (CSpawn rels) t]> (threads s)
                         ++ [visitThread (t_load t) dir])
                      (S (sem s)) (S (wg s)) (loads s) (halted s))
      else None
  | CSpawn [] => Some (setThread i (setCont CWait t) s)
  | CWait =>
      match wg s with
      | 0 => Some (setThread i (setCont CReturned t) s)
      | S _ => None
      end
  | CReturned => None
  end.

(** Goroutine [i] takes its next step, when it has one. *)
Definition step (i : nat) (s : state) : option state :=
  if halted s then None
  else
    match threads s !! i with
    | None => None
    | Some t =>
        match t_get t with
        | GRet r => contStep i t r s
        | _ => getStep i t s
        end
    end.

(** Some other part of the program calls [get key load]. *)
Definition call (key : string) (load : loader) (s : state) : state :=
  mkState (entryMap s) (threads s ++ [mkThread key load GLoad CCaller])
          (sem s) (wg s) (loads s) (halted s).

Inductive label : Type :=
  | Run (i : nat)
  | Call (key : string) (load : loader).

Definition stepL (l : label) (s : state) : option state :=
  match l with
  | Run i => step i s
  | Call key load => if halted s then None else Some (call key load s)
  end.

Fixpoint run (ls : list label) (s : state) : option state :=
  match ls with
  | [] => Some s
  | l :: ls' => match stepL l s with
                | Some s' => run ls' s'
                | None => None
                end
  end.

Definition isRun (l : label) : bool :=
  match l with Run _ => true | Call _ _ => false end.

(** A fresh cache and goroutines that have not started. *)
Definition initial (s : state) : Prop :=
  entryMap s = ∅ /\ loads s = [] /\ halted s = false
  /\ Forall (fun t => t_get t = GLoad) (threads s).


End Machine.

(** The loop of [populateCache] that cuts the proper prefixes of [dir] at
    its slashes.  [slash] only grows, so a fuel above the length of [dir]
    is never used up. *)
Fixpoint prefixLoop (fuel : nat) (dir : string) (slash : nat) : list string :=
  match fuel with
  | 0 => []
  | S fuel' =>
      match GoStrings.Index (sliceFrom slash dir) "/" with
      | None => []
      | Some i => sliceTo (slash + i) dir :: prefixLoop fuel' dir (slash + i + 1)
      end
  end.

Definition prefixesOf (dir : string) : list string :=
  prefixLoop (S (String.length dir)) dir 0.

(** The keys [populateCache] loads before it starts any goroutine, after
    the repository root. *)
Definition prefixKeys (rels : list string) : list string :=
  concat (map prefixesOf rels).

Section PopulateCache.
Context `{WalkHelpers}.
Variable fs : FileSystem.
Variable rootConfig : Config.

(** [walker.populateCache(rels)], older version, on a fresh cache: the
    calling goroutine is about to call [get] for the repository root. *)
Definition populateCache (rels : list string) : state :=
  mkState ∅
          [mkThread "" (loadDirInfoOld fs rootConfig) GLoad
                    (CPrefix (prefixKeys rels) rels)]
          0 0 [] false.

End PopulateCache.

(** ** Invariants of the cache machine *)

(** The goroutine that stored the entry of its key and has not closed it
    yet. *)
Definition isOwner (g : getPc) : Prop :=
  match g with
  | GRun | GClose _ => True
  | _ => False
  end.

(** What the position of a goroutine inside [get] says about the entry of
    its key. *)
Definition threadOk (em : gmap string (cacheEntry dirInfo)) (ld : list string)
    (h : bool) (t : thread) : Prop :=
  match t_get t with
  | GLoad | GLoadOrStore => True
  | GWait => is_Some (em !! t_key t)
  | GRun =>
      (exists e, em !! t_key t = Some e /\ doneC e = false)
      /\ (h = false -> t_key t ∉ ld)
  | GClose r =>
      em !! t_key t = Some (mkCacheEntry false (fst r) (snd r)) /\ t_key t ∈ ld
  | GRet r => em !! t_key t = Some (mkCacheEntry true (fst r) (snd r))
  end.

Record cacheInv (s : state) : Prop := mkCacheInv {
  inv_threads :
    forall i t, threads s !! i = Some t ->
                threadOk (entryMap s) (loads s) (halted s) t;
  inv_unique :
    forall i j ti tj,
      threads s !! i = Some ti -> threads s !! j = Some tj ->
      t_key ti = t_key tj -> isOwner (t_get ti) -> isOwner (t_get tj) -> i = j;
  inv_nodup : NoDup (loads s);
  inv_loaded : forall k, k ∈ loads s -> is_Some (entryMap s !! k);
  inv_done :
    forall k e, entryMap s !! k = Some e -> doneC e = true -> k ∈ loads s
}.


(** ** Well-formed relative paths *)

(** A file name: not empty, not [.] or [..], without a slash. *)
Definition simpleName (n : string) : Prop :=
  n <> "" /\ n <> "." /\ n <> ".." /\ GoPath.hasSlash n = false.

#[global] Instance simpleName_dec n : Decision (simpleName n).
Proof. unfold simpleName. apply _. Defined.

(** The slash-separated path with the given elements; the empty list gives
    the repository root [""]. *)
Definition relOf (elems : list string) : string := GoPath.joinSlash elems.

(** A clean path relative to the repository root. *)
Definition cleanRel (rel : string) : Prop :=
  exists elems, Forall simpleName elems /\ rel = relOf elems.

(** The key of the parent directory, as [loadDirInfo] computes it. *)
Definition parentRelOf (rel : string) : string :=
  let parentRel := GoPath.Dir rel in
  if decide (parentRel = ".") then "" else parentRel.

Definition resolved {I} (entryMap : gmap string (cacheEntry I)) (key : string)
    (r : I * option error) : Prop :=
  entryMap !! key = Some (mkCacheEntry true (fst r) (snd r)).

(** ** Invariants of [populateCache] *)

Definition isResolved (em : gmap string (cacheEntry dirInfo)) (k : string)
    : Prop :=
  exists e, em !! k = Some e /\ doneC e = true.

(** The slot that [loadDirInfo] reads for [k] is closed. *)
Definition parentReady (em : gmap string (cacheEntry dirInfo)) (k : string)
    : Prop :=
  k = "" \/ isResolved em (parentRelOf k).

(** Every closed entry of [em] is an entry of [em']. *)
Definition extends (em em' : gmap string (cacheEntry dirInfo)) : Prop :=
  forall k e, em !! k = Some e -> doneC e = true -> em' !! k = Some e.

(** The keys of [todo] are clean, and each has its parent among the keys
    that are [ready] or stand before it. *)
Fixpoint chain (ready : string -> Prop) (todo : list string) : Prop :=
  match todo with
  | [] => True
  | k :: todo' =>
      cleanRel k /\ (k = "" \/ ready (parentRelOf k))
      /\ chain (fun x => ready x \/ x = k) todo'
  end.

(** The keys were loaded parents first ([ld] has the latest first). *)
Fixpoint loadOrdered (ld : list string) : Prop :=
  match ld with
  | [] => True
  | k :: rest => (k = "" \/ parentRelOf k ∈ rest) /\ loadOrdered rest
  end.

Definition contOk (em : gmap string (cacheEntry dirInfo)) (t : thread) : Prop :=
  match t_cont t with
  | CRange rest => Forall simpleName rest
  | CPrefix todo rels =>
      chain (fun x => isResolved em x \/ x = t_key t) todo
      /\ Forall (fun d => cleanRel d
                          /\ (d = "" \/ isResolved em (parentRelOf d)
                              \/ parentRelOf d = t_key t
                              \/ parentRelOf d ∈ todo)) rels
  | CSpawn rels => Forall (fun d => cleanRel d /\ parentReady em d) rels
  | _ => True
  end.

Definition prefetchOk (L : loader) (em : gmap string (cacheEntry dirInfo))
    (t : thread) : Prop :=
  t_load t = L /\ cleanRel (t_key t) /\ parentReady em (t_key t) /\ contOk em t.

(** The calling goroutine while it loads the prefixes is alone ([n], the
    number of goroutines, is 1) and the keys before the one it is loading
    are resolved; afterwards the root and all prefixes are. *)
Definition mainCond (rels : list string)
    (em : gmap string (cacheEntry dirInfo)) (n : nat) (t0 : thread) : Prop :=
  match t_cont t0 with
  | CPrefix todo _ =>
      n = 1
      /\ exists pre, "" :: prefixKeys rels = pre ++ t_key t0 :: todo
                     /\ Forall (isResolved em) pre
  | _ => Forall (isResolved em) ("" :: prefixKeys rels)
  end.

(** The calling goroutine is goroutine 0. *)
Definition mainOk (rels : list string) (s : state) : Prop :=
  exists t0, threads s !! 0 = Some t0
             /\ mainCond rels (entryMap s) (length (threads s)) t0.

Record prefetchInv (L : loader) (rels : list string) (s : state) : Prop :=
  mkPrefetchInv {
    pf_threads :
      forall i t, threads s !! i = Some t -> prefetchOk L (entryMap s) t;
    pf_entries :
      forall k e, entryMap s !! k = Some e ->
        Forall simpleName (subdirs (info e))
        /\ (k ∈ loads s -> halted s = false -> is_Some (config (info e)));
    pf_main : mainOk rels s;
    pf_order : loadOrdered (loads s)
  }.

(** ** Closed forms of what the directives of a build file add up to *)

Section DirectiveSummary.
Context `{Doublestar}.

(** The patterns that the directives with key [key] contribute: the
    value joined with [rel], when the joined pattern is well formed, in
    file order. *)
Definition acceptedPatterns (rel key : string) (ds : list Directive)
    : list string :=
  omap (fun d =>
          if decide (Key d = key) then
            match checkPathMatchPattern (GoPath.Join [rel; Value d]) with
            | None => Some (GoPath.Join [rel; Value d])
            | Some _ => None
            end
          else None) ds.

Definition knownMode (value : string) : bool :=
  bool_decide (GoStrings.TrimSpace value = generationModeUpdate)
  || bool_decide (GoStrings.TrimSpace value = generationModeCreate).

(** Every [generation_mode] directive names one of the two modes. *)
Definition modesKnown (ds : list Directive) : bool :=
  forallb (fun d => if decide (Key d = "generation_mode")
                    then knownMode (Value d) else true) ds.

(** The mode the last [generation_mode] directive selects, [init] when
    there is none. *)
Definition lastGenerationMode (init : bool) (ds : list Directive) : bool :=
  fold_left (fun b d =>
               if decide (Key d = "generation_mode") then
                 bool_decide (GoStrings.TrimSpace (Value d) = generationModeUpdate)
               else b) ds init.

Definition hasIgnore (ds : list Directive) : bool :=
  existsb (fun d => bool_decide (Key d = "ignore")) ds.

(** The child configuration as the specification describes it. *)
Definition childConfig (wc : walkConfig) (rel : string) (f : option File)
    : walkConfig :=
  match f with
  | None => setIgnore false wc
  | Some f =>
      {| updateOnly := lastGenerationMode (updateOnly wc) (Directives f);
         excludes := excludes wc ++ acceptedPatterns rel "exclude" (Directives f);
         ignore := hasIgnore (Directives f);
         follow := follow wc ++ acceptedPatterns rel "follow" (Directives f) |}
  end.

End DirectiveSummary.

(** What one line of the flat ignore file contributes to the set. *)
Definition storedEntry (text : string) : option string :=
  let ignore := GoStrings.TrimSpace text in
  if decide (ignore = "") then None
  else if GoStrings.HasPrefix ignore "#" then None
  else if GoStrings.ContainsAny ignore "*?[" then None
  else Some (GoPath.Clean ignore).

(** [p] lies strictly beneath the directory [e]. *)
Definition strictlyBeneath (e p : string) : bool :=
  GoStrings.HasPrefix p (e +:+ "/") && negb (bool_decide (p = e +:+ "/")).

(** ** A sample repository

    The tree of the package's tests: a root with a build file and a flat
    ignore file, a directory [sub] that excludes itself, a directory [dir3]
    named in the ignore file, a directory [locked] that cannot be read and
    a directory [broken] whose build file does not parse. *)
Module Sample.

Definition entry (name : string) (isDir : bool) : DirEntry :=
  mkDirEntry name isDir false.

Definition bazelignoreLines : list string :=
  [""; "dir"; "dir2/a/b"; "dir3/"; "";
   "# Globs are not allowed in .bazelignore so this will not be ignored";
   "foo/*"; "";
   "# Random comment followed by a line"; "a.file"; "";
   "# Paths can have a ./ prefix"; "./b.file"; "././blah/../ugly/c.file"].

Definition permissionDenied : error :=
  OsError false "open /repo/locked: permission denied".

Definition noSuchFile : error :=
  OsError true "open /repo/REPO.bazel: no such file or directory".

Definition syntaxError : error :=
  ErrorString "/repo/broken/BUILD.bazel:1:1: syntax error".

Definition fs : FileSystem := {|
  os_Open path :=
    if decide (path = "/repo/.bazelignore")
    then inr (mkScanned bazelignoreLines None)
    else inl (OsError true "no such file or directory");
  os_ReadFile path := inl noSuchFile;
  os_ReadDir dir :=
    if decide (dir = "/repo") then
      ([entry ".bazelignore" false; entry "BUILD.bazel" false;
        entry "a.file" false; entry "broken" true; entry "dir3" true;
        entry "locked" true; entry "static" false; entry "sub" true], None)
    else if decide (dir = "/repo/sub") then
      ([entry "BUILD.bazel" false; entry "below" true], None)
    else if decide (dir = "/repo/sub/below") then
      ([entry "BUILD.bazel" false], None)
    else if decide (dir = "/repo/broken") then
      ([entry "BUILD.bazel" false; entry "x.go" false], None)
    else if decide (dir = "/repo/dir3") then ([entry "g" true], None)
    else if decide (dir = "/repo/dir3/g") then ([entry "h" false], None)
    else if decide (dir = "/repo/locked") then ([], Some permissionDenied)
    else ([], Some (OsError true "no such file or directory"))
|}.



Definition inputOutputError : error :=
  OsError false "input/output error".


(** A file system whose [.bazelignore] breaks off after its second line,
    and whose directory [flaky] breaks off after two entries:
    [os.ReadDir] returns the entries read so far with the error. *)
Definition cutShort : FileSystem := {|
  os_Open path :=
    if decide (path = "/repo/.bazelignore")
    then inr (mkScanned ["dir"; "dir2/a/b"] (Some inputOutputError))
    else inl (OsError true "no such file or directory");
  os_ReadFile path := inl noSuchFile;
  os_ReadDir dir :=
    if decide (dir = "/repo/flaky")
    then ([entry "d" true; entry "x.go" false], Some inputOutputError)
    else ([], Some (OsError true "no such file or directory"))
|}.

(** A file system whose [.bazelignore] has the given lines, and what the
    predicate loaded from it says of a path. *)
Definition ignoring (lines : list string) : FileSystem := {|
  os_Open path :=
    if decide (path = "/repo/.bazelignore") then inr (mkScanned lines None)
    else inl (OsError true "no such file or directory");
  os_ReadFile path := inl noSuchFile;
  os_ReadDir dir := ([], Some (OsError true "no such file or directory"))
|}.

Definition ignoredBy (lines : list string) (p : string) : bool :=
  match snd (loadBazelIgnore (ignoring lines) "/repo") with
  | Return (isBazelIgnored, _) => isBazelIgnored p
  | _ => false
  end.

Definition parser : BzlParser :=
  fun filename content => inl (ErrorString "syntax error").

Definition rootFile : File :=
  mkFile "" [] [mkRule (Some "gen1") []; mkRule None ["gen2"; "static"]].

Definition subFile : File := mkFile "sub" [mkDirective "exclude" "."] [].

Definition belowFile : File := mkFile "sub/below" [] [].

Definition hasBuildFile (entries : list DirEntry) : bool :=
  existsb (fun e => bool_decide (Name e = "BUILD.bazel")) entries.

(** Helpers of the walker: build files come from a table, the
    configuration from the loop of [Configure], exclusion is a match
    against the [excludes], symbolic links are not followed and the
    generated files are those the rules declare. *)
Definition helpers : WalkHelpers := {|
  loadBuildFile parentConfig readBuildFilesDir rel dir entries :=
    if negb (hasBuildFile entries) then (None, None)
    else if decide (rel = "") then (Some rootFile, None)
    else if decide (rel = "sub") then (Some subFile, None)
    else if decide (rel = "sub/below") then (Some belowFile, None)
    else (None, Some syntaxError);
  configureForWalk := configureWalk (H := LiteralGlob);
  isExcludedDir := isExcluded (H := LiteralGlob);
  isExcludedFile := isExcluded (H := LiteralGlob);
  maybeResolveSymlink wc dir rel e := e;
  findGenFiles wc f :=
    match f with
    | Some f =>
        flat_map (fun r => from_option (fun o => [o]) [] (AttrOut r) ++ AttrOuts r)
                 (Rules f)
    | None => []
    end
|}.

Definition rootWalkConfig : walkConfig := mkWalkConfig false ["vendor"] true [].

Definition rootConfig : Config :=
  mkConfig "/repo" "" {[ walkName := WalkExt rootWalkConfig ]}.

Definition directives : list Directive :=
  [mkDirective "exclude" "gen"; mkDirective "generation_mode" " update_only";
   mkDirective "follow" "link"; mkDirective "exclude" "bad[";
   mkDirective "unknown" "x"].

(** The configurations derived for the root and for [sub]. *)
Definition rootDerived : walkConfig := mkWalkConfig false ["vendor"] false [].
Definition subDerived : walkConfig :=
  mkWalkConfig false ["vendor"; "sub"] false [].

(** A cache of the newer walker in which the root is resolved. *)
Definition newCache : gmap string (cacheEntry DirInfo) :=
  {[ "" := mkCacheEntry true
             (mkDirInfo ["broken"; "dir3"; "locked"; "sub"]
                        [".bazelignore"; "BUILD.bazel"; "a.file"; "static"]
                        ["gen1"; "gen2"; "static"]
                        (Some rootFile) (Some rootDerived))
             None ]}.

(** Requested roots, and schedules of the goroutines of
    [populateCache]: the calling goroutine up to the return of its first
    [get]; then the start of the three roots, a second caller of [get]
    for [dir3] with a loader of its own, racing with the goroutine that
    visits [dir3]; and a run of every goroutine to its end. *)
Definition rels : list string := ["sub"; "dir3"; "locked"].

Definition otherLoader : loader := fun _ _ => ret (zeroDirInfoOld, None).

Definition start : state := populateCache (H := helpers) fs rootConfig rels.

Definition serial : list label := map Run [0; 0; 0; 0].

Definition racing : list label :=
  map Run [0; 0; 0; 0; 0]
  ++ [Call "dir3" otherLoader; Run 2; Run 4; Run 2; Run 4; Run 2; Run 2; Run 4].

Definition toTheEnd : list label :=
  map Run [0; 0; 0; 0; 0; 0; 0; 0; 0; 1; 1; 1; 1; 1; 1; 2; 2; 2; 2; 2; 2; 2;
           3; 3; 3; 3; 3; 3; 4; 4; 4; 4; 4; 4; 0].

End Sample.

(** ** The directives the walker declares *)

(** [Configurer.KnownDirectives]. *)
Definition KnownDirectives : list string :=
  ["generation_mode"; "exclude"; "follow"; "ignore"].

(** A build file without the directives whose key the walker does not
    declare. *)
Definition knownOnly (f : File) : File :=
  mkFile (Pkg f)
         (filter (fun d => Key d ∈ KnownDirectives) (Directives f))
         (Rules f).

(** ** Normal form of [path.Clean]; the log of the flat ignore file *)

(** The output of [path.Clean] as a stack of elements, last written
    first: names on top of the [..] elements that could not be removed;
    a rooted path keeps no [..]. *)
Definition cleanStack (rooted : bool) (out : list string) : Prop :=
  exists names dotdots,
    out = names ++ dotdots /\ Forall simpleName names
    /\ Forall (fun e => e = "..") dotdots
    /\ (rooted = true -> dotdots = []).

(** The message [loadBazelIgnore] logs for a line, if any. *)
Definition bazelIgnoreLog (text : string) : list logEvent :=
  let ignore := GoStrings.TrimSpace text in
  if decide (ignore = "") then []
  else if GoStrings.HasPrefix ignore "#" then []
  else if GoStrings.ContainsAny ignore "*?[" then [LogBazelIgnoreGlob ignore]
  else [].

(** ** Closed forms for the repository file *)

(** A statement that calls [ignore_directories]. *)
Definition isIgnoreDirectoriesCall (e : Expr) : bool :=
  match e with
  | CallExpr (Ident name) _ => bool_decide (name = "ignore_directories")
  | _ => false
  end.

Section RepoIgnoreSummary.
Context `{Doublestar}.

(** The string literals of the list whose pattern is well formed, in
    order, and the log messages for those whose pattern is not. *)
Definition validItems (items : list Expr) : list string :=
  omap (fun e => match e with
                 | StringExpr value =>
                     match checkPathMatchPattern value with
                     | None => Some value
                     | Some _ => None
                     end
                 | _ => None
                 end) items.

Definition invalidItemsLog (items : list Expr) : list logEvent :=
  omap (fun e => match e with
                 | StringExpr value =>
                     match checkPathMatchPattern value with
                     | None => None
                     | Some err => Some (LogBadIgnoreDirectories value err)
                     end
                 | _ => None
                 end) items.

End RepoIgnoreSummary.

(** ** Bookkeeping of the semaphore and the wait group *)

(** The goroutines started for a visit that have not yet received from
    [sem]: each of them holds one token of the semaphore. *)
Definition holdsToken (t : thread) : bool :=
  match t_cont t with CVisit => true | _ => false end.

(** The goroutines that were added to the wait group and have not yet
    called [wg.Done]. *)
Definition counted (t : thread) : bool :=
  match t_cont t with CVisit | CRange _ => true | _ => false end.

(** Continuations that are reached only once [get] has returned. *)
Definition pastGet (k : cont) : bool :=
  match k with
  | CRange _ | CDone | CSpawn _ | CWait | CReturned => true
  | _ => false
  end.

(** Continuations of the goroutine that called [populateCache], and of
    the goroutines it starts. *)
Definition isMain (k : cont) : bool :=
  match k with
  | CPrefix _ _ | CSpawn _ | CWait | CReturned => true
  | _ => false
  end.

Definition isVisit (k : cont) : bool :=
  match k with CVisit | CRange _ | CDone => true | _ => false end.

(** A goroutine that has nothing left to do. *)
Definition finished (t : thread) : bool :=
  match t_get t, t_cont t with
  | GRet _, (CCaller | CDone | CReturned) => true
  | _, _ => false
  end.

Definition countIf (p : thread -> bool) (l : list thread) : nat :=
  length (List.filter p l).

(** A goroutine started for a visit whose [get] has not returned yet. *)
Definition loading (t : thread) : bool :=
  isVisit (t_cont t) && match t_get t with GRet _ => false | _ => true end.

Section Scheduling.
Context `{WalkHelpers}.

(** Why a directory is visited: it is one of the requested roots, or the
    listing of its parent, loaded without error, names it and the
    parent's configuration does not exclude it. *)
Definition visitOrigin (rels : list string)
    (em : gmap string (cacheEntry dirInfo)) (k : string) : Prop :=
  k ∈ rels
  \/ exists parent sub e cfg,
       k = GoPath.Join [parent; sub]
       /\ em !! parent = Some e /\ doneC e = true /\ err e = None
       /\ sub ∈ subdirs (info e) /\ config (info e) = Some cfg
       /\ isExcludedDir cfg k = false.

(** The bookkeeping of [populateCache]: [closed] tells that no other part
    of the program calls [get]. *)
Record schedInv (closed : bool) (rels : list string) (s : state) : Prop :=
  mkSchedInv {
    sched_sem : sem s = countIf holdsToken (threads s);
    sched_cap : sem s <= semCap;
    sched_wg : wg s = countIf counted (threads s);
    sched_ret :
      forall i t, threads s !! i = Some t -> pastGet (t_cont t) = true ->
                  exists r, t_get t = GRet r;
    sched_owner :
      forall k e, entryMap s !! k = Some e -> doneC e = false ->
        exists i t, threads s !! i = Some t /\ t_key t = k
                    /\ isOwner (t_get t);
    sched_main :
      forall i t, threads s !! i = Some t ->
                  isMain (t_cont t) = bool_decide (i = 0);
    sched_closed :
      closed = true ->
      forall i t, threads s !! i = Some t -> t_cont t <> CCaller;
    sched_origin :
      forall i t, threads s !! i = Some t -> isVisit (t_cont t) = true ->
                  visitOrigin rels (entryMap s) (t_key t);
    sched_range :
      forall i t r rest,
        threads s !! i = Some t -> t_get t = GRet r ->
        t_cont t = CRange rest ->
        (forall x, x ∈ rest -> x ∈ subdirs (fst r))
        /\ (rest <> [] -> snd r = None);
    sched_rels :
      forall i t, threads s !! i = Some t ->
        match t_cont t with
        | CPrefix _ rs | CSpawn rs => forall x, x ∈ rs -> x ∈ rels
        | _ => True
        end;
    sched_first : 0 < length (threads s);
    sched_returned :
      forall t0, threads s !! 0 = Some t0 -> t_cont t0 = CReturned -> wg s = 0
  }.

End Scheduling.

(** ** Positions of the slashes of a path *)

(** The positions of the slashes of [s], counted from [off]. *)
Fixpoint slashesFrom (off : nat) (s : string) : list nat :=
  match s with
  | EmptyString => []
  | String c s' =>
      (if is_slash c then [off] else []) ++ slashesFrom (S off) s'
  end.

(** ** Import resolution of the proto extension (language/proto/resolve.go) *)

(** [strings.HasSuffix]. *)
Definition strings_HasSuffix (s suffix : string) : bool :=
  (String.length suffix <=? String.length s)
  && bool_decide (sliceFrom (String.length s - String.length suffix) s = suffix).

(** [sort.Strings]: ascending byte order.  The result of sorting does not
    depend on the algorithm; insertion is the one written here. *)
Fixpoint insertString (x : string) (l : list string) : list string :=
  match l with
  | [] => [x]
  | y :: l' => if String.leb x y then x :: l else y :: insertString x l'
  end.

Definition sort_Strings (l : list string) : list string :=
  foldr insertString [] l.

Module Proto.

(** [resolve.ImportSpec], [label.Label] and [resolve.FindResult], as far
    as this file reads them. *)
Record ImportSpec : Type := mkImportSpec { Lang : string; Imp : string }.

Record Label : Type := mkLabel {
  Repo : string;
  LabelPkg : string;
  LabelName : string;
  Relative : bool
}.

#[global] Instance Label_eq_dec : EqDecision Label.
Proof. solve_decision. Defined.

Definition setRepo (repo : string) (l : Label) : Label :=
  mkLabel repo (LabelPkg l) (LabelName l) (Relative l).

Record FindResult : Type := mkFindResult { FoundLabel : Label }.

(** The errors of this file: the two sentinels, compared by identity, and
    the two made with [fmt.Errorf], kept with their arguments. *)
Inductive resolveError : Type :=
  | errSkipImport
  | errNotFound
  | ErrNonProto (imp : string)
  | ErrMultipleRules (first second : Label) (imp : string) (from : Label).

#[global] Instance resolveError_eq_dec : EqDecision resolveError.
Proof. solve_decision. Defined.


(** The attributes of a [rule.Rule]: [R] is the rule. *)
Class RuleAttrs (R : Type) : Type := {
  AttrStrings : R -> string -> list string;
  AttrString : R -> string -> string;
  DelAttr : R -> string -> R;
  SetAttr : R -> string -> list string -> R
}.

(** What the resolution looks up outside this file: packages [label],
    [resolve] and [config], the tables of known imports and the name of
    the rule of a directory.  [Ix] is the rule index.
    [ShouldUseKnownImports c] is
    [GetProtoConfig(c).Mode.ShouldUseKnownImports()], for a configuration
    that holds the proto extension. *)
Class Lookups (Ix : Type) : Type := {
  NoLabel : Label;
  label_New : string -> string -> string -> Label;
  label_Equal : Label -> Label -> bool;
  label_Rel : Label -> string -> string -> Label;
  label_String : Label -> string;
  RuleName : string -> string;
  knownImports : string -> option Label;
  knownProtoImports : string -> option Label;
  bazelModuleRepos : string -> option string;
  ShouldUseKnownImports : Config -> bool;
  ModuleToApparentName : Config -> string -> string;
  FindRuleWithOverride : Config -> ImportSpec -> string -> option Label;
  FindRulesByImportWithConfig :
    Ix -> Config -> ImportSpec -> string -> list FindResult;
  IsSelfImport : FindResult -> Label -> bool
}.

Section Resolve.
Context `{Pathtools} {R Ix : Type} `{RuleAttrs R} `{Lookups Ix}.



(** [protoLang.Embeds]. *)
Definition Embeds (r : R) (from : Label) : list Label := [].

(** [resolveWithIndex]. *)
Definition resolveWithIndex (c : Config) (ix : Ix) (imp : string)
    (from : Label) : Label * option resolveError :=
  let matches :=
    FindRulesByImportWithConfig ix c (mkImportSpec "proto" imp) "proto" in
  match matches with
  | [] => (NoLabel, Some errNotFound)
  | m0 :: m1 :: _ =>
      (NoLabel,
       Some (ErrMultipleRules (FoundLabel m0) (FoundLabel m1) imp from))
  | [m0] =>
      if IsSelfImport m0 from then (NoLabel, Some errSkipImport)
      else (FoundLabel m0, None)
  end.

(** The end of [resolveProto]: the rule index, then the rule named after
    the directory of the import. *)
Definition resolveIndexed (c : Config) (ix : Ix) (imp : string)
    (from : Label) : Label * option resolveError :=
  match resolveWithIndex c ix imp from with
  | (l, None) => (l, None)
  | (l, Some err) =>
      if decide (err = errSkipImport) then (l, Some err)
      else if decide (err <> errNotFound) then (NoLabel, Some err)
      else
        let rel := GoPath.Dir imp in
        let rel := if decide (rel = ".") then "" else rel in
        let name := RuleName rel in
        (label_New "" rel name, None)
  end.

(** [resolveProto]. *)
Definition resolveProto (c : Config) (ix : Ix) (r : R) (imp : string)
    (from : Label) : Label * option resolveError :=
  if negb (strings_HasSuffix imp ".proto") then
    (NoLabel, Some (ErrNonProto imp))
  else
    match FindRuleWithOverride c (mkImportSpec "proto" imp) "proto" with
    | Some l => (l, None)
    | None =>
        match knownImports imp with
        | Some l =>
            if ShouldUseKnownImports c then
              if label_Equal l from then (NoLabel, Some errSkipImport)
              else
                match bazelModuleRepos (Repo l) with
                | Some workspaceName =>
                    let apparentRepoName :=
                      ModuleToApparentName c (Repo l) in
                    if decide (apparentRepoName = "")
                    then (setRepo workspaceName l, None)
                    else (setRepo apparentRepoName l, None)
                | None => (l, None)
                end
            else resolveIndexed c ix imp from
        | None => resolveIndexed c ix imp from
        end
    end.

(** The value of [importsRaw]: nil, a [[]string], or anything else. *)
Inductive rawImports : Type :=
  | RawNil
  | RawStrings (imports : list string)
  | RawOther.

(** The body of the loop of [Resolve]: what is printed, and the set of
    dependencies. *)
Definition resolveOne (c : Config) (ix : Ix) (r : R) (from : Label)
    (acc : list resolveError * gset string) (imp : string)
    : list resolveError * gset string :=
  match resolveProto c ix r imp from with
  | (l, Some err) =>
      if decide (err = errSkipImport) then acc
      else (fst acc ++ [err], snd acc)
  | (l, None) =>
      let l := label_Rel l (Repo from) (LabelPkg from) in
      (fst acc, {[label_String l]} ∪ snd acc)
  end.

(** [protoLang.Resolve]: the messages printed and the rule afterwards. *)
Definition Resolve (c : Config) (ix : Ix) (r : R) (importsRaw : rawImports)
    (from : Label) : list resolveError * outcome R :=
  match importsRaw with
  | RawNil => ([], Return r)
  | RawOther => ([], Panic "interface conversion")
  | RawStrings imports =>
      let r := DelAttr r "deps" in
      let '(printed, depSet) :=
        fold_left (resolveOne c ix r from) imports ([], ∅) in
      if decide (0 < size depSet) then
        (printed, Return (SetAttr r "deps" (sort_Strings (elements depSet))))
      else (printed, Return r)
  end.

(** [protoLang.CrossResolve]. *)
Definition CrossResolve (c : Config) (ix : Ix) (imp : ImportSpec)
    (lang : string) : list FindResult :=
  if decide (lang <> "go") then []
  else if bool_decide (Lang imp = "proto") && ShouldUseKnownImports c then
    match knownProtoImports (Imp imp) with
    | Some l => [mkFindResult l]
    | None => []
    end
  else [].

End Resolve.

End Proto.

(** ** More of the sample repository

    A repository file with two calls of [ignore_directories], one with
    two arguments, and one without any; the proto rules of two
    directories with the tables their imports are resolved from. *)
Module SampleMore.

Definition repoStatements : list Expr :=
  [CallExpr (Ident "repo") [StringExpr "sample"];
   OtherExpr "*build.AssignExpr";
   CallExpr (Ident "ignore_directories")
     [ListExpr [StringExpr "out"; StringExpr "bad["; Ident "x";
                StringExpr "third_party"]];
   CallExpr (Ident "ignore_directories") [ListExpr [StringExpr "late"]]].

Definition parser : BzlParser :=
  fun filename content =>
    if decide (content = "list") then inr repoStatements
    else if decide (content = "pair") then
      inr [CallExpr (Ident "ignore_directories")
             [StringExpr "a"; StringExpr "b"];
           CallExpr (Ident "ignore_directories") [ListExpr [StringExpr "c"]]]
    else if decide (content = "plain") then
      inr [CallExpr (Ident "repo") [StringExpr "sample"]]
    else inl (ErrorString "syntax error").

(** A storage whose repository file has the given content. *)
Definition fsWith (content : string) : FileSystem := {|
  os_Open path := inl Sample.noSuchFile;
  os_ReadFile path := inr content;
  os_ReadDir dir := ([], None)
|}.

Definition subFile : File :=
  mkFile "sub" [mkDirective "exclude" "gen"; mkDirective "ignore" "";
                mkDirective "generation_mode" "update_only"] [].

Definition belowFile : File :=
  mkFile "sub/below" [mkDirective "follow" "link";
                      mkDirective "generation_mode" "create_and_update";
                      mkDirective "exclude" "bad["] [].


Record rule : Type := mkRule {
  r_srcs : list string;
  r_strip_import_prefix : string;
  r_import_prefix : string;
  r_deps : option (list string)
}.

Definition ruleAttrs : Proto.RuleAttrs rule := {|
  Proto.AttrStrings r key :=
    if decide (key = "srcs") then r_srcs r
    else if decide (key = "deps") then default [] (r_deps r)
    else [];
  Proto.AttrString r key :=
    if decide (key = "strip_import_prefix") then r_strip_import_prefix r
    else if decide (key = "import_prefix") then r_import_prefix r
    else "";
  Proto.DelAttr r key :=
    if decide (key = "deps")
    then mkRule (r_srcs r) (r_strip_import_prefix r) (r_import_prefix r) None
    else r;
  Proto.SetAttr r key value :=
    if decide (key = "deps")
    then mkRule (r_srcs r) (r_strip_import_prefix r) (r_import_prefix r)
                (Some value)
    else r
|}.

(** The rule index: the imports that rules of the repository provide. *)
Definition index : Type := list (string * Proto.Label).

Definition lookups : Proto.Lookups index := {|
  Proto.NoLabel := Proto.mkLabel "" "" "" false;
  Proto.label_New repo pkg name := Proto.mkLabel repo pkg name false;
  Proto.label_Equal l1 l2 := bool_decide (l1 = l2);
  Proto.label_Rel l repo pkg := l;
  Proto.label_String l :=
    "//" +:+ Proto.LabelPkg l +:+ ":" +:+ Proto.LabelName l;
  Proto.RuleName rel := rel +:+ "_proto";
  Proto.knownImports imp :=
    if decide (imp = "google/protobuf/any.proto")
    then Some (Proto.mkLabel "com_google_protobuf" "" "any_proto" false)
    else None;
  Proto.knownProtoImports imp := None;
  Proto.bazelModuleRepos repo := None;
  Proto.ShouldUseKnownImports c := true;
  Proto.ModuleToApparentName c repo := "";
  Proto.FindRuleWithOverride c imp lang := None;
  Proto.FindRulesByImportWithConfig ix c imp lang :=
    omap (fun '(i, l) => if decide (i = Proto.Imp imp)
                         then Some (Proto.mkFindResult l) else None) ix;
  Proto.IsSelfImport m from := bool_decide (Proto.FoundLabel m = from)
|}.

Definition protoRule : rule :=
  mkRule ["foo.proto"; "sub/bar.proto"] "" "" (Some ["//old:dep"]).

Definition protoIndex : index :=
  [("b/b.proto", Proto.mkLabel "" "b" "b_proto" false);
   ("twice.proto", Proto.mkLabel "" "x" "x_proto" false);
   ("twice.proto", Proto.mkLabel "" "y" "y_proto" false)].

Definition protoImports : list string :=
  ["b/b.proto"; "a/a.proto"; "notes.txt"; "b/b.proto"; "twice.proto"].

Definition here : Proto.Label := Proto.mkLabel "" "here" "here_proto" false.

End SampleMore.

(** * Properties *)

(** ** Byte strings and paths *)

Lemma app_String (c : ascii) (s t : string) :
  String c s +:+ t = String c (s +:+ t).
Proof. reflexivity. Qed.

Lemma app_empty_l (t : string) : "" +:+ t = t.
Proof. reflexivity. Qed.

Lemma app_empty_r (s : string) : s +:+ "" = s.
Proof. induction s as [|c s IH]; [done|]. by rewrite app_String, IH. Qed.

Lemma app_assoc_s (s t u : string) : (s +:+ t) +:+ u = s +:+ (t +:+ u).
Proof. induction s as [|c s IH]; [done|]. by rewrite !app_String, IH. Qed.

Lemma bind_ret_l {A B} (a : A) (k : A -> M B) : ret a ≫= k = k a.
Proof. unfold mbind, M_bind, bind, ret. by destruct (k a). Qed.

Example Clean_examples :
  GoPath.Clean "a/b/../c" = "a/c" /\ GoPath.Clean "/.." = "/" /\
  GoPath.Clean "../../a" = "../../a" /\ GoPath.Clean "a/../.." = ".." /\
  GoPath.Clean "a//b/" = "a/b" /\ GoPath.Clean "./" = "." /\
  GoPath.Clean "././blah/../ugly/c.file" = "ugly/c.file" /\
  GoPath.Clean "dir3/" = "dir3" /\ GoPath.Clean "/a/../../b" = "/b".
Proof. repeat split; reflexivity. Qed.

Example Join_examples :
  GoPath.Join ["sub"; "."] = "sub" /\ GoPath.Join [""; "a.go"] = "a.go" /\
  GoPath.Join [""; ""] = "" /\ GoPath.Join ["a"; ""] = "a" /\
  GoPath.Join ["a/b"; "c/**/b"] = "a/b/c/**/b" /\
  GoPath.Join ["/repo"; ""] = "/repo".
Proof. repeat split; reflexivity. Qed.

Example Dir_examples :
  GoPath.Dir "a/b/c" = "a/b" /\ GoPath.Dir "a" = "." /\ GoPath.Dir "/a" = "/" /\
  GoPath.Dir "a/" = "a" /\ GoPath.Dir "" = ".".
Proof. repeat split; reflexivity. Qed.

Example TrimSpace_examples :
  GoStrings.TrimSpace "  update_only " = "update_only" /\
  GoStrings.TrimSpace "" = "" /\ GoStrings.TrimSpace "   " = "" /\
  GoStrings.TrimSpace "a b" = "a b".
Proof. repeat split; reflexivity. Qed.


(** ** The configuration chain *)

Section ConfigureFacts.
Context `{Doublestar}.

Lemma bind_Return {A B} (m : M A) (k : A -> M B) (a : A) :
  snd m = Return a -> snd (m ≫= k) = snd (k a).
Proof.
  destruct m as [l o]; simpl; intros ->.
  unfold mbind, M_bind, bind. by destruct (k a).
Qed.

Lemma bind_Exit1 {A B} (m : M A) (k : A -> M B) :
  snd m = Exit1 -> snd (m ≫= k) = Exit1.
Proof. destruct m as [l o]; simpl; by intros ->. Qed.

Lemma bind_log {A B} (m : M A) (k : A -> M B) (a : A) :
  snd m = Return a -> fst (m ≫= k) = fst m ++ fst (k a).
Proof.
  destruct m as [l o]; simpl; intros ->.
  unfold mbind, M_bind, bind. by destruct (k a).
Qed.

(** One directive, by cases on its key. *)
Lemma applyDirective_outcome rel pkg wc d :
  snd (applyDirective rel pkg wc d) =
    if decide (Key d = "generation_mode") then
      if knownMode (Value d)
      then Return (setUpdateOnly
             (bool_decide (GoStrings.TrimSpace (Value d) = generationModeUpdate)) wc)
      else Exit1
    else if decide (Key d = "exclude") then
      Return (setExcludes (excludes wc ++ acceptedPatterns rel "exclude" [d]) wc)
    else if decide (Key d = "follow") then
      Return (setFollow (follow wc ++ acceptedPatterns rel "follow" [d]) wc)
    else if decide (Key d = "ignore") then Return (setIgnore true wc)
    else Return wc.
Proof.
  unfold applyDirective, knownMode, acceptedPatterns.
  destruct d as [k v]; simpl.
  destruct (decide (k = "generation_mode")) as [->|Hmode].
  { destruct (decide (GoStrings.TrimSpace v = generationModeUpdate)) as [Hu|Hu].
    - by rewrite (bool_decide_eq_true_2 _ Hu).
    - rewrite (bool_decide_eq_false_2 _ Hu); simpl.
      destruct (decide (GoStrings.TrimSpace v = generationModeCreate)) as [Hc|Hc].
      + by rewrite (bool_decide_eq_true_2 _ Hc).
      + by rewrite (bool_decide_eq_false_2 _ Hc). }
  destruct (decide (k = "exclude")) as [->|Hexcl].
  { destruct (checkPathMatchPattern _); simpl; [|done].
    rewrite app_nil_r. by destruct wc. }
  destruct (decide (k = "follow")) as [->|Hfoll].
  { destruct (checkPathMatchPattern _); simpl; [|done].
    rewrite app_nil_r. by destruct wc. }
  destruct (decide (k = "ignore")) as [->|Hign]; [|done].
  by destruct (decide (v = "")).
Qed.

Lemma acceptedPatterns_cons rel key d ds :
  acceptedPatterns rel key (d :: ds) =
    acceptedPatterns rel key [d] ++ acceptedPatterns rel key ds.
Proof.
  unfold acceptedPatterns; simpl.
  case_decide; [|done]. by destruct (checkPathMatchPattern _).
Qed.

Lemma acceptedPatterns_other rel key d :
  Key d <> key -> acceptedPatterns rel key [d] = [].
Proof. intros. unfold acceptedPatterns; simpl. by rewrite decide_False. Qed.

Ltac simpl_wc :=
  cbn [updateOnly excludes ignore follow
       setUpdateOnly setExcludes setFollow setIgnore].

(** The loop over the directives, from any starting configuration. *)
Lemma applyDirectives_outcome rel pkg ds wc :
  snd (applyDirectives rel pkg ds wc) =
    if modesKnown ds then
      Return {| updateOnly := lastGenerationMode (updateOnly wc) ds;
                excludes := excludes wc ++ acceptedPatterns rel "exclude" ds;
                ignore := ignore wc || hasIgnore ds;
                follow := follow wc ++ acceptedPatterns rel "follow" ds |}
    else Exit1.
Proof.
  revert wc. induction ds as [|d ds IH]; intros wc.
  - simpl. unfold acceptedPatterns; simpl.
    rewrite !app_nil_r, orb_false_r. by destruct wc.
  - cbn [applyDirectives].
    pose proof (applyDirective_outcome rel pkg wc d) as Hd.
    rewrite (acceptedPatterns_cons rel "exclude"),
      (acceptedPatterns_cons rel "follow").
    cbn [modesKnown forallb lastGenerationMode fold_left hasIgnore existsb].
    fold (modesKnown ds) (hasIgnore ds).
    fold (lastGenerationMode
            (if decide (Key d = "generation_mode")
             then bool_decide (GoStrings.TrimSpace (Value d) = generationModeUpdate)
             else updateOnly wc) ds).
    revert Hd.
    destruct (decide (Key d = "generation_mode")) as [Hmode|Hmode].
    { destruct (knownMode (Value d)) eqn:Hk; intros Hd.
      - rewrite (bind_Return _ _ _ Hd), IH; simpl_wc.
        rewrite !acceptedPatterns_other by congruence.
        by rewrite (bool_decide_eq_false_2 (Key d = "ignore")) by congruence.
      - by rewrite (bind_Exit1 _ _ Hd). }
    destruct (decide (Key d = "exclude")) as [Hexcl|Hexcl]; intros Hd.
    { rewrite (bind_Return _ _ _ Hd), IH; simpl_wc.
      rewrite (acceptedPatterns_other rel "follow") by congruence.
      rewrite (bool_decide_eq_false_2 (Key d = "ignore")) by congruence.
      by rewrite <- app_assoc. }
    revert Hd.
    destruct (decide (Key d = "follow")) as [Hfoll|Hfoll]; intros Hd.
    { rewrite (bind_Return _ _ _ Hd), IH; simpl_wc.
      rewrite (acceptedPatterns_other rel "exclude") by congruence.
      rewrite (bool_decide_eq_false_2 (Key d = "ignore")) by congruence.
      by rewrite <- app_assoc. }
    revert Hd.
    destruct (decide (Key d = "ignore")) as [Hign|Hign]; intros Hd.
    { rewrite (bind_Return _ _ _ Hd), IH; simpl_wc.
      rewrite !acceptedPatterns_other by congruence.
      rewrite (bool_decide_eq_true_2 (Key d = "ignore")) by done.
      by rewrite orb_true_r. }
    rewrite (bind_Return _ _ _ Hd), IH; simpl_wc.
    rewrite !acceptedPatterns_other by congruence.
    by rewrite (bool_decide_eq_false_2 (Key d = "ignore")) by congruence.
Qed.

Lemma configureWalk_outcome wc rel f :
  snd (configureWalk wc rel f) =
    if from_option (fun f => modesKnown (Directives f)) true f
    then Return (childConfig wc rel f) else Exit1.
Proof.
  destruct f as [f|]; simpl; [|done].
  by rewrite applyDirectives_outcome.
Qed.

End ConfigureFacts.

Section ConfigureClaims.
Context `{Doublestar}.

Lemma bind_assoc {A B C} (m : M A) (f : A -> M B) (g : B -> M C) :
  (m ≫= f) ≫= g = m ≫= (fun a => f a ≫= g).
Proof.
  destruct m as [l [a| |msg]]; try reflexivity.
  unfold mbind, M_bind, bind.
  destruct (f a) as [l1 [b| |msg]]; try reflexivity.
  destruct (g b) as [l2 r]. by rewrite app_assoc.
Qed.

Lemma bind_ext {A B} (m : M A) (f g : A -> M B) :
  (forall a, f a = g a) -> m ≫= f = m ≫= g.
Proof.
  intros Hfg. destruct m as [l [a| |msg]]; try reflexivity.
  unfold mbind, M_bind, bind. by rewrite Hfg.
Qed.

Lemma applyDirectives_app rel pkg ds1 ds2 wc :
  applyDirectives rel pkg (ds1 ++ ds2) wc =
    applyDirectives rel pkg ds1 wc ≫= applyDirectives rel pkg ds2.
Proof.
  revert wc. induction ds1 as [|d ds1 IH]; intros wc.
  - symmetry. apply (bind_ret_l wc (applyDirectives rel pkg ds2)).
  - cbn [app applyDirectives].
    rewrite bind_assoc. apply bind_ext. intros wc'. apply IH.
Qed.

Lemma modesKnown_app ds1 ds2 :
  modesKnown (ds1 ++ ds2) = modesKnown ds1 && modesKnown ds2.
Proof. apply forallb_app. Qed.

Lemma acceptedPatterns_app rel key ds1 ds2 :
  acceptedPatterns rel key (ds1 ++ ds2) =
    acceptedPatterns rel key ds1 ++ acceptedPatterns rel key ds2.
Proof. apply omap_app. Qed.

Lemma hasIgnore_app ds1 ds2 :
  hasIgnore (ds1 ++ ds2) = hasIgnore ds1 || hasIgnore ds2.
Proof. apply existsb_app. Qed.

Lemma lastGenerationMode_app init ds1 ds2 :
  lastGenerationMode init (ds1 ++ ds2) =
    lastGenerationMode (lastGenerationMode init ds1) ds2.
Proof. apply fold_left_app. Qed.

(** A directive that is neither a mode nor an accepted pattern nor
    [ignore] leaves the summary of the file as it is. *)
Lemma rejected_pattern_dropped rel pkg before d after wc :
  Key d = "exclude" \/ Key d = "follow" ->
  is_Some (checkPathMatchPattern (GoPath.Join [rel; Value d])) ->
  snd (applyDirectives rel pkg (before ++ d :: after) wc)
  = snd (applyDirectives rel pkg (before ++ after) wc).
Proof.
  intros Hkey [err Herr].
  rewrite !applyDirectives_outcome.
  assert (Hrej : forall key, acceptedPatterns rel key [d] = []).
  { intros key. unfold acceptedPatterns; simpl.
    case_decide; [|done]. by rewrite Herr. }
  assert (Hg : Key d <> "generation_mode") by (destruct Hkey; congruence).
  assert (Hi : Key d <> "ignore") by (destruct Hkey; congruence).
  replace (before ++ d :: after) with (before ++ [d] ++ after) by done.
  rewrite !modesKnown_app, !acceptedPatterns_app, !hasIgnore_app,
    !lastGenerationMode_app, !Hrej.
  cbn [modesKnown forallb lastGenerationMode fold_left hasIgnore existsb].
  rewrite !decide_False by done.
  by rewrite (bool_decide_eq_false_2 _ Hi).
Qed.

Lemma getWalkConfig_stored wc m c :
  getWalkConfig (setExts (<[walkName := WalkExt wc]> m) c) = Return wc.
Proof. unfold getWalkConfig. simpl. by rewrite lookup_insert_eq. Qed.

Lemma Configure_returns c wc rel f c' :
  getWalkConfig c = Return wc ->
  snd (Configure c rel f) = Return c' ->
  from_option (fun f => modesKnown (Directives f)) true f = true
  /\ c' = setExts (<[walkName := WalkExt (childConfig wc rel f)]> (Exts c)) c.
Proof.
  intros Hwc. unfold Configure. rewrite Hwc.
  pose proof (configureWalk_outcome wc rel f) as Hout.
  destruct (from_option _ true f).
  - rewrite (bind_Return _ _ _ Hout). by intros [= <-].
  - by rewrite (bind_Exit1 _ _ Hout).
Qed.

(** C1.  [Configure] replaces the walker's extension of the
    configuration by the child configuration: the parent's with [ignore]
    reset and the directives of the build file applied in file order.
    The child's [excludes] and [follow] are the parent's followed by the
    accepted patterns of the file (the value joined with [rel]), its
    [updateOnly] is what the last [generation_mode] directive selects and
    the parent's when there is none, its [ignore] is set exactly when the
    file has an [ignore] directive, and without a build file the child is
    the parent with [ignore] reset.  The call returns unless a
    [generation_mode] directive names no known mode; in the configuration
    it leaves, the walker's extension read back is the child
    configuration, and the other extensions, the repository root and the
    build file directory are those of the configuration it was given. *)
Theorem Configure_derives_child (c : Config) (wc : walkConfig)
    (rel : string) (f : option File) :
  getWalkConfig c = Return wc ->
  snd (configureWalk wc rel f)
    = snd (applyDirectives rel (from_option Pkg "" f)
             (from_option Directives [] f) (setIgnore false wc))
  /\ snd (Configure c rel f)
    = (if from_option (fun f => modesKnown (Directives f)) true f
       then Return (setExts (<[walkName := WalkExt (childConfig wc rel f)]> (Exts c)) c)
       else Exit1)
  /\ (forall c',
        snd (Configure c rel f) = Return c' ->
        getWalkConfig c' = Return (childConfig wc rel f)
        /\ Exts c' !! walkName = Some (WalkExt (childConfig wc rel f))
        /\ (forall k, k <> walkName -> Exts c' !! k = Exts c !! k)
        /\ RepoRoot c' = RepoRoot c
        /\ ReadBuildFilesDir c' = ReadBuildFilesDir c)
  /\ childConfig wc rel None = setIgnore false wc
  /\ (forall f',
        updateOnly (childConfig wc rel (Some f'))
          = lastGenerationMode (updateOnly wc) (Directives f')
        /\ excludes (childConfig wc rel (Some f'))
          = excludes wc ++ acceptedPatterns rel "exclude" (Directives f')
        /\ follow (childConfig wc rel (Some f'))
          = follow wc ++ acceptedPatterns rel "follow" (Directives f')
        /\ ignore (childConfig wc rel (Some f')) = hasIgnore (Directives f')).
Proof.
  intros Hwc. split; [by destruct f|]. split; [|split; [|by split]].
  - unfold Configure. rewrite Hwc.
    pose proof (configureWalk_outcome wc rel f) as Hout.
    destruct (from_option _ true f).
    + by rewrite (bind_Return _ _ _ Hout).
    + by rewrite (bind_Exit1 _ _ Hout).
  - intros c' Hret.
    destruct (Configure_returns _ _ _ _ _ Hwc Hret) as [_ ->].
    split; [apply getWalkConfig_stored|]. split.
    { cbn [Exts setExts]. by rewrite lookup_insert_eq. }
    split; [|done].
    intros k Hk. cbn [Exts setExts]. by rewrite lookup_insert_ne.
Qed.

(** C6, as the code has it.  A [generation_mode] directive is compared
    after [strings.TrimSpace]: the trimmed value [update_only] sets
    [updateOnly], [create_and_update] clears it, and any other trimmed
    value ends the run with [log.Fatalf] wherever the directive stands in
    the file.  An [exclude] or [follow] directive whose joined pattern is
    malformed is logged and leaves the configuration as it is; the file
    configures the directory as it would without that directive. *)
Theorem generation_mode_trimmed_and_bad_patterns_dropped
    (rel pkg : string) (wc : walkConfig) (d : Directive)
    (before after : list Directive) :
  (Key d = "generation_mode" ->
     (GoStrings.TrimSpace (Value d) = "update_only" ->
        applyDirective rel pkg wc d = ret (setUpdateOnly true wc))
     /\ (GoStrings.TrimSpace (Value d) = "create_and_update" ->
        applyDirective rel pkg wc d = ret (setUpdateOnly false wc))
     /\ (GoStrings.TrimSpace (Value d) <> "update_only" ->
         GoStrings.TrimSpace (Value d) <> "create_and_update" ->
         applyDirective rel pkg wc d
           = ([LogUnknownGenerationMode (Value d) pkg], Exit1)
         /\ snd (applyDirectives rel pkg (before ++ d :: after) wc) = Exit1))
  /\ (forall err,
        checkPathMatchPattern (GoPath.Join [rel; Value d]) = Some err ->
        (Key d = "exclude" ->
           applyDirective rel pkg wc d
             = ([LogBadExclude (GoPath.Join [rel; Value d]) err], Return wc))
        /\ (Key d = "follow" ->
           applyDirective rel pkg wc d
             = ([LogBadFollow (GoPath.Join [rel; Value d]) err], Return wc))
        /\ (Key d = "exclude" \/ Key d = "follow" ->
           snd (applyDirectives rel pkg (before ++ d :: after) wc)
           = snd (applyDirectives rel pkg (before ++ after) wc)
           /\ forall wc0,
               snd (applyDirectives rel pkg before wc0) = Return wc ->
               fst (applyDirectives rel pkg (before ++ d :: after) wc0)
               = fst (applyDirectives rel pkg before wc0)
                 ++ fst (applyDirective rel pkg wc d)
                 ++ fst (applyDirectives rel pkg after wc))).
Proof.
  split.
  - intros Hkey. unfold applyDirective. rewrite (decide_True _ _ Hkey).
    split; [|split].
    + intros Hv. by rewrite decide_True.
    + intros Hv. rewrite decide_False; [by rewrite decide_True|].
      rewrite Hv. discriminate.
    + intros Hu Hc. rewrite !decide_False by done. split; [done|].
      rewrite applyDirectives_outcome.
      replace (before ++ d :: after) with (before ++ [d] ++ after) by done.
      rewrite !modesKnown_app.
      cbn [modesKnown forallb]. rewrite (decide_True _ _ Hkey).
      unfold knownMode.
      rewrite (bool_decide_eq_false_2 _ Hu), (bool_decide_eq_false_2 _ Hc).
      simpl. by rewrite andb_false_r.
  - intros err Herr. split; [|split].
    + intros Hkey. unfold applyDirective.
      rewrite decide_False by (rewrite Hkey; discriminate).
      by rewrite (decide_True _ _ Hkey), Herr.
    + intros Hkey. unfold applyDirective.
      rewrite !decide_False by (rewrite Hkey; discriminate).
      by rewrite (decide_True _ _ Hkey), Herr.
    + intros Hkey. split; [by apply rejected_pattern_dropped|].
      intros wc0 Hbefore.
      rewrite applyDirectives_app, (bind_log _ _ _ Hbefore).
      f_equal. cbn [applyDirectives].
      apply bind_log. unfold applyDirective.
      destruct Hkey as [Hkey|Hkey].
      * rewrite decide_False by (rewrite Hkey; discriminate).
        by rewrite (decide_True _ _ Hkey), Herr.
      * rewrite !decide_False by (rewrite Hkey; discriminate).
        by rewrite (decide_True _ _ Hkey), Herr.
Qed.

End ConfigureClaims.

(** ** The ignore files *)

Section TrimFacts.
Import GoStrings.

Lemma list_ascii_app (s t : string) :
  list_ascii_of_string (s +:+ t)
  = list_ascii_of_string s ++ list_ascii_of_string t.
Proof. induction s as [|c s IH]; [done|]. rewrite app_String. simpl. by rewrite IH. Qed.

Lemma string_of_list_app (l1 l2 : list ascii) :
  string_of_list_ascii (l1 ++ l2)
  = string_of_list_ascii l1 +:+ string_of_list_ascii l2.
Proof. induction l1 as [|c l1 IH]; [done|]. simpl. by rewrite IH. Qed.

Lemma space2_slash c : space2 "/" c = false.
Proof. reflexivity. Qed.

Lemma space3_slash c2 c1 : space3 "/" c2 c1 = false.
Proof. reflexivity. Qed.

Lemma space3_dot c2 c1 : space3 "." c2 c1 = false.
Proof. reflexivity. Qed.

Lemma space2_dot c : space2 "." c = false.
Proof. reflexivity. Qed.

Lemma trimLeftRev_unfold (l : list ascii) :
  trimLeftRev l =
    match l with
    | [] => []
    | c1 :: r1 =>
        if asciiSpace c1 then trimLeftRev r1
        else match r1 with
             | c2 :: r2 =>
                 if space2 c2 c1 then trimLeftRev r2
                 else match r2 with
                      | c3 :: r3 => if space3 c3 c2 c1 then trimLeftRev r3 else l
                      | [] => l
                      end
             | [] => l
             end
    end.
Proof. by destruct l. Qed.

(** The scan from the end never reaches across a leading [./]. *)
Lemma trimLeftRev_dotslash (l : list ascii) :
  trimLeftRev (l ++ ["/"; "."]%char) = trimLeftRev l ++ ["/"; "."]%char.
Proof.
  remember (length l) as n eqn:Hn. revert l Hn.
  induction n as [n IH] using lt_wf_ind. intros l Hn.
  destruct l as [|c1 r1]; [reflexivity|].
  rewrite (trimLeftRev_unfold (c1 :: r1)),
    (trimLeftRev_unfold ((c1 :: r1) ++ _)).
  cbn [app].
  destruct (asciiSpace c1).
  { apply (IH (length r1)); [simpl in Hn; lia|done]. }
  destruct r1 as [|c2 r2]; cbn [app].
  { by rewrite space2_slash, space3_dot. }
  destruct (space2 c2 c1).
  { apply (IH (length r2)); [simpl in Hn; lia|done]. }
  destruct r2 as [|c3 r3]; cbn [app].
  { by rewrite space3_slash. }
  destruct (space3 c3 c2 c1); [|done].
  apply (IH (length r3)); [simpl in Hn; lia|done].
Qed.

Lemma trimRight_dotslash (e : string) :
  trimRight ("./" +:+ e) = "./" +:+ trimRight e.
Proof.
  unfold trimRight.
  rewrite list_ascii_app. cbn [list_ascii_of_string].
  rewrite rev_app_distr. cbn [rev app].
  rewrite trimLeftRev_dotslash, rev_app_distr. cbn [rev app].
  reflexivity.
Qed.

Lemma trimLeft_dotslash (e : string) :
  trimLeft ("./" +:+ e) = "./" +:+ e.
Proof.
  rewrite !app_String, app_empty_l. cbn [trimLeft].
  change (asciiSpace ".") with false. cbv iota.
  rewrite space2_dot. destruct e; [done|]. by rewrite space3_dot.
Qed.

Lemma TrimSpace_dotslash (e : string) :
  trimLeft e = e -> TrimSpace ("./" +:+ e) = "./" +:+ TrimSpace e.
Proof.
  intros He. unfold TrimSpace.
  by rewrite trimLeft_dotslash, trimRight_dotslash, He.
Qed.

Lemma ContainsAny_dotslash (t : string) :
  ContainsAny ("./" +:+ t) "*?[" = ContainsAny t "*?[".
Proof. reflexivity. Qed.

End TrimFacts.

Section CleanFacts.
Import GoPath.

Lemma Clean_dotslash (t : string) :
  t <> "" -> isRooted t = false -> Clean ("./" +:+ t) = Clean t.
Proof.
  intros Ht Hroot. unfold Clean.
  rewrite (decide_False _ _ Ht).
  rewrite !app_String, app_empty_l.
  rewrite decide_False by discriminate.
  cbn [isRooted splitSlash is_slash].
  change (bool_decide ("."%char = "/"%char)) with false.
  change (bool_decide ("/"%char = "/"%char)) with true.
  cbv iota. rewrite Hroot.
  cbn [fold_left].
  replace (cleanStep false [] ".") with (@nil string) by reflexivity.
  done.
Qed.

End CleanFacts.

Section IgnoreClaims.

Lemma storedEntry_Some (text p : string) :
  storedEntry text = Some p <->
  (let ignore := GoStrings.TrimSpace text in
   ignore <> "" /\ GoStrings.HasPrefix ignore "#" = false
   /\ GoStrings.ContainsAny ignore "*?[" = false /\ p = GoPath.Clean ignore).
Proof.
  unfold storedEntry. cbv zeta.
  destruct (decide (GoStrings.TrimSpace text = "")) as [He|He].
  { split; [done|]. by intros [? _]. }
  destruct (GoStrings.HasPrefix _ "#").
  { split; [done|]. by intros (_ & ? & _). }
  destruct (GoStrings.ContainsAny _ _).
  { split; [done|]. by intros (_ & _ & ? & _). }
  split; [by intros [= <-]|]. by intros (_ & _ & _ & ->).
Qed.

Lemma bazelIgnoreLine_outcome (excludes : gset string) (text : string) :
  snd (bazelIgnoreLine excludes text)
  = Return (from_option (fun e => {[e]} ∪ excludes) excludes (storedEntry text)).
Proof.
  unfold bazelIgnoreLine, storedEntry.
  destruct (decide (GoStrings.TrimSpace text = "")); [done|].
  destruct (GoStrings.HasPrefix _ "#"); [done|].
  by destruct (GoStrings.ContainsAny _ _).
Qed.

Lemma bazelIgnoreLines_outcome (lines : list string) (excludes : gset string) :
  snd (bazelIgnoreLines lines excludes)
  = Return (list_to_set (omap storedEntry lines) ∪ excludes).
Proof.
  revert excludes. induction lines as [|text lines IH]; intros excludes.
  - simpl. f_equal. set_solver.
  - cbn [bazelIgnoreLines].
    rewrite (bind_Return _ _ _ (bazelIgnoreLine_outcome excludes text)), IH.
    f_equal. cbn [omap list_omap].
    destruct (storedEntry text); simpl; set_solver.
Qed.

Lemma loadBazelIgnore_opened (fs : FileSystem) (repoRoot : string)
    (file : scanned) :
  os_Open fs (GoPath.Join [repoRoot; ".bazelignore"]) = inr file ->
  snd (loadBazelIgnore fs repoRoot)
  = Return (fun p => bool_decide
                       (p ∈ (list_to_set (omap storedEntry (scanLines file)) ∪ ∅
                             : gset string)),
            None).
Proof.
  intros Hopen. unfold loadBazelIgnore. rewrite Hopen.
  by rewrite (bind_Return _ _ _ (bazelIgnoreLines_outcome (scanLines file) ∅)).
Qed.

(** The predicate of an opened flat ignore file is membership among the
    entries its scanned lines store. *)
Lemma loadBazelIgnore_membership (fs : FileSystem) (repoRoot : string)
    (file : scanned) :
  os_Open fs (GoPath.Join [repoRoot; ".bazelignore"]) = inr file ->
  exists isBazelIgnored : isIgnoredFunc,
    snd (loadBazelIgnore fs repoRoot) = Return (isBazelIgnored, None)
    /\ forall p, isBazelIgnored p = true <->
                 exists text, text ∈ scanLines file /\ storedEntry text = Some p.
Proof.
  intros Hopen. eexists. split; [by apply loadBazelIgnore_opened|].
  intros p. cbv beta. rewrite bool_decide_eq_true.
  rewrite elem_of_union, elem_of_list_to_set, list_elem_of_omap.
  split.
  - intros [Hin|Hin]; [done|]. by apply elem_of_empty in Hin.
  - auto.
Qed.

(** An entry with a leading [./] is stored as the entry without it. *)
Lemma storedEntry_dotslash (e : string) :
  GoStrings.trimLeft e = e ->
  GoStrings.TrimSpace e <> "" ->
  GoPath.isRooted (GoStrings.TrimSpace e) = false ->
  GoStrings.HasPrefix (GoStrings.TrimSpace e) "#" = false ->
  storedEntry ("./" +:+ e) = storedEntry e.
Proof.
  intros Hleft Hne Hroot Hhash. unfold storedEntry.
  rewrite (TrimSpace_dotslash _ Hleft).
  rewrite decide_False by discriminate.
  rewrite (decide_False _ _ Hne), Hhash.
  change (GoStrings.HasPrefix ("./" +:+ GoStrings.TrimSpace e) "#") with false.
  cbv iota. rewrite ContainsAny_dotslash.
  by rewrite (Clean_dotslash _ Hne Hroot).
Qed.

(** C5, as the code has it.  The predicate that [loadBazelIgnore] returns
    holds of [p] exactly when [p] is the cleaned form of the trimmed text
    of some line that is not blank, does not start with [#] and has none
    of the characters [*], [?], [[]: membership in the set of stored
    entries, so that a path beneath a stored entry is matched only when it
    is a stored entry itself.  A line [./e] stores what the line [e]
    stores, for [e] that is not blank and starts neither with white
    space, [/] nor [#]; blank lines, comment lines and lines with a glob
    character store nothing. *)
Theorem flat_ignore_is_exact_membership (fs : FileSystem)
    (repoRoot : string) (file : scanned) :
  os_Open fs (GoPath.Join [repoRoot; ".bazelignore"]) = inr file ->
  (exists isBazelIgnored : isIgnoredFunc,
      snd (loadBazelIgnore fs repoRoot) = Return (isBazelIgnored, None)
      /\ (forall p, isBazelIgnored p = true <->
                    exists text, text ∈ scanLines file
                                 /\ storedEntry text = Some p)
      /\ (forall e p,
            strictlyBeneath e p = true -> isBazelIgnored p = true ->
            exists text, text ∈ scanLines file /\ storedEntry text = Some p))
  /\ (forall text p,
        storedEntry text = Some p <->
        (GoStrings.TrimSpace text <> ""
         /\ GoStrings.HasPrefix (GoStrings.TrimSpace text) "#" = false
         /\ GoStrings.ContainsAny (GoStrings.TrimSpace text) "*?[" = false
         /\ p = GoPath.Clean (GoStrings.TrimSpace text)))
  /\ (forall text,
        GoStrings.TrimSpace text = ""
        \/ GoStrings.HasPrefix (GoStrings.TrimSpace text) "#" = true
        \/ GoStrings.ContainsAny (GoStrings.TrimSpace text) "*?[" = true ->
        storedEntry text = None)
  /\ (forall e,
        GoStrings.trimLeft e = e ->
        GoStrings.TrimSpace e <> "" ->
        GoPath.isRooted (GoStrings.TrimSpace e) = false ->
        GoStrings.HasPrefix (GoStrings.TrimSpace e) "#" = false ->
        storedEntry ("./" +:+ e) = storedEntry e).
Proof.
  intros Hopen. split; [|split; [|split]].
  - destruct (loadBazelIgnore_membership _ _ _ Hopen) as (pred & Hret & Hiff).
    exists pred. split; [done|]. split; [done|].
    intros e p _ Hp. by apply Hiff.
  - apply storedEntry_Some.
  - intros text Hskip. unfold storedEntry.
    destruct (decide (GoStrings.TrimSpace text = "")) as [He|He]; [done|].
    destruct Hskip as [Hskip|[Hskip|Hskip]]; [done|by rewrite Hskip|].
    rewrite Hskip. by destruct (GoStrings.HasPrefix _ "#").
  - apply storedEntry_dotslash.
Qed.


End IgnoreClaims.

(** ** [loadDirInfo] *)

Section LoadDirInfoFacts.
Context `{WalkHelpers}.
Variable fs : FileSystem.
Variable rootConfig : Config.

Lemma capToLen_id (l : list string) : capToLen l = l.
Proof. apply firstn_all. Qed.

Lemma classify_fold cfg dir rel entries init :
  fold_left (classify cfg dir rel) entries init
  = mkDirInfo (Subdirs init ++ keptSubdirs cfg dir rel entries)
              (RegularFiles init ++ keptFiles cfg dir rel entries)
              (GenFiles init) (File_ init) (config_ init).
Proof.
  revert init. induction entries as [|e entries IH]; intros init.
  - simpl. rewrite !app_nil_r. by destruct init.
  - cbn [fold_left]. rewrite IH. unfold classify, keptSubdirs, keptFiles.
    cbn [omap list_omap].
    destruct (IsDir _); simpl.
    + destruct (isExcludedDir cfg _); simpl; [done|].
      by rewrite <- app_assoc.
    + destruct (isExcludedFile cfg _); simpl; [done|].
      by rewrite <- app_assoc.
Qed.

Lemma classifyOld_fold cfg dir rel entries init :
  fold_left (classifyOld cfg dir rel) entries init
  = mkDirInfoOld (subdirs init ++ keptSubdirs cfg dir rel entries)
                 (regularFiles init ++ keptFiles cfg dir rel entries)
                 (file init) (config init).
Proof.
  revert init. induction entries as [|e entries IH]; intros init.
  - simpl. rewrite !app_nil_r. by destruct init.
  - cbn [fold_left]. rewrite IH. unfold classifyOld, keptSubdirs, keptFiles.
    cbn [omap list_omap].
    destruct (IsDir _); simpl.
    + destruct (isExcludedDir cfg _); simpl; [done|].
      by rewrite <- app_assoc.
    + destruct (isExcludedFile cfg _); simpl; [done|].
      by rewrite <- app_assoc.
Qed.

(** The newer loader, once the parent configuration is at hand and the
    configuration of the directory has been derived. *)
Lemma loadDirInfo_returns entryMap rel parentConfig l1 f ferr l2 cfg :
  let dir := GoPath.Join [RepoRoot rootConfig; rel] in
  parentConfigOf rootConfig config_ entryMap rel = (l1, Return parentConfig) ->
  loadBuildFile parentConfig (ReadBuildFilesDir rootConfig) rel dir
                (fst (os_ReadDir fs dir)) = (f, ferr) ->
  configureForWalk parentConfig rel f = (l2, Return cfg) ->
  loadDirInfo fs rootConfig entryMap rel
  = (l1 ++ l2,
     Return
       (let entries := if isExcludedDir cfg rel then []
                       else fst (os_ReadDir fs dir) in
        mkDirInfo (keptSubdirs cfg dir rel entries)
                  (keptFiles cfg dir rel entries)
                  (findGenFiles cfg f) f (Some cfg),
        GoErrors.Join [snd (os_ReadDir fs dir); ferr])).
Proof.
  intros dir Hparent Hfile Hcfg. unfold loadDirInfo. fold dir.
  destruct (os_ReadDir fs dir) as [entries rerr]. simpl in Hfile.
  rewrite Hparent. unfold mbind, M_bind, bind.
  rewrite Hfile, Hcfg. unfold ret. rewrite app_nil_r.
  rewrite classify_fold. cbn [Subdirs RegularFiles GenFiles File_ config_ app].
  by rewrite !capToLen_id.
Qed.

(** C4.  When the configuration derived for a directory excludes the
    directory itself, [loadDirInfo] returns no subdirectories and no
    regular files; the build file, the derived configuration and the
    joined error of reading the directory and loading the build file are
    returned as they would be otherwise. *)
Theorem excluded_directory_has_empty_lists entryMap rel parentConfig l1 f
    ferr l2 cfg :
  let dir := GoPath.Join [RepoRoot rootConfig; rel] in
  parentConfigOf rootConfig config_ entryMap rel = (l1, Return parentConfig) ->
  loadBuildFile parentConfig (ReadBuildFilesDir rootConfig) rel dir
                (fst (os_ReadDir fs dir)) = (f, ferr) ->
  configureForWalk parentConfig rel f = (l2, Return cfg) ->
  isExcludedDir cfg rel = true ->
  exists info,
    snd (loadDirInfo fs rootConfig entryMap rel)
    = Return (info, GoErrors.Join [snd (os_ReadDir fs dir); ferr])
    /\ Subdirs info = [] /\ RegularFiles info = []
    /\ File_ info = f /\ config_ info = Some cfg.
Proof.
  intros dir Hparent Hfile Hcfg Hexcl.
  rewrite (loadDirInfo_returns _ _ _ _ _ _ _ _ Hparent Hfile Hcfg).
  fold dir. rewrite Hexcl. eexists. split; [reflexivity|]. done.
Qed.

(** C7, as the code has it.  When reading the entries of a directory
    fails, [loadDirInfo] returns: the lists are those of the entries that
    [os.ReadDir] returned with its error, classified as usual (so they
    are empty when it returned none), the configuration is derived from
    the parent's and the build file that could be loaded, and the error
    is the join of a list that holds the storage error.  When the build
    file fails to load, the file is absent, the lists are those of the
    entries read, and the error holds the load error. *)
Theorem unreadable_directory_still_returns entryMap rel parentConfig l1 l2
    cfg :
  let dir := GoPath.Join [RepoRoot rootConfig; rel] in
  parentConfigOf rootConfig config_ entryMap rel = (l1, Return parentConfig) ->
  (forall entries e f ferr,
      os_ReadDir fs dir = (entries, Some e) ->
      loadBuildFile parentConfig (ReadBuildFilesDir rootConfig) rel dir entries
        = (f, ferr) ->
      configureForWalk parentConfig rel f = (l2, Return cfg) ->
      exists info errs,
        loadDirInfo fs rootConfig entryMap rel
        = (l1 ++ l2, Return (info, Some (joinError errs)))
        /\ e ∈ errs /\ GoErrors.Join [Some e; ferr] = Some (joinError errs)
        /\ Subdirs info
           = keptSubdirs cfg dir rel
               (if isExcludedDir cfg rel then [] else entries)
        /\ RegularFiles info
           = keptFiles cfg dir rel
               (if isExcludedDir cfg rel then [] else entries)
        /\ (entries = [] -> Subdirs info = [] /\ RegularFiles info = [])
        /\ File_ info = f /\ config_ info = Some cfg)
  /\ (forall entries rerr e,
      os_ReadDir fs dir = (entries, rerr) ->
      loadBuildFile parentConfig (ReadBuildFilesDir rootConfig) rel dir entries
        = (None, Some e) ->
      configureForWalk parentConfig rel None = (l2, Return cfg) ->
      exists info errs,
        loadDirInfo fs rootConfig entryMap rel
        = (l1 ++ l2, Return (info, Some (joinError errs)))
        /\ e ∈ errs /\ GoErrors.Join [rerr; Some e] = Some (joinError errs)
        /\ File_ info = None /\ config_ info = Some cfg
        /\ Subdirs info
           = keptSubdirs cfg dir rel
               (if isExcludedDir cfg rel then [] else entries)
        /\ RegularFiles info
           = keptFiles cfg dir rel
               (if isExcludedDir cfg rel then [] else entries)).
Proof.
  intros dir Hparent. split.
  - intros entries e f ferr Hread Hfile Hcfg.
    assert (Hfile' : loadBuildFile parentConfig (ReadBuildFilesDir rootConfig)
                       rel dir (fst (os_ReadDir fs dir)) = (f, ferr))
      by (by rewrite Hread).
    rewrite (loadDirInfo_returns _ _ _ _ _ _ _ _ Hparent Hfile' Hcfg).
    fold dir. rewrite Hread. cbn [fst snd].
    eexists. destruct ferr as [fe|].
    + exists [e; fe]. split; [reflexivity|]. split; [set_solver|].
      do 3 (split; [done|]). split; [|done].
      intros ->. by destruct (isExcludedDir cfg rel).
    + exists [e]. split; [reflexivity|]. split; [set_solver|].
      do 3 (split; [done|]). split; [|done].
      intros ->. by destruct (isExcludedDir cfg rel).
  - intros entries rerr e Hread Hfile Hcfg.
    assert (Hfile' : loadBuildFile parentConfig (ReadBuildFilesDir rootConfig)
                       rel dir (fst (os_ReadDir fs dir)) = (None, Some e))
      by (by rewrite Hread).
    rewrite (loadDirInfo_returns _ _ _ _ _ _ _ _ Hparent Hfile' Hcfg).
    fold dir. rewrite Hread. cbn [fst snd].
    eexists. destruct rerr as [re|].
    + exists [re; e]. repeat split; try done. set_solver.
    + exists [e]. repeat split; try done. set_solver.
Qed.

Lemma parentConfigOf_forget (entryMap : gmap string (cacheEntry DirInfo)) rel :
  parentConfigOf rootConfig config (forgetEntry <$> entryMap) rel
  = parentConfigOf rootConfig config_ entryMap rel.
Proof.
  unfold parentConfigOf. case_decide; [done|].
  unfold getLoaded. rewrite lookup_fmap.
  destruct (entryMap !! _) as [e|]; [|done]. simpl.
  by destruct (doneC e).
Qed.

(** C10.  On the same storage, root configuration and cache contents the
    newer and the older [loadDirInfo] write the same log and stop or
    return alike; when they return, the older result is the newer one
    without its generated files: the same subdirectories and regular
    files in the same order, the same build file, configuration and
    error.  The generated files of the newer result are those of the
    build file under the derived configuration. *)
Theorem newer_loadDirInfo_refines_older
    (entryMap : gmap string (cacheEntry DirInfo)) (rel : string) :
  let older := loadDirInfoOld fs rootConfig (forgetEntry <$> entryMap) rel in
  let newer := loadDirInfo fs rootConfig entryMap rel in
  fst older = fst newer
  /\ snd older = outcomeMap (fun r => (forget (fst r), snd r)) (snd newer)
  /\ (forall i e, snd newer = Return (i, e) ->
        exists io cfg,
          snd older = Return (io, e)
          /\ subdirs io = Subdirs i /\ regularFiles io = RegularFiles i
          /\ file io = File_ i /\ config io = config_ i
          /\ config_ i = Some cfg
          /\ GenFiles i = findGenFiles cfg (File_ i)).
Proof.
  cbv zeta. unfold loadDirInfoOld, loadDirInfo.
  destruct (os_ReadDir fs _) as [entries rerr].
  rewrite parentConfigOf_forget.
  destruct (parentConfigOf _ _ _ _) as [l1 [parentConfig| |msg]];
    try (by repeat split).
  unfold mbind, M_bind, bind.
  destruct (loadBuildFile _ _ _ _ _) as [f ferr].
  destruct (configureForWalk _ _ _) as [l2 [cfg| |msg]];
    try (by repeat split).
  unfold ret. rewrite classify_fold, classifyOld_fold.
  cbn [Subdirs RegularFiles GenFiles File_ config_ subdirs regularFiles
       file config app fst snd outcomeMap forget].
  rewrite !capToLen_id.
  split; [done|]. split; [done|].
  intros i e [= <- <-]. eexists _, cfg. by repeat split.
Qed.

End LoadDirInfoFacts.

(** ** The cache machine *)

Section MachineFacts.
Context `{WalkHelpers}.

Lemma threadOk_frame em ld h em' ld' h' t :
  threadOk em ld h t ->
  em' !! t_key t = em !! t_key t ->
  (t_get t = GRun -> t_key t ∉ ld -> t_key t ∉ ld') ->
  (forall k, k ∈ ld -> k ∈ ld') ->
  (h' = false -> h = false) ->
  threadOk em' ld' h' t.
Proof.
  unfold threadOk. intros Hok Hem Hnot Hin Hh.
  destruct (t_get t); rewrite ?Hem; try done.
  - destruct Hok as [He Hl]. split; [done|]. auto.
  - destruct Hok as [He Hl]. split; [done|]. auto.
Qed.

Lemma threadOk_fresh em ld h t : t_get t = GLoad -> threadOk em ld h t.
Proof. unfold threadOk. by intros ->. Qed.

(** A step that rewrites the record of goroutine [i] and starts the
    goroutines [extra] keeps the invariant when the new record, and every
    other goroutine, agree with the new map and log. *)
Lemma cacheInv_rebuild (s s' : state) i t t' extra :
  cacheInv s ->
  threads s !! i = Some t ->
  threads s' = <[i := t']> (threads s) ++ extra ->
  Forall (fun x => t_get x = GLoad) extra ->
  threadOk (entryMap s') (loads s') (halted s') t' ->
  (forall j tj, j <> i -> threads s !! j = Some tj ->
                threadOk (entryMap s') (loads s') (halted s') tj) ->
  (isOwner (t_get t') ->
   forall j tj, j <> i -> threads s !! j = Some tj ->
                t_key tj = t_key t' -> ~ isOwner (t_get tj)) ->
  NoDup (loads s') ->
  (forall k, k ∈ loads s' -> is_Some (entryMap s' !! k)) ->
  (forall k e, entryMap s' !! k = Some e -> doneC e = true -> k ∈ loads s') ->
  cacheInv s'.
Proof.
  intros Hinv Ht Hthr Hextra Hnew Hothers Hown Hnd Hld Hdone.
  assert (Hlook : forall j tj, threads s' !! j = Some tj ->
            (j = i /\ tj = t') \/ (j <> i /\ threads s !! j = Some tj)
            \/ (length (threads s) <= j /\ t_get tj = GLoad)).
  { intros j tj. rewrite Hthr, lookup_app_Some, length_insert.
    intros [Hj|[Hlen Hj]].
    - apply list_lookup_insert_Some in Hj as [(-> & <- & _)|[Hne Hj]]; auto.
    - right; right. split; [done|].
      rewrite Forall_forall in Hextra. apply Hextra.
      eapply list_elem_of_lookup_2, Hj. }
  assert (Hlt : i < length (threads s)) by (by eapply lookup_lt_Some).
  split; try done.
  - intros j tj Hj. destruct (Hlook _ _ Hj) as [[-> ->]|[[Hne Hj']|[_ Hg]]].
    + done.
    + by eapply Hothers.
    + by apply threadOk_fresh.
  - intros j1 j2 t1 t2 H1 H2 Hkey Ho1 Ho2.
    destruct (Hlook _ _ H1) as [[-> ->]|[[Hne1 H1']|[_ Hg1]]];
      destruct (Hlook _ _ H2) as [[-> ->]|[[Hne2 H2']|[_ Hg2]]];
      try done;
      try (rewrite Hg1 in Ho1; done); try (rewrite Hg2 in Ho2; done).
    + exfalso. by eapply (Hown Ho1 j2 t2).
    + exfalso. by eapply (Hown Ho2 j1 t1).
    + by eapply (inv_unique s Hinv j1 j2 t1 t2).
Qed.

Lemma is_Some_alter {A} (f : A -> A) (k k' : string) (em : gmap string A) :
  is_Some (em !! k') -> is_Some (alter f k em !! k').
Proof.
  destruct (decide (k = k')) as [->|Hne].
  - rewrite lookup_alter_eq. intros [x ->]. by eexists.
  - by rewrite lookup_alter_ne.
Qed.

Lemma is_Some_insert {A} (x : A) (k k' : string) (em : gmap string A) :
  is_Some (em !! k') -> is_Some (<[k := x]> em !! k').
Proof.
  destruct (decide (k = k')) as [->|Hne].
  - rewrite lookup_insert_eq. by eexists.
  - by rewrite lookup_insert_ne.
Qed.

Lemma threads_insert_nil (l : list thread) i t :
  l !! i = Some t -> l = <[i := t]> l ++ [].
Proof. intros Hl. by rewrite app_nil_r, list_insert_id. Qed.

Lemma getStep_inv i t s s' :
  cacheInv s -> halted s = false -> threads s !! i = Some t ->
  getStep i t s = Some s' -> cacheInv s'.
Proof.
  intros Hinv Hh Ht Hstep. unfold getStep in Hstep.
  pose proof (inv_threads s Hinv i t Ht) as Hok.
  pose proof (inv_nodup s Hinv) as Hnd.
  pose proof (inv_loaded s Hinv) as Hld.
  pose proof (inv_done s Hinv) as Hdn.
  assert (Hsame : forall j tj, j <> i -> threads s !! j = Some tj ->
            threadOk (entryMap s) (loads s) (halted s) tj).
  { intros j tj _ Hj. by apply (inv_threads s Hinv j). }
  destruct (t_get t) as [| | | |r|r] eqn:Hg.
  - (* Load *)
    destruct (entryMap s !! t_key t) as [e|] eqn:He; injection Hstep as <-.
    + apply (cacheInv_rebuild s _ i t (setGet GWait t) []); simpl; try done.
      * by rewrite app_nil_r.
      * unfold threadOk; simpl. by rewrite He.
    + apply (cacheInv_rebuild s _ i t (setGet GLoadOrStore t) []);
        simpl; try done.
      by rewrite app_nil_r.
  - (* LoadOrStore *)
    destruct (entryMap s !! t_key t) as [e|] eqn:He; injection Hstep as <-.
    + apply (cacheInv_rebuild s _ i t (setGet GWait t) []); simpl; try done.
      * by rewrite app_nil_r.
      * unfold threadOk; simpl. by rewrite He.
    + assert (Hfresh : t_key t ∉ loads s).
      { intros Hin. apply Hld in Hin as [? Hin]. congruence. }
      assert (Hother : forall j tj, threads s !! j = Some tj ->
                t_key tj = t_key t ->
                match t_get tj with GLoad | GLoadOrStore => True | _ => False end).
      { intros j tj Hj Hkey. pose proof (inv_threads s Hinv j tj Hj) as Hokj.
        unfold threadOk in Hokj. rewrite Hkey, He in Hokj.
        destruct (t_get tj); try done.
        - by destruct Hokj as [(? & ? & _) _].
        - by destruct Hokj. }
      apply (cacheInv_rebuild s _ i t (setGet GRun t) []); simpl; try done.
      * by rewrite app_nil_r.
      * unfold threadOk; simpl. rewrite lookup_insert_eq. split; [eauto|done].
      * intros j tj _ Hj.
        destruct (decide (t_key tj = t_key t)) as [Hkey|Hkey].
        -- specialize (Hother j tj Hj Hkey). unfold threadOk.
           by destruct (t_get tj).
        -- eapply threadOk_frame; [by apply (inv_threads s Hinv j)| |done..].
           by rewrite lookup_insert_ne.
      * intros _ j tj _ Hj Hkey. specialize (Hother j tj Hj Hkey).
        destruct (t_get tj); simpl; tauto.
      * intros k Hk. by apply is_Some_insert, Hld.
      * intros k e. destruct (decide (t_key t = k)) as [->|Hne].
        -- rewrite lookup_insert_eq. by intros [= <-].
        -- rewrite lookup_insert_ne by done. apply Hdn.
  - (* Wait *)
    destruct (entryMap s !! t_key t) as [e|] eqn:He; [|done].
    destruct (doneC e) eqn:Hd; [|done]. injection Hstep as <-.
    apply (cacheInv_rebuild s _ i t (setGet (GRet (info e, err e)) t) []);
      simpl; try done.
    + by rewrite app_nil_r.
    + unfold threadOk; simpl. rewrite He. destruct e; simpl in *; by subst.
  - (* Run *)
    unfold threadOk in Hok. rewrite Hg, Hh in Hok.
    destruct Hok as [(e & He & Hd) Hfresh]. specialize (Hfresh eq_refl).
    assert (Hother : forall j tj, j <> i -> threads s !! j = Some tj ->
              t_key tj = t_key t ->
              match t_get tj with
              | GLoad | GLoadOrStore | GWait => True
              | _ => False
              end).
    { intros j tj Hne Hj Hkey. pose proof (inv_threads s Hinv j tj Hj) as Hokj.
      unfold threadOk in Hokj. rewrite Hkey, He in Hokj.
      destruct (t_get tj) eqn:Hgj; try done.
      - apply Hne. eapply (inv_unique s Hinv j i tj t); eauto.
        all: by rewrite ?Hgj, ?Hg.
      - apply Hne. eapply (inv_unique s Hinv j i tj t); eauto.
        all: by rewrite ?Hgj, ?Hg.
      - injection Hokj as ->. done. }
    assert (Hnd' : NoDup (t_key t :: loads s)) by (by constructor).
    assert (Hhalt : cacheInv (mkState (entryMap s) (threads s) (sem s) (wg s)
                                      (t_key t :: loads s) true)).
    { apply (cacheInv_rebuild s _ i t t []); simpl; try done.
      * by apply threads_insert_nil.
      * unfold threadOk. rewrite Hg. split; [eauto|done].
      * intros j tj Hne Hj.
        eapply threadOk_frame; [by apply (inv_threads s Hinv j)|done| | |done].
        -- intros Hgj Hnot [Hk|Hin]%elem_of_cons; [|done].
           specialize (Hother j tj Hne Hj Hk). by rewrite Hgj in Hother.
        -- set_solver.
      * intros _ j tj Hne Hj Hkey. specialize (Hother j tj Hne Hj Hkey).
        destruct (t_get tj); simpl; tauto.
      * intros k [->|Hk]%elem_of_cons; [eauto|by apply Hld].
      * intros k e' He' Hd'. apply elem_of_cons. right. by eapply Hdn. }
    destruct (snd (t_load t (entryMap s) (t_key t))) as [r| |msg];
      injection Hstep as <-; [|done..].
    apply (cacheInv_rebuild s _ i t (setGet (GClose r) t) []); simpl; try done.
    + by rewrite app_nil_r.
    + unfold threadOk; simpl. rewrite lookup_alter_eq, He. split; [|set_solver].
      simpl. unfold assignResult. by rewrite Hd.
    + intros j tj Hne Hj.
      destruct (decide (t_key tj = t_key t)) as [Hkey|Hkey].
      * specialize (Hother j tj Hne Hj Hkey). unfold threadOk.
        destruct (t_get tj); try done.
        rewrite Hkey, lookup_alter_eq, He. eauto.
      * eapply threadOk_frame; [by apply (inv_threads s Hinv j)| | | |done].
        -- by rewrite lookup_alter_ne.
        -- set_solver.
        -- set_solver.
    + intros _ j tj Hne Hj Hkey. specialize (Hother j tj Hne Hj Hkey).
      destruct (t_get tj); simpl; tauto.
    + intros k [->|Hk]%elem_of_cons.
      * rewrite lookup_alter_eq, He. eauto.
      * by apply is_Some_alter, Hld.
    + intros k e'. destruct (decide (t_key t = k)) as [->|Hne].
      * intros _ _. set_solver.
      * rewrite lookup_alter_ne by done. intros He' Hd'.
        apply elem_of_cons. right. by eapply Hdn.
  - (* Close *)
    injection Hstep as <-.
    unfold threadOk in Hok. rewrite Hg in Hok. destruct Hok as [He Hin].
    assert (Hother : forall j tj, j <> i -> threads s !! j = Some tj ->
              t_key tj = t_key t ->
              match t_get tj with
              | GLoad | GLoadOrStore | GWait => True
              | _ => False
              end).
    { intros j tj Hne Hj Hkey. pose proof (inv_threads s Hinv j tj Hj) as Hokj.
      unfold threadOk in Hokj. rewrite Hkey, He in Hokj.
      destruct (t_get tj) eqn:Hgj; try done.
      - apply Hne. eapply (inv_unique s Hinv j i tj t); eauto.
        all: by rewrite ?Hgj, ?Hg.
      - apply Hne. eapply (inv_unique s Hinv j i tj t); eauto.
        all: by rewrite ?Hgj, ?Hg. }
    apply (cacheInv_rebuild s _ i t (setGet (GRet r) t) []); simpl; try done.
    + by rewrite app_nil_r.
    + unfold threadOk; simpl. by rewrite lookup_alter_eq, He.
    + intros j tj Hne Hj.
      destruct (decide (t_key tj = t_key t)) as [Hkey|Hkey].
      * specialize (Hother j tj Hne Hj Hkey). unfold threadOk.
        destruct (t_get tj); try done.
        rewrite Hkey, lookup_alter_eq, He. eauto.
      * eapply threadOk_frame; [by apply (inv_threads s Hinv j)| |done..].
        by rewrite lookup_alter_ne.
    + intros k Hk. by apply is_Some_alter, Hld.
    + intros k e'. destruct (decide (t_key t = k)) as [<-|Hne]; [by intros|].
      rewrite lookup_alter_ne by done. apply Hdn.
  - done.
Qed.

(** Steps that leave the map and the log alone. *)
Lemma cacheInv_quiet (s s' : state) i t t' extra :
  cacheInv s -> halted s = false ->
  threads s !! i = Some t ->
  entryMap s' = entryMap s -> loads s' = loads s ->
  threads s' = <[i := t']> (threads s) ++ extra ->
  Forall (fun x => t_get x = GLoad) extra ->
  t_get t' = GLoad \/ (t_key t' = t_key t /\ t_get t' = t_get t) ->
  cacheInv s'.
Proof.
  intros Hinv Hh Ht Hem Hld Hthr Hextra Hsame.
  assert (Hframe : forall j tj, threads s !! j = Some tj ->
            threadOk (entryMap s') (loads s') (halted s') tj).
  { intros j tj Hj. rewrite Hem, Hld.
    eapply threadOk_frame; [by apply (inv_threads s Hinv j)|done..]. }
  apply (cacheInv_rebuild s s' i t t' extra); try done.
  - destruct Hsame as [Hg|[Hk Hg]]; [by apply threadOk_fresh|].
    specialize (Hframe i t Ht). unfold threadOk in *.
    by rewrite Hk, Hg.
  - intros j tj _ Hj. by apply (Hframe j).
  - intros Ho j tj Hne Hj Hkey Hoj.
    destruct Hsame as [Hg|[Hk Hg]]; [by rewrite Hg in Ho|].
    apply Hne. apply (inv_unique s Hinv j i tj t); try done.
    + congruence.
    + by rewrite <- Hg.
  - rewrite Hld. apply (inv_nodup s Hinv).
  - rewrite Hld, Hem. apply (inv_loaded s Hinv).
  - rewrite Hld, Hem. apply (inv_done s Hinv).
Qed.

Lemma contStep_inv i t r s s' :
  cacheInv s -> halted s = false -> threads s !! i = Some t ->
  t_get t = GRet r -> contStep i t r s = Some s' -> cacheInv s'.
Proof.
  intros Hinv Hh Ht Hg Hstep. unfold contStep in Hstep.
  assert (Hhalt : cacheInv (mkState (entryMap s) (threads s) (sem s) (wg s)
                                    (loads s) true)).
  { apply (cacheInv_quiet s _ i t t []); try done; [|by right].
    by apply threads_insert_nil. }
  destruct (t_cont t) as [| |[|subdir rest]| |[|prefix todo] rels|[|dir rels]| |].
  - done.
  - destruct (sem s) as [|n]; [done|]. injection Hstep as <-.
    eapply (cacheInv_quiet s _ i t (setCont (CRange _) t) []); simpl; try done;
      [by rewrite app_nil_r | by right].
  - destruct (wg s) as [|n]; injection Hstep as <-; [done|].
    apply (cacheInv_quiet s _ i t (setCont CDone t) []); simpl; try done;
      [by rewrite app_nil_r | by right].
  - destruct (config (fst r)) as [wc|]; [|by injection Hstep as <-].
    destruct (isExcludedDir wc _).
    + injection Hstep as <-.
      apply (cacheInv_quiet s _ i t (setCont (CRange rest) t) []); simpl;
        try done; [by rewrite app_nil_r | by right].
    + case_decide; [|done]. injection Hstep as <-.
      apply (cacheInv_quiet s _ i t (setCont (CRange rest) t)
               [visitThread (t_load t) (GoPath.Join [t_key t; subdir])]);
        simpl; try done; [by repeat constructor | by right].
  - done.
  - injection Hstep as <-.
    apply (cacheInv_quiet s _ i t (setCont (CSpawn rels) t) []); simpl;
      try done; [by rewrite app_nil_r | by right].
  - injection Hstep as <-.
    apply (cacheInv_quiet s _ i t
             (mkThread prefix (t_load t) GLoad (CPrefix todo rels)) []);
      simpl; try done; [by rewrite app_nil_r | by left].
  - injection Hstep as <-.
    apply (cacheInv_quiet s _ i t (setCont CWait t) []); simpl; try done;
      [by rewrite app_nil_r | by right].
  - case_decide; [|done]. injection Hstep as <-.
    apply (cacheInv_quiet s _ i t (setCont (CSpawn rels) t)
             [visitThread (t_load t) dir]);
      simpl; try done; [by repeat constructor | by right].
  - destruct (wg s) as [|n]; [|done]. injection Hstep as <-.
    apply (cacheInv_quiet s _ i t (setCont CReturned t) []); simpl; try done;
      [by rewrite app_nil_r | by right].
  - done.
Qed.

Lemma step_inv i s s' : cacheInv s -> step i s = Some s' -> cacheInv s'.
Proof.
  intros Hinv Hstep. unfold step in Hstep.
  destruct (halted s) eqn:Hh; [done|].
  destruct (threads s !! i) as [t|] eqn:Ht; [|done].
  destruct (t_get t) eqn:Hg;
    try (eapply getStep_inv; eauto; by rewrite Hg).
  by eapply contStep_inv.
Qed.

Lemma call_inv key load s : cacheInv s -> cacheInv (call key load s).
Proof.
  intros Hinv. split; simpl.
  - intros i t [Hi|[_ Hi]]%lookup_app_Some; [by apply (inv_threads s Hinv i)|].
    apply threadOk_fresh.
    destruct (i - length (threads s)); [by injection Hi as <-|done].
  - intros i j ti tj Hi Hj Hkey Hoi Hoj.
    apply lookup_app_Some in Hi as [Hi|[_ Hi]];
      apply lookup_app_Some in Hj as [Hj|[_ Hj]].
    + by apply (inv_unique s Hinv i j ti tj).
    + destruct (j - length (threads s)); [|done].
      injection Hj as <-. done.
    + destruct (i - length (threads s)); [|done].
      injection Hi as <-. done.
    + destruct (i - length (threads s)); [|done].
      injection Hi as <-. done.
  - apply (inv_nodup s Hinv).
  - apply (inv_loaded s Hinv).
  - apply (inv_done s Hinv).
Qed.

Lemma stepL_inv l s s' : cacheInv s -> stepL l s = Some s' -> cacheInv s'.
Proof.
  intros Hinv. destruct l as [i|key load]; simpl.
  - by apply step_inv.
  - destruct (halted s); [done|]. intros [= <-]. by apply call_inv.
Qed.

Lemma run_inv ls s s' : cacheInv s -> run ls s = Some s' -> cacheInv s'.
Proof.
  revert s. induction ls as [|l ls IH]; intros s Hinv; simpl.
  - by intros [= <-].
  - destruct (stepL l s) as [s1|] eqn:Hl; [|done].
    apply IH. by eapply stepL_inv.
Qed.

Lemma initial_inv s : initial s -> cacheInv s.
Proof.
  intros (Hem & Hld & Hh & Hthr). rewrite Forall_forall in Hthr.
  split.
  - intros i t Hi. apply threadOk_fresh, Hthr.
    by eapply list_elem_of_lookup_2.
  - intros i j ti tj Hi Hj _ Ho.
    rewrite (Hthr ti) in Ho; [done|]. by eapply list_elem_of_lookup_2.
  - rewrite Hld. constructor.
  - rewrite Hld. by intros k Hk%elem_of_nil.
  - rewrite Hem. intros k e. by rewrite lookup_empty.
Qed.

(** A closed entry is never written again, and no loader runs for its
    key. *)
Lemma stepL_stable l s s' k e :
  cacheInv s -> stepL l s = Some s' ->
  entryMap s !! k = Some e -> doneC e = true ->
  entryMap s' !! k = Some e
  /\ exists new, loads s' = new ++ loads s /\ k ∉ new.
Proof.
  intros Hinv Hstep He Hd.
  assert (Hnil : exists new, loads s = new ++ loads s /\ k ∉ new).
  { exists []. split; [done|]. apply not_elem_of_nil. }
  destruct l as [i|key load]; simpl in Hstep;
    [|destruct (halted s); [done|]; by injection Hstep as <-].
  unfold step in Hstep. destruct (halted s); [done|].
  destruct (threads s !! i) as [t|] eqn:Ht; [|done].
  pose proof (inv_threads s Hinv i t Ht) as Hok. unfold threadOk in Hok.
  destruct (t_get t) as [| | | |r|r] eqn:Hg.
  - unfold getStep in Hstep. rewrite Hg in Hstep.
    destruct (entryMap s !! t_key t); by injection Hstep as <-.
  - unfold getStep in Hstep. rewrite Hg in Hstep.
    destruct (entryMap s !! t_key t) eqn:Hk; injection Hstep as <-; [done|].
    simpl. split; [|done].
    rewrite lookup_insert_ne; [done|]. intros Heq. rewrite Heq in Hk. congruence.
  - unfold getStep in Hstep. rewrite Hg in Hstep.
    destruct (entryMap s !! t_key t) as [e'|]; [|done].
    destruct (doneC e'); [|done]. by injection Hstep as <-.
  - unfold getStep in Hstep. rewrite Hg in Hstep.
    destruct Hok as [(e' & He' & Hd') _].
    assert (Hne : t_key t <> k) by (intros Heq; rewrite Heq in He'; congruence).
    destruct (snd (t_load t (entryMap s) (t_key t))); injection Hstep as <-;
      simpl.
    + rewrite lookup_alter_ne by done. split; [done|].
      exists [t_key t]. split; [done|]. set_solver.
    + split; [done|]. exists [t_key t]. split; [done|]. set_solver.
    + split; [done|]. exists [t_key t]. split; [done|]. set_solver.
  - unfold getStep in Hstep. rewrite Hg in Hstep. injection Hstep as <-.
    destruct Hok as [He' _].
    assert (Hne : t_key t <> k).
    { intros Heq. rewrite Heq, He in He'. by injection He' as ->. }
    simpl. by rewrite lookup_alter_ne.
  - unfold contStep in Hstep.
    repeat (match type of Hstep with
            | match ?x with _ => _ end = Some _ => destruct x
            | (if ?x then _ else _) = Some _ => destruct x
            end; try done);
      by injection Hstep as <-.
Qed.

Lemma run_stable ls s s' k e :
  cacheInv s -> run ls s = Some s' ->
  entryMap s !! k = Some e -> doneC e = true ->
  entryMap s' !! k = Some e
  /\ exists new, loads s' = new ++ loads s /\ k ∉ new.
Proof.
  revert s. induction ls as [|l ls IH]; intros s Hinv Hrun He Hd; simpl in Hrun.
  - injection Hrun as <-. split; [done|]. exists []. split; [done|].
    apply not_elem_of_nil.
  - destruct (stepL l s) as [s1|] eqn:Hl; [|done].
    destruct (stepL_stable _ _ _ _ _ Hinv Hl He Hd) as (He1 & new1 & Hld1 & Hn1).
    destruct (IH s1 (stepL_inv _ _ _ Hinv Hl) Hrun He1 Hd)
      as (He2 & new2 & Hld2 & Hn2).
    split; [done|]. exists (new2 ++ new1). split.
    + by rewrite Hld2, Hld1, app_assoc.
    + set_solver.
Qed.

(** A caller that arrives once the entry is closed returns the stored
    pair after two steps of its own, and its loader is not run. *)
Lemma late_caller_returns s key load r :
  halted s = false -> resolved (entryMap s) key r ->
  exists s',
    run [Call key load; Run (length (threads s)); Run (length (threads s))] s
    = Some s'
    /\ threads s' !! length (threads s) = Some (mkThread key load (GRet r) CCaller)
    /\ entryMap s' = entryMap s /\ loads s' = loads s.
Proof.
  intros Hh Hres. unfold resolved in Hres.
  eexists. split; [|split; [|split]].
  - cbn [run stepL]. rewrite Hh. unfold call.
    unfold step at 1. cbn [halted threads]. rewrite Hh.
    rewrite list_lookup_middle by done.
    cbn [t_get getStep t_key entryMap]. rewrite Hres.
    unfold setThread. cbn [entryMap threads sem wg loads halted].
    unfold step. cbn [halted threads].
    rewrite list_lookup_insert_eq by (rewrite length_app; simpl; lia).
    cbn [setGet t_get getStep t_key entryMap]. rewrite Hres.
    cbn [doneC info err]. reflexivity.
  - cbn [threads setThread].
    rewrite list_lookup_insert_eq
      by (rewrite length_insert, length_app; simpl; lia).
    destruct r. reflexivity.
  - reflexivity.
  - reflexivity.
Qed.



Lemma populateCache_initial fs rootConfig rels :
  initial (populateCache fs rootConfig rels).
Proof. repeat split. by repeat constructor. Qed.

Lemma returned_is_resolved s i t r :
  cacheInv s -> threads s !! i = Some t -> t_get t = GRet r ->
  resolved (entryMap s) (t_key t) r.
Proof.
  intros Hinv Ht Hg. pose proof (inv_threads s Hinv i t Ht) as Hok.
  unfold threadOk in Hok. by rewrite Hg in Hok.
Qed.

(** C2.  Once a call of [get] for a key has returned a pair, the entry
    of the key holds that pair in every later state, every call for the
    key that has returned in a later state has returned the same pair,
    no loader runs for the key afterwards, no closed entry of any key
    changes, and a call that arrives later, with whatever loader, returns
    the pair after two steps of its own without a loader being run. *)
Theorem returned_result_is_final (s0 s1 s2 : state) (ls1 ls2 : list label)
    (i : nat) (t : thread) (r : dirInfo * option error) :
  initial s0 ->
  run ls1 s0 = Some s1 ->
  threads s1 !! i = Some t -> t_get t = GRet r ->
  run ls2 s1 = Some s2 ->
  resolved (entryMap s2) (t_key t) r
  /\ (forall j tj rj,
        threads s2 !! j = Some tj -> t_key tj = t_key t ->
        t_get tj = GRet rj -> rj = r)
  /\ (exists new, loads s2 = new ++ loads s1 /\ t_key t ∉ new)
  /\ (forall key r', resolved (entryMap s1) key r' ->
                     resolved (entryMap s2) key r')
  /\ (forall load',
        halted s2 = false ->
        exists s3,
          run [Call (t_key t) load'; Run (length (threads s2));
               Run (length (threads s2))] s2 = Some s3
          /\ threads s3 !! length (threads s2)
             = Some (mkThread (t_key t) load' (GRet r) CCaller)
          /\ entryMap s3 = entryMap s2 /\ loads s3 = loads s2).
Proof.
  intros Hinit Hrun1 Ht Hg Hrun2.
  pose proof (run_inv _ _ _ (initial_inv _ Hinit) Hrun1) as Hinv1.
  pose proof (run_inv _ _ _ Hinv1 Hrun2) as Hinv2.
  pose proof (returned_is_resolved _ _ _ _ Hinv1 Ht Hg) as Hres1.
  destruct (run_stable _ _ _ _ _ Hinv1 Hrun2 Hres1 eq_refl) as [Hres2 Hloads].
  split; [done|]. split; [|split; [done|split]].
  - intros j tj rj Hj Hkey Hgj.
    pose proof (returned_is_resolved _ _ _ _ Hinv2 Hj Hgj) as Hresj.
    unfold resolved in *. rewrite Hkey, Hres2 in Hresj.
    injection Hresj as H1 H2. destruct r, rj; simpl in *; by subst.
  - intros key r' Hres.
    by destruct (run_stable _ _ _ _ _ Hinv1 Hrun2 Hres eq_refl).
  - intros load' Hh. by apply late_caller_returns.
Qed.

















End MachineFacts.

(** ** Clean relative paths *)

Section PathFacts.
Import GoPath.

Lemma is_slash_true c : is_slash c = true -> c = "/"%char.
Proof. unfold is_slash. by intros ?%bool_decide_eq_true. Qed.

Lemma hasSlash_app x y : hasSlash (x +:+ y) = hasSlash x || hasSlash y.
Proof.
  induction x as [|c x IH]; [done|].
  rewrite app_String. simpl. by rewrite IH, orb_assoc.
Qed.

Lemma splitSlash_noslash x : hasSlash x = false -> splitSlash x = [x].
Proof.
  induction x as [|c x IH]; [done|]. simpl.
  intros [Hc Hx]%orb_false_elim. by rewrite Hc, (IH Hx).
Qed.

Lemma splitSlash_app x rest :
  hasSlash x = false ->
  splitSlash (x +:+ "/" +:+ rest) = x :: splitSlash rest.
Proof.
  induction x as [|c x IH]; [done|].
  rewrite app_String. simpl. intros [Hc Hx]%orb_false_elim.
  by rewrite Hc, (IH Hx).
Qed.

Lemma splitSlash_joinSlash l :
  l <> [] -> Forall (fun x => hasSlash x = false) l ->
  splitSlash (joinSlash l) = l.
Proof.
  induction l as [|x l IH]; [done|]. intros _ Hall.
  apply Forall_cons in Hall as [Hx Hl].
  destruct l as [|y l]; [by apply splitSlash_noslash|].
  cbn [joinSlash]. rewrite (splitSlash_app _ _ Hx). f_equal. by apply IH.
Qed.

Lemma joinSlash_snoc l x :
  l <> [] -> joinSlash (l ++ [x]) = joinSlash l +:+ "/" +:+ x.
Proof.
  induction l as [|y l IH]; [done|]. intros _.
  destruct l as [|z l]; [done|].
  change (joinSlash ((y :: z :: l) ++ [x]))
    with (y +:+ "/" +:+ joinSlash ((z :: l) ++ [x])).
  rewrite IH by done. cbn [joinSlash]. by rewrite !app_assoc_s.
Qed.

Lemma simpleName_noslash n : simpleName n -> hasSlash n = false.
Proof. by intros (_ & _ & _ & ?). Qed.

Lemma Forall_simple_noslash l :
  Forall simpleName l -> Forall (fun x => hasSlash x = false) l.
Proof. intros Hl. eapply Forall_impl; [done|]. apply simpleName_noslash. Qed.

Lemma cleanStep_simple rooted out e :
  simpleName e -> cleanStep rooted out e = e :: out.
Proof.
  intros (H1 & H2 & H3 & _). unfold cleanStep.
  by rewrite !decide_False.
Qed.

Lemma fold_cleanStep_simple rooted l out :
  Forall simpleName l -> fold_left (cleanStep rooted) l out = rev l ++ out.
Proof.
  revert out. induction l as [|e l IH]; intros out Hall; [done|].
  apply Forall_cons in Hall as [He Hl].
  cbn [fold_left rev]. rewrite (cleanStep_simple _ _ _ He), (IH _ Hl).
  by rewrite <- app_assoc.
Qed.

Lemma relOf_nonempty x l : simpleName x -> relOf (x :: l) <> "".
Proof.
  intros (Hx & _). unfold relOf. destruct x as [|c x]; [done|].
  destruct l; [done|]. cbn [joinSlash]. by rewrite app_String.
Qed.

Lemma relOf_not_rooted x l : simpleName x -> isRooted (relOf (x :: l)) = false.
Proof.
  intros (Hx & _ & _ & Hs). unfold relOf. destruct x as [|c x]; [done|].
  simpl in Hs. apply orb_false_elim in Hs as [Hc _].
  destruct l; [done|]. cbn [joinSlash]. by rewrite app_String.
Qed.

(** [path.Clean] leaves a clean relative path as it is. *)
Lemma Clean_relOf x l :
  Forall simpleName (x :: l) -> Clean (relOf (x :: l)) = relOf (x :: l).
Proof.
  intros Hall. pose proof Hall as [Hx Hl]%Forall_cons.
  unfold Clean. rewrite decide_False by by apply relOf_nonempty.
  rewrite (relOf_not_rooted _ _ Hx). unfold relOf.
  rewrite (splitSlash_joinSlash (x :: l))
    by (done || by apply Forall_simple_noslash).
  rewrite (fold_cleanStep_simple _ _ _ Hall), app_nil_r, rev_involutive.
  by rewrite decide_False by by apply (relOf_nonempty x l).
Qed.

(** Joining a clean relative path with a file name appends the name. *)
Lemma Join_relOf l name :
  Forall simpleName l -> simpleName name ->
  Join [relOf l; name] = relOf (l ++ [name]).
Proof.
  intros Hl Hname.
  assert (Hne : l ++ [name] <> []) by (by destruct l).
  assert (Hall : Forall simpleName (l ++ [name])).
  { apply Forall_app. split; [done|]. by apply Forall_singleton. }
  assert (Hbuf : fold_left joinBuf [relOf l; name] "" = relOf (l ++ [name])).
  { cbn [fold_left]. change (joinBuf "" (relOf l)) with (relOf l).
    unfold joinBuf. destruct l as [|x l].
    - by rewrite decide_True by done.
    - pose proof Hl as [Hx _]%Forall_cons.
      rewrite decide_False by by apply relOf_nonempty.
      unfold relOf. by rewrite joinSlash_snoc. }
  unfold Join. rewrite Hbuf.
  destruct (l ++ [name]) as [|y l'] eqn:Heq; [done|].
  pose proof Hall as [Hy _]%Forall_cons.
  rewrite decide_False by by apply relOf_nonempty.
  by apply Clean_relOf.
Qed.

Lemma splitDir_noslash x : hasSlash x = false -> splitDir x = "".
Proof.
  induction x as [|c x IH]; [done|]. simpl.
  intros [Hc Hx]%orb_false_elim. by rewrite Hx, Hc.
Qed.

Lemma splitDir_app pre name :
  hasSlash name = false -> splitDir (pre +:+ "/" +:+ name) = pre +:+ "/".
Proof.
  intros Hname. induction pre as [|c pre IH].
  - rewrite !app_empty_l. rewrite app_String. simpl.
    by rewrite app_empty_l, Hname.
  - rewrite app_String. cbn [splitDir]. rewrite !hasSlash_app.
    change (hasSlash "/") with true.
    rewrite orb_true_r. by rewrite IH.
Qed.

Lemma Clean_trailing_slash x l :
  Forall simpleName (x :: l) -> Clean (relOf (x :: l) +:+ "/") = relOf (x :: l).
Proof.
  intros Hall. pose proof Hall as [Hx Hl]%Forall_cons.
  assert (Hjoin : relOf (x :: l) +:+ "/" = joinSlash ((x :: l) ++ [""])).
  { rewrite joinSlash_snoc by done. by rewrite app_empty_r. }
  unfold Clean.
  rewrite decide_False.
  2:{ intros Heq. destruct (relOf (x :: l)) eqn:Hr; [|by rewrite app_String in Heq].
      by apply (relOf_nonempty x l). }
  assert (Hroot : isRooted (relOf (x :: l) +:+ "/") = false).
  { pose proof (relOf_not_rooted x l Hx) as Hr.
    pose proof (relOf_nonempty x l Hx) as Hn.
    destruct (relOf (x :: l)); [done|]. by rewrite app_String. }
  rewrite Hroot, Hjoin.
  rewrite splitSlash_joinSlash.
  2:{ by destruct l. }
  2:{ apply Forall_app. split; [by apply Forall_simple_noslash|].
      by apply Forall_singleton. }
  rewrite fold_left_app, (fold_cleanStep_simple _ _ _ Hall), app_nil_r.
  change (fold_left (cleanStep false) [""] (rev (x :: l))) with (rev (x :: l)).
  rewrite rev_involutive. fold (relOf (x :: l)).
  by rewrite decide_False by by apply relOf_nonempty.
Qed.

(** The parent of a clean relative path is the path without its last
    element. *)
Lemma parentRelOf_snoc l name :
  Forall simpleName l -> simpleName name ->
  parentRelOf (relOf (l ++ [name])) = relOf l.
Proof.
  intros Hl Hname. unfold parentRelOf, Dir.
  destruct l as [|x l].
  - cbn [app relOf joinSlash].
    rewrite splitDir_noslash by by apply simpleName_noslash.
    by rewrite decide_True by done.
  - change (relOf ((x :: l) ++ [name])) with (joinSlash ((x :: l) ++ [name])).
    rewrite (joinSlash_snoc (x :: l) name) by done.
    rewrite splitDir_app by by apply simpleName_noslash.
    fold (relOf (x :: l)). rewrite (Clean_trailing_slash _ _ Hl).
    rewrite decide_False; [done|].
    pose proof Hl as [Hx _]%Forall_cons.
    destruct Hx as (Hx1 & Hx2 & _ & Hs).
    unfold relOf. destruct l as [|y l]; [done|]. cbn [joinSlash].
    intros Heq. by destruct x as [|c [|c2 x]].
Qed.

Lemma length_app_s x y :
  String.length (x +:+ y) = String.length x + String.length y.
Proof. induction x as [|c x IH]; [done|]. rewrite app_String. simpl. by rewrite IH. Qed.

Lemma sliceFrom_app pre rest : sliceFrom (String.length pre) (pre +:+ rest) = rest.
Proof. induction pre as [|c pre IH]; [by destruct rest|]. by rewrite app_String. Qed.

Lemma sliceTo_app pre rest n :
  sliceTo (String.length pre + n) (pre +:+ rest) = pre +:+ sliceTo n rest.
Proof.
  induction pre as [|c pre IH]; [done|].
  rewrite !app_String. simpl. by rewrite IH.
Qed.

Lemma sliceTo_length x y : sliceTo (String.length x) (x +:+ y) = x.
Proof.
  induction x as [|c x IH]; [by destruct y|].
  rewrite app_String. simpl. by rewrite IH.
Qed.

Lemma HasPrefix_slash c s :
  GoStrings.HasPrefix (String c s) "/" = bool_decide ("/"%char = c).
Proof. simpl. destruct s; by rewrite andb_true_r. Qed.

Lemma Index_cons c s :
  GoStrings.Index (String c s) "/"
  = if bool_decide ("/"%char = c) then Some 0 else S <$> GoStrings.Index s "/".
Proof. cbn [GoStrings.Index]. by rewrite HasPrefix_slash. Qed.

Lemma Index_noslash x : hasSlash x = false -> GoStrings.Index x "/" = None.
Proof.
  induction x as [|c x IH]; [done|]. rewrite Index_cons. simpl.
  intros [Hc Hx]%orb_false_elim. rewrite (IH Hx).
  unfold is_slash in Hc. apply bool_decide_eq_false in Hc.
  rewrite bool_decide_eq_false_2 by congruence. done.
Qed.

Lemma Index_slash x rest :
  hasSlash x = false ->
  GoStrings.Index (x +:+ "/" +:+ rest) "/" = Some (String.length x).
Proof.
  induction x as [|c x IH].
  - intros _. rewrite app_empty_l, app_String, Index_cons. done.
  - rewrite app_String, Index_cons. simpl.
    intros [Hc Hx]%orb_false_elim. rewrite (IH Hx).
    unfold is_slash in Hc. apply bool_decide_eq_false in Hc.
    rewrite bool_decide_eq_false_2 by congruence. done.
Qed.

Lemma length_joinSlash x l : length l <= String.length (joinSlash (x :: l)).
Proof.
  revert x. induction l as [|y l IH]; intros x; [simpl; lia|].
  change (joinSlash (x :: y :: l)) with (x +:+ "/" +:+ joinSlash (y :: l)).
  rewrite !length_app_s. specialize (IH y).
  cbn [length String.length]. lia.
Qed.

(** The prefix loop on a path cut at [pre]: one prefix for each slash
    that follows. *)
Lemma prefixLoop_joinSlash pre x l fuel :
  Forall (fun e => hasSlash e = false) (x :: l) ->
  length l < fuel ->
  prefixLoop fuel (pre +:+ joinSlash (x :: l)) (String.length pre)
  = map (fun n => pre +:+ joinSlash (take n (x :: l))) (seq 1 (length l)).
Proof.
  revert pre x fuel. induction l as [|y l IH]; intros pre x fuel Hall Hfuel.
  - destruct fuel as [|fuel]; [simpl in Hfuel; lia|].
    cbn [prefixLoop joinSlash]. rewrite sliceFrom_app.
    apply Forall_cons in Hall as [Hx _]. by rewrite (Index_noslash _ Hx).
  - destruct fuel as [|fuel]; [simpl in Hfuel; lia|].
    apply Forall_cons in Hall as [Hx Hl].
    cbn [prefixLoop]. rewrite sliceFrom_app.
    change (joinSlash (x :: y :: l)) with (x +:+ "/" +:+ joinSlash (y :: l)).
    rewrite (Index_slash _ _ Hx).
    rewrite sliceTo_app, sliceTo_length.
    cbn [length seq map]. f_equal.
    replace (String.length pre + String.length x + 1)
      with (String.length (pre +:+ x +:+ "/"))
      by (rewrite !length_app_s; simpl; lia).
    replace (pre +:+ x +:+ "/" +:+ joinSlash (y :: l))
      with ((pre +:+ x +:+ "/") +:+ joinSlash (y :: l))
      by (by rewrite !app_assoc_s).
    rewrite IH by (done || simpl in Hfuel; lia).
    rewrite <- (seq_shift (length l) 1), map_map. apply map_ext_in.
    intros n Hn%in_seq. destruct n as [|n]; [lia|].
    cbn [take joinSlash]. by rewrite !app_assoc_s.
Qed.

(** The keys the prefix loop yields for a clean relative path: its
    proper prefixes that are not the root, shortest first. *)
Lemma prefixesOf_relOf elems :
  Forall simpleName elems ->
  prefixesOf (relOf elems)
  = map (fun n => relOf (take n elems)) (seq 1 (length elems - 1)).
Proof.
  intros Hall. destruct elems as [|x l]; [done|].
  unfold prefixesOf, relOf.
  pose proof (prefixLoop_joinSlash "" x l
                (S (String.length (joinSlash (x :: l))))) as Hloop.
  rewrite !app_empty_l in Hloop. cbn [String.length] in Hloop.
  rewrite Hloop.
  - cbn [length]. replace (S (length l) - 1) with (length l) by lia. done.
  - by apply Forall_simple_noslash.
  - pose proof (length_joinSlash x l). lia.
Qed.

Lemma Index_slash_lt s i :
  GoStrings.Index s "/" = Some i -> i < String.length s.
Proof.
  revert i. induction s as [|c s IH]; intros i; [done|].
  rewrite Index_cons. case_bool_decide.
  - intros [= <-]. simpl. lia.
  - destruct (GoStrings.Index s "/") as [j|]; [|done].
    intros [= <-]. specialize (IH j eq_refl). simpl. lia.
Qed.

Lemma length_sliceFrom n s :
  String.length (sliceFrom n s) = String.length s - n.
Proof.
  revert s. induction n as [|n IH]; intros s; [simpl; lia|].
  destruct s as [|c s]; [done|]. simpl. apply IH.
Qed.

(** The fuel of the prefix loop is never the reason it stops, whatever
    the path: any fuel above the bytes left after [slash] gives the same
    prefixes, so [prefixesOf] is the loop of the source on every [dir]. *)
Lemma prefixLoop_fuel dir fuel fuel' slash :
  String.length dir - slash < fuel ->
  String.length dir - slash < fuel' ->
  prefixLoop fuel dir slash = prefixLoop fuel' dir slash.
Proof.
  revert fuel' slash. induction fuel as [|fuel IH]; intros fuel' slash Hf Hf';
    [lia|].
  destruct fuel' as [|fuel']; [lia|]. cbn [prefixLoop].
  destruct (GoStrings.Index (sliceFrom slash dir) "/") as [i|] eqn:Hi; [|done].
  apply Index_slash_lt in Hi. rewrite length_sliceFrom in Hi.
  f_equal. apply IH; lia.
Qed.

End PathFacts.

(** ** [populateCache]: parents are loaded before their children *)

Section PrefetchFacts.
Context `{WalkHelpers}.
Variable fs : FileSystem.
Variable rootConfig : Config.

(** The storage yields file names: what [os.ReadDir] returns, and what a
    resolved symbolic link is called, is a single path element. *)
Hypothesis names_simple :
  forall cfg dir rel e,
    e ∈ fst (os_ReadDir fs dir) ->
    simpleName (Name (maybeResolveSymlink cfg dir rel e)).

#[local] Abbreviation L := (loadDirInfoOld fs rootConfig).

Lemma keptSubdirs_simple cfg dir rel entries :
  (forall e, e ∈ entries -> e ∈ fst (os_ReadDir fs dir)) ->
  Forall simpleName (keptSubdirs cfg dir rel entries).
Proof using names_simple.
  intros Hsub. apply Forall_forall. intros n Hn.
  unfold keptSubdirs in Hn. apply list_elem_of_omap in Hn as (e & He & Hn).
  cbv zeta in Hn. destruct (_ && _); [|done]. injection Hn as <-.
  apply names_simple. by apply Hsub.
Qed.

(** What the loader returns has a configuration, and its
    subdirectories are file names. *)
Lemma loadDirInfoOld_result em rel r :
  snd (L em rel) = Return r ->
  is_Some (config (fst r)) /\ Forall simpleName (subdirs (fst r)).
Proof using names_simple.
  unfold loadDirInfoOld.
  destruct (os_ReadDir fs _) as [entries rerr] eqn:Hread.
  destruct (parentConfigOf _ _ _ _) as [l1 [parentConfig| |msg]]; try done.
  unfold mbind, M_bind, bind.
  destruct (loadBuildFile _ _ _ _ _) as [f ferr].
  destruct (configureForWalk _ _ _) as [l2 [cfg| |msg]]; try done.
  unfold ret. cbn [snd]. intros [= <-]. cbn [fst].
  rewrite classifyOld_fold. cbn [config subdirs app]. split; [by eexists|].
  apply keptSubdirs_simple. intros e He. rewrite Hread. cbn [fst].
  by destruct (isExcludedDir cfg rel); [apply elem_of_nil in He|].
Qed.

Lemma extends_refl em : extends em em.
Proof. by intros k e. Qed.

Lemma isResolved_mono em em' k :
  extends em em' -> isResolved em k -> isResolved em' k.
Proof. intros Hext (e & He & Hd). exists e. split; [by apply Hext|done]. Qed.

Lemma parentReady_mono em em' k :
  extends em em' -> parentReady em k -> parentReady em' k.
Proof. intros Hext [->|Hr]; [by left|right]. by eapply isResolved_mono. Qed.

Lemma chain_mono (ready ready' : string -> Prop) todo :
  (forall x, ready x -> ready' x) -> chain ready todo -> chain ready' todo.
Proof.
  revert ready ready'. induction todo as [|k todo IH]; intros ready ready' Himp;
    [done|].
  cbn [chain]. intros (Hc & Hp & Hrest). split; [done|]. split.
  - destruct Hp as [->|Hp]; [by left|right; by apply Himp].
  - eapply IH; [|done]. intros x [Hx| ->]; [left; by apply Himp|by right].
Qed.

Lemma contOk_mono em em' t t' :
  extends em em' -> t_key t' = t_key t -> t_cont t' = t_cont t ->
  contOk em t -> contOk em' t'.
Proof.
  intros Hext Hk Hc. unfold contOk. rewrite Hc, Hk.
  destruct (t_cont t); try done.
  - intros [Hchain Hrels]. split.
    + eapply chain_mono; [|done].
      intros x [Hx| ->]; [left; by eapply isResolved_mono|by right].
    + eapply Forall_impl; [done|]. intros d (Hd & Hp). split; [done|].
      destruct Hp as [->|[Hp|Hp]]; [by left| |by right; right].
      right; left. by eapply isResolved_mono.
  - intros Hrels. eapply Forall_impl; [done|].
    intros d [Hd Hp]. split; [done|]. by eapply parentReady_mono.
Qed.

Lemma prefetchOk_mono em em' t t' :
  extends em em' ->
  t_load t' = t_load t -> t_key t' = t_key t -> t_cont t' = t_cont t ->
  prefetchOk L em t -> prefetchOk L em' t'.
Proof.
  intros Hext Hl Hk Hc (H1 & H2 & H3 & H4). unfold prefetchOk.
  rewrite Hl, Hk. split; [done|]. split; [done|].
  split; [by eapply parentReady_mono|]. by eapply contOk_mono.
Qed.

Variable rels : list string.

Lemma mainCond_mono em em' n t t' :
  extends em em' -> t_key t' = t_key t -> t_cont t' = t_cont t ->
  mainCond rels em n t -> mainCond rels em' n t'.
Proof.
  intros Hext Hk Hc. unfold mainCond. rewrite Hc, Hk.
  assert (Hall : forall l, Forall (isResolved em) l -> Forall (isResolved em') l).
  { intros l Hl. eapply Forall_impl; [done|]. intros x. by apply isResolved_mono. }
  destruct (t_cont t); try apply Hall.
  intros (Hn & pre & Hpre & Hres). split; [done|]. exists pre. auto.
Qed.

(** A step that rewrites the record of goroutine [i] and starts the
    goroutines [extra] keeps the invariant of [populateCache]. *)
Lemma prefetch_rebuild (s s' : state) i t t' extra :
  prefetchInv L rels s ->
  threads s !! i = Some t ->
  threads s' = <[i := t']> (threads s) ++ extra ->
  extends (entryMap s) (entryMap s') ->
  prefetchOk L (entryMap s') t' ->
  Forall (prefetchOk L (entryMap s')) extra ->
  (forall k e, entryMap s' !! k = Some e ->
     Forall simpleName (subdirs (info e))
     /\ (k ∈ loads s' -> halted s' = false -> is_Some (config (info e)))) ->
  loadOrdered (loads s') ->
  (i = 0 -> mainCond rels (entryMap s') (length (threads s')) t') ->
  prefetchInv L rels s'.
Proof.
  intros Hpf Ht Hthr Hext Hnew Hextra Hentries Horder Hmain.
  assert (Hlt : i < length (threads s)) by (by eapply lookup_lt_Some).
  split; try done.
  - intros j tj. rewrite Hthr, lookup_app_Some, length_insert.
    intros [Hj|[Hlen Hj]].
    + apply list_lookup_insert_Some in Hj as [(-> & <- & _)|[Hne Hj]]; [done|].
      apply (prefetchOk_mono (entryMap s) (entryMap s') tj tj); try done.
      by apply (pf_threads L rels s Hpf j).
    + rewrite Forall_forall in Hextra. apply Hextra.
      by eapply list_elem_of_lookup_2.
  - destruct (decide (i = 0)) as [->|Hne].
    + exists t'. split; [|by apply Hmain].
      rewrite Hthr, lookup_app_l by (rewrite length_insert; lia).
      by apply list_lookup_insert_eq.
    + destruct (pf_main L rels s Hpf) as (t0 & Ht0 & Hcond).
      exists t0. split.
      * rewrite Hthr, lookup_app_l by (rewrite length_insert; lia).
        by rewrite list_lookup_insert_ne.
      * unfold mainCond in *. destruct (t_cont t0);
          try (eapply Forall_impl; [exact Hcond|];
               intros x; by apply isResolved_mono).
        destruct Hcond as [Hone _]. lia.
Qed.

Lemma resolved_of_returned s i t r :
  cacheInv s -> threads s !! i = Some t -> t_get t = GRet r ->
  isResolved (entryMap s) (t_key t).
Proof.
  intros Hinv Ht Hg.
  pose proof (returned_is_resolved s i t r Hinv Ht Hg) as Hres.
  eexists. split; [exact Hres|done].
Qed.

(** Steps inside [get]: the record of the goroutine changes its position
    only. *)
Lemma prefetch_get (s s' : state) i t g :
  prefetchInv L rels s ->
  threads s !! i = Some t ->
  threads s' = <[i := setGet g t]> (threads s) ->
  extends (entryMap s) (entryMap s') ->
  (forall k e, entryMap s' !! k = Some e ->
     Forall simpleName (subdirs (info e))
     /\ (k ∈ loads s' -> halted s' = false -> is_Some (config (info e)))) ->
  loadOrdered (loads s') ->
  prefetchInv L rels s'.
Proof.
  intros Hpf Ht Hthr Hext Hentries Horder.
  apply (prefetch_rebuild s s' i t (setGet g t) []); try done.
  - by rewrite app_nil_r.
  - apply (prefetchOk_mono (entryMap s) (entryMap s') t (setGet g t));
      try done.
    by apply (pf_threads L rels s Hpf i).
  - intros ->. destruct (pf_main L rels s Hpf) as (t0 & Ht0 & Hcond).
    rewrite Ht in Ht0. injection Ht0 as <-.
    rewrite Hthr, length_insert.
    by apply (mainCond_mono (entryMap s) (entryMap s') _ t (setGet g t)).
Qed.

(** Steps that leave the map and the log alone. *)
Lemma prefetch_quiet (s s' : state) i t t' extra :
  prefetchInv L rels s -> halted s = false ->
  threads s !! i = Some t ->
  entryMap s' = entryMap s -> loads s' = loads s ->
  threads s' = <[i := t']> (threads s) ++ extra ->
  prefetchOk L (entryMap s) t' ->
  Forall (prefetchOk L (entryMap s)) extra ->
  (i = 0 -> mainCond rels (entryMap s) (length (threads s) + length extra) t') ->
  prefetchInv L rels s'.
Proof.
  intros Hpf Hh Ht Hem Hld Hthr Hnew Hextra Hmain.
  apply (prefetch_rebuild s s' i t t' extra); rewrite ?Hem, ?Hld; try done.
  - apply extends_refl.
  - intros k e He. destruct (pf_entries L rels s Hpf k e He) as [H1 H2].
    split; [done|]. intros Hk _. by apply H2.
  - apply (pf_order L rels s Hpf).
  - intros Hi. rewrite Hthr, length_app, length_insert. by apply Hmain.
Qed.

Lemma mainCond_same s i t t' n :
  prefetchInv L rels s -> threads s !! i = Some t ->
  t_key t' = t_key t ->
  match t_cont t, t_cont t' with
  | CPrefix _ _, _ | _, CPrefix _ _ => False
  | _, _ => True
  end ->
  i = 0 -> mainCond rels (entryMap s) n t'.
Proof.
  intros Hpf Ht Hk Hc ->.
  destruct (pf_main L rels s Hpf) as (t0 & Ht0 & Hcond).
  rewrite Ht in Ht0. injection Ht0 as <-.
  unfold mainCond in *. by destruct (t_cont t), (t_cont t').
Qed.

Lemma prefetch_getStep i t s s' :
  cacheInv s -> prefetchInv L rels s -> halted s = false ->
  threads s !! i = Some t ->
  extends (entryMap s) (entryMap s') ->
  getStep i t s = Some s' -> prefetchInv L rels s'.
Proof using names_simple.
  intros Hinv Hpf Hh Ht Hext Hstep.
  pose proof (pf_threads L rels s Hpf i t Ht) as (Hload & Hclean & Hready & Hcont).
  pose proof (inv_threads s Hinv i t Ht) as Hok. unfold threadOk in Hok.
  pose proof (pf_entries L rels s Hpf) as Hent.
  pose proof (pf_order L rels s Hpf) as Hord.
  unfold getStep in Hstep.
  destruct (t_get t) as [| | | |r|r] eqn:Hg.
  - destruct (entryMap s !! t_key t); injection Hstep as <-;
      by eapply (prefetch_get s _ i t).
  - destruct (entryMap s !! t_key t) eqn:He; injection Hstep as <-;
      [by eapply (prefetch_get s _ i t)|].
    eapply (prefetch_get s _ i t); simpl; try done.
    intros k e. destruct (decide (t_key t = k)) as [<-|Hne].
    + rewrite lookup_insert_eq. intros [= <-]. simpl. split; [constructor|].
      intros Hin. apply (inv_loaded s Hinv) in Hin as [? Hin]. congruence.
    + rewrite lookup_insert_ne by done. apply Hent.
  - destruct (entryMap s !! t_key t) as [e|]; [|done].
    destruct (doneC e); [|done]. injection Hstep as <-.
    by eapply (prefetch_get s _ i t).
  - destruct Hok as [(e & He & Hd) Hfresh].
    assert (Hord' : loadOrdered (t_key t :: loads s)).
    { split; [|done]. destruct Hready as [?|(pe & Hpe & Hpd)]; [by left|right].
      by eapply (inv_done s Hinv). }
    destruct (snd (t_load t (entryMap s) (t_key t))) as [r| |msg] eqn:Hr;
      injection Hstep as <-.
    + eapply (prefetch_get s _ i t); simpl; try done.
      intros k e'. destruct (decide (t_key t = k)) as [<-|Hne].
      * rewrite lookup_alter_eq, He. simpl. intros [= <-]. simpl.
        rewrite Hload in Hr. by apply loadDirInfoOld_result in Hr as [Hc Hs].
      * rewrite lookup_alter_ne by done. intros He'.
        destruct (Hent k e' He') as [H1 H2]. split; [done|].
        intros [?|Hin]%elem_of_cons; [congruence|by apply H2].
    + apply (prefetch_rebuild s _ i t t []); simpl; try done.
      * by apply threads_insert_nil.
      * intros k e' He'. destruct (Hent k e' He') as [H1 H2]. by split.
      * intros ->. destruct (pf_main L rels s Hpf) as (t0 & Ht0 & Hcond).
        rewrite Ht in Ht0. by injection Ht0 as <-.
    + apply (prefetch_rebuild s _ i t t []); simpl; try done.
      * by apply threads_insert_nil.
      * intros k e' He'. destruct (Hent k e' He') as [H1 H2]. by split.
      * intros ->. destruct (pf_main L rels s Hpf) as (t0 & Ht0 & Hcond).
        rewrite Ht in Ht0. by injection Ht0 as <-.
  - injection Hstep as <-. destruct Hok as [He Hin].
    eapply (prefetch_get s _ i t); simpl; try done.
    intros k e'. destruct (decide (t_key t = k)) as [<-|Hne].
    + rewrite lookup_alter_eq, He. simpl. intros [= <-]. simpl.
      apply (Hent _ _ He).
    + rewrite lookup_alter_ne by done. apply Hent.
  - done.
Qed.

Lemma prefetchOk_child em t subdir :
  prefetchOk L em t -> isResolved em (t_key t) -> simpleName subdir ->
  prefetchOk L em (visitThread (t_load t) (GoPath.Join [t_key t; subdir])).
Proof.
  intros (Hload & (elems & Helems & Hkey) & _ & _) Hres Hsub.
  unfold prefetchOk, visitThread. cbn [t_load t_key t_cont contOk].
  rewrite Hkey, (Join_relOf _ _ Helems Hsub).
  split; [done|]. split; [|split; [|done]].
  - exists (elems ++ [subdir]). split; [|done].
    apply Forall_app. split; [done|]. by apply Forall_singleton.
  - right. rewrite (parentRelOf_snoc _ _ Helems Hsub). by rewrite <- Hkey.
Qed.

Lemma prefetch_contStep i t r s s' :
  cacheInv s -> prefetchInv L rels s -> halted s = false ->
  threads s !! i = Some t -> t_get t = GRet r ->
  contStep i t r s = Some s' -> prefetchInv L rels s'.
Proof.
  intros Hinv Hpf Hh Ht Hg Hstep.
  pose proof (pf_threads L rels s Hpf i t Ht) as Hthread.
  pose proof Hthread as (Hload & Hclean & Hready & Hcont).
  pose proof (resolved_of_returned s i t r Hinv Ht Hg) as Hres.
  pose proof (returned_is_resolved s i t r Hinv Ht Hg) as Hentry.
  assert (Hhalt : prefetchInv L rels
                    (mkState (entryMap s) (threads s) (sem s) (wg s)
                             (loads s) true)).
  { apply (prefetch_quiet s _ i t t []); simpl; try done.
    - by apply threads_insert_nil.
    - intros ->. destruct (pf_main L rels s Hpf) as (t0 & Ht0 & Hcond).
      rewrite Ht in Ht0. injection Ht0 as <-. by rewrite Nat.add_0_r. }
  unfold contStep in Hstep. unfold contOk in Hcont.
  destruct (t_cont t) as [| |[|subdir rest]| |[|prefix todo] rels'|[|dir rels']| |]
    eqn:Hc.
  - done.
  - (* before the receive from the semaphore *)
    destruct (sem s) as [|n]; [done|]. injection Hstep as <-.
    eapply (prefetch_quiet s _ i t (setCont (CRange _) t) []); simpl; try done.
    + by rewrite app_nil_r.
    + split; [done|]. split; [done|]. split; [done|].
      unfold contOk. cbn [setCont t_cont].
      destruct (snd r); [constructor|].
      unfold resolved in Hentry.
      by destruct (pf_entries L rels s Hpf _ _ Hentry) as [Hs _].
    + apply (mainCond_same s i t); try done. by rewrite Hc.
  - (* the loop over the subdirectories is over *)
    destruct (wg s) as [|n]; injection Hstep as <-; [done|].
    apply (prefetch_quiet s _ i t (setCont CDone t) []); simpl; try done.
    + by rewrite app_nil_r.
    + apply (mainCond_same s i t); try done. by rewrite Hc.
  - (* one subdirectory *)
    apply Forall_cons in Hcont as [Hsub Hrest].
    destruct (config (fst r)) as [wc|]; [|by injection Hstep as <-].
    assert (Hnext : prefetchOk L (entryMap s) (setCont (CRange rest) t)).
    { split; [done|]. split; [done|]. by split. }
    destruct (isExcludedDir wc _).
    + injection Hstep as <-.
      apply (prefetch_quiet s _ i t (setCont (CRange rest) t) []); simpl;
        try done.
      * by rewrite app_nil_r.
      * apply (mainCond_same s i t); try done. by rewrite Hc.
    + case_decide; [|done]. injection Hstep as <-.
      apply (prefetch_quiet s _ i t (setCont (CRange rest) t)
               [visitThread (t_load t) (GoPath.Join [t_key t; subdir])]);
        simpl; try done.
      * apply Forall_singleton. by apply prefetchOk_child.
      * apply (mainCond_same s i t); try done. by rewrite Hc.
  - done.
  - (* the prefixes are loaded *)
    injection Hstep as <-. destruct Hcont as [_ Hrels].
    apply (prefetch_quiet s _ i t (setCont (CSpawn rels') t) []); simpl;
      try done.
    + by rewrite app_nil_r.
    + split; [done|]. split; [done|]. split; [done|].
      unfold contOk. cbn [setCont t_cont].
      eapply Forall_impl; [exact Hrels|]. intros d (Hd & Hp).
      split; [done|]. destruct Hp as [-> |[Hp|[Hp|Hp]]].
      * by left.
      * by right.
      * right. by rewrite Hp.
      * by apply elem_of_nil in Hp.
    + intros ->. destruct (pf_main L rels s Hpf) as (t0 & Ht0 & Hcond).
      rewrite Ht in Ht0. injection Ht0 as <-.
      unfold mainCond in *. rewrite Hc in Hcond. cbn [setCont t_cont].
      destruct Hcond as (_ & pre & -> & Hpre).
      apply Forall_app. split; [done|]. by apply Forall_singleton.
  - (* the next prefix *)
    injection Hstep as <-. destruct Hcont as [(Hp1 & Hp2 & Hchain) Hrels].
    apply (prefetch_quiet s _ i t
             (mkThread prefix (t_load t) GLoad (CPrefix todo rels')) []);
      simpl; try done.
    + by rewrite app_nil_r.
    + split; [done|]. split; [done|]. cbn [t_key]. split.
      * destruct Hp2 as [?|[Hp2|Hp2]]; [by left|by right|].
        right. by rewrite Hp2.
      * unfold contOk. cbn [t_cont t_key]. split.
        -- eapply chain_mono; [|exact Hchain].
           intros x [[Hx| ->]|Hx]; auto.
        -- eapply Forall_impl; [exact Hrels|]. intros d (Hd & Hp).
           split; [done|]. destruct Hp as [-> |[Hp|[Hp|Hp]]].
           ++ by left.
           ++ by right; left.
           ++ right; left. by rewrite Hp.
           ++ apply elem_of_cons in Hp as [Hp|Hp]; auto.
    + intros ->. destruct (pf_main L rels s Hpf) as (t0 & Ht0 & Hcond).
      rewrite Ht in Ht0. injection Ht0 as <-.
      unfold mainCond in *. rewrite Hc in Hcond. cbn [t_cont t_key].
      destruct Hcond as (Hone & pre & Hpre & Hall).
      split; [lia|]. exists (pre ++ [t_key t]). split.
      * by rewrite <- app_assoc.
      * apply Forall_app. split; [done|]. by apply Forall_singleton.
  - (* all roots are started *)
    injection Hstep as <-.
    apply (prefetch_quiet s _ i t (setCont CWait t) []); simpl; try done.
    + by rewrite app_nil_r.
    + apply (mainCond_same s i t); try done. by rewrite Hc.
  - (* one root *)
    apply Forall_cons in Hcont as [[Hd Hp] Hrest].
    case_decide; [|done]. injection Hstep as <-.
    apply (prefetch_quiet s _ i t (setCont (CSpawn rels') t)
             [visitThread (t_load t) dir]); simpl; try done.
    + apply Forall_singleton. split; [done|]. split; [done|]. by split.
    + apply (mainCond_same s i t); try done. by rewrite Hc.
  - destruct (wg s) as [|n]; [|done]. injection Hstep as <-.
    apply (prefetch_quiet s _ i t (setCont CReturned t) []); simpl; try done.
    + by rewrite app_nil_r.
    + apply (mainCond_same s i t); try done. by rewrite Hc.
  - done.
Qed.

Lemma prefetch_step i s s' :
  cacheInv s -> prefetchInv L rels s -> step i s = Some s' ->
  prefetchInv L rels s'.
Proof using names_simple.
  intros Hinv Hpf Hstep.
  assert (Hext : extends (entryMap s) (entryMap s')).
  { intros k e He Hd.
    by destruct (stepL_stable (Run i) s s' k e Hinv Hstep He Hd). }
  unfold step in Hstep. destruct (halted s) eqn:Hh; [done|].
  destruct (threads s !! i) as [t|] eqn:Ht; [|done].
  destruct (t_get t) eqn:Hg;
    try (eapply prefetch_getStep; eauto; by rewrite Hg).
  by eapply prefetch_contStep.
Qed.

Lemma prefetch_run ls s s' :
  Forall (fun l => isRun l = true) ls ->
  cacheInv s -> prefetchInv L rels s -> run ls s = Some s' ->
  cacheInv s' /\ prefetchInv L rels s'.
Proof using names_simple.
  revert s. induction ls as [|l ls IH]; intros s Hall Hinv Hpf; simpl.
  - by intros [= <-].
  - apply Forall_cons in Hall as [Hl Hls].
    destruct (stepL l s) as [s1|] eqn:Hstep; [|done].
    apply IH; [done|by eapply stepL_inv|].
    destruct l as [i|]; [|done]. by eapply prefetch_step.
Qed.

Lemma chain_app ready l1 l2 :
  chain ready l1 -> chain ready l2 -> chain ready (l1 ++ l2).
Proof.
  revert ready. induction l1 as [|k l1 IH]; intros ready; [done|].
  cbn [chain app]. intros (Hc & Hp & H1) H2. split; [done|]. split; [done|].
  apply IH; [done|]. eapply chain_mono; [|exact H2]. auto.
Qed.

Lemma chain_prefixes ready elems a m :
  Forall simpleName elems ->
  1 <= a -> a + m <= S (length elems) ->
  ready (relOf (take (a - 1) elems)) ->
  chain ready (map (fun n => relOf (take n elems)) (seq a m)).
Proof.
  intros Hall. revert ready a.
  induction m as [|m IH]; intros ready a Ha Hlen Hready; [done|].
  cbn [seq map chain].
  destruct (lookup_lt_is_Some_2 elems (a - 1)) as [x Hx]; [lia|].
  assert (Htake : take a elems = take (a - 1) elems ++ [x]).
  { replace a with (S (a - 1)) at 1 by lia. by apply take_S_r. }
  assert (Hpre : Forall simpleName (take (a - 1) elems)) by by apply Forall_take.
  assert (Hx' : simpleName x).
  { rewrite Forall_forall in Hall. apply Hall. by eapply list_elem_of_lookup_2. }
  split; [|split].
  - exists (take a elems). split; [by apply Forall_take|done].
  - right. by rewrite Htake, parentRelOf_snoc.
  - apply IH; [lia|lia|]. right. by replace (S a - 1) with a by lia.
Qed.

Lemma chain_prefixesOf ready d :
  cleanRel d -> ready "" -> chain ready (prefixesOf d).
Proof.
  intros (elems & Hall & ->) Hready.
  rewrite (prefixesOf_relOf _ Hall).
  destruct elems as [|x l]; [done|].
  apply chain_prefixes; try done; cbn [length]; lia.
Qed.

Lemma chain_prefixKeys ready :
  Forall cleanRel rels -> ready "" -> chain ready (prefixKeys rels).
Proof.
  unfold prefixKeys. induction 1 as [|d ds Hd Hds IH]; intros Hready; [done|].
  cbn [map concat]. apply chain_app; [by apply chain_prefixesOf|by apply IH].
Qed.

(** The parent of a requested root is the root of the repository or the
    last key that the prefix loop yields for it. *)
Lemma parent_in_prefixesOf d :
  cleanRel d -> d = "" \/ parentRelOf d = "" \/ parentRelOf d ∈ prefixesOf d.
Proof.
  intros (elems & Hall & ->).
  destruct elems as [|x l _] using rev_ind; [by left|]. right.
  apply Forall_app in Hall as [Hl Hx].
  apply (proj1 (Forall_singleton _ _)) in Hx.
  rewrite (parentRelOf_snoc _ _ Hl Hx).
  destruct l as [|y l]; [by left|]. right.
  rewrite prefixesOf_relOf
    by (apply Forall_app; split; [done|by apply Forall_singleton]).
  apply list_elem_of_fmap. exists (length (y :: l)). split.
  - by rewrite take_app_length.
  - apply list_elem_of_In, in_seq. rewrite length_app. simpl. lia.
Qed.

Lemma populateCache_prefetchInv :
  Forall cleanRel rels ->
  prefetchInv L rels (populateCache fs rootConfig rels).
Proof.
  intros Hrels. split.
  - intros [|i] t; [|done]. intros [= <-].
    split; [done|]. split; [by exists []|]. split; [by left|].
    unfold contOk. cbn [t_cont t_key]. split.
    + apply chain_prefixKeys; auto.
    + apply Forall_forall. intros d Hd.
      rewrite Forall_forall in Hrels. split; [by apply Hrels|].
      destruct (parent_in_prefixesOf d (Hrels d Hd)) as [?|[?|Hin]]; auto.
      do 3 right. unfold prefixKeys.
      apply list_elem_of_In, in_concat. exists (prefixesOf d).
      split; [|by apply list_elem_of_In].
      apply in_map. by apply list_elem_of_In.
  - intros k e. cbn [populateCache entryMap]. by rewrite lookup_empty.
  - eexists. split; [done|]. unfold mainCond. cbn [t_cont t_key].
    split; [done|]. by exists [].
  - done.
Qed.

(** C9.  [populateCache] calls [get] for the root and then for the
    prefixes of each requested root that the prefix loop cuts, which for
    a clean relative path are its proper ancestors, the shortest first.
    In every state it reaches: the keys for which a loader has run were
    loaded parents first; as soon as a second goroutine exists, the root
    and all those prefixes are resolved; and for every goroutine with a
    key other than the root the slot of the parent is resolved and holds
    a configuration, so that the lookup of the parent configuration in
    [loadDirInfo] returns it. *)
Theorem parents_are_loaded_before_children (ls : list label) (s : state) :
  Forall cleanRel rels ->
  Forall (fun l => isRun l = true) ls ->
  run ls (populateCache fs rootConfig rels) = Some s ->
  (forall elems, Forall simpleName elems ->
     prefixesOf (relOf elems)
     = map (fun n => relOf (take n elems)) (seq 1 (length elems - 1)))
  /\ loadOrdered (loads s)
  /\ (1 < length (threads s) ->
      Forall (isResolved (entryMap s)) ("" :: prefixKeys rels))
  /\ (forall i t,
        threads s !! i = Some t -> t_key t <> "" -> halted s = false ->
        exists pinfo perr cfg,
          getLoaded (entryMap s) (parentRelOf (t_key t)) = Return (pinfo, perr)
          /\ config pinfo = Some cfg
          /\ parentConfigOf rootConfig config (entryMap s) (t_key t)
             = ([], Return cfg)).
Proof using names_simple.
  intros Hrels Hls Hrun.
  destruct (prefetch_run ls _ s Hls
              (initial_inv _ (populateCache_initial fs rootConfig rels))
              (populateCache_prefetchInv Hrels) Hrun) as [Hinv Hpf].
  split; [apply prefixesOf_relOf|]. split; [apply (pf_order L rels s Hpf)|].
  split.
  - intros Hlen. destruct (pf_main L rels s Hpf) as (t0 & _ & Hcond).
    unfold mainCond in Hcond. destruct (t_cont t0); try done.
    destruct Hcond as [Hone _]. lia.
  - intros i t Ht Hkey Hh.
    destruct (pf_threads L rels s Hpf i t Ht) as (_ & _ & Hready & _).
    destruct Hready as [?|(e & He & Hd)]; [done|].
    destruct (pf_entries L rels s Hpf _ e He) as [_ Hcfg].
    destruct Hcfg as [cfg Hcfg]; [by eapply (inv_done s Hinv)|done|].
    exists (info e), (err e), cfg.
    assert (Hget : getLoaded (entryMap s) (parentRelOf (t_key t))
                   = Return (info e, err e)).
    { unfold getLoaded. by rewrite He, Hd. }
    split; [done|]. split; [done|].
    unfold parentConfigOf. rewrite decide_False by done.
    fold (parentRelOf (t_key t)). rewrite Hget.
    unfold liftOutcome, mbind, M_bind, bind. cbn [fst]. by rewrite Hcfg.
Qed.

End PrefetchFacts.

(** ** The properties on the sample repository *)

Section SampleRuns.

Lemma Configure_derives_child_witness :
  getWalkConfig Sample.rootConfig = Return Sample.rootWalkConfig
  /\ exists c',
      snd (Configure (H := LiteralGlob) Sample.rootConfig "sub"
             (Some (mkFile "sub" Sample.directives []))) = Return c'
      /\ getWalkConfig c'
         = Return (mkWalkConfig true ["vendor"; "sub/gen"] false ["sub/link"])
      /\ Exts c' !! walkName
         = Some (WalkExt (mkWalkConfig true ["vendor"; "sub/gen"] false
                                       ["sub/link"]))
      /\ RepoRoot c' = "/repo".
Proof.
  split; [reflexivity|].
  destruct (Configure_derives_child (H := LiteralGlob)
              Sample.rootConfig Sample.rootWalkConfig "sub"
              (Some (mkFile "sub" Sample.directives [])) eq_refl)
    as (_ & Hret & Hstored & _).
  eexists. split; [exact Hret|].
  destruct (Hstored _ Hret) as (Hget & Hext & _ & Hroot & _).
  split; [exact Hget|]. split; [exact Hext|exact Hroot].
Defined.

(** C6 as stated fails: a value other than the two mode names, here
    [update_only] followed by a space, does not end the run. *)
Lemma generation_mode_other_value_counterexample :
  ~ (forall (wc : walkConfig) (rel pkg value : string),
        value <> "update_only" -> value <> "create_and_update" ->
        snd (applyDirective (H := LiteralGlob) rel pkg wc
               (mkDirective "generation_mode" value)) = Exit1).
Proof.
  intros Hclaim.
  specialize (Hclaim Sample.rootWalkConfig "" "" "update_only ").
  discriminate Hclaim; discriminate.
Qed.

Lemma generation_mode_trimmed_witness :
  applyDirective (H := LiteralGlob) "sub" "sub" Sample.rootWalkConfig
    (mkDirective "generation_mode" "update_only ")
  = ret (setUpdateOnly true Sample.rootWalkConfig)
  /\ snd (applyDirectives (H := LiteralGlob) "sub" "sub"
            ([mkDirective "generation_mode" "update_only"]
               ++ mkDirective "generation_mode" "never" :: [mkDirective "ignore" ""])
            Sample.rootWalkConfig) = Exit1
  /\ snd (applyDirectives (H := LiteralGlob) "sub" "sub"
            ([mkDirective "exclude" "gen"]
               ++ mkDirective "exclude" "bad[" :: [mkDirective "follow" "link"])
            Sample.rootWalkConfig)
     = snd (applyDirectives (H := LiteralGlob) "sub" "sub"
              ([mkDirective "exclude" "gen"] ++ [mkDirective "follow" "link"])
              Sample.rootWalkConfig).
Proof.
  split; [|split].
  - apply (proj1 (generation_mode_trimmed_and_bad_patterns_dropped
                    (H := LiteralGlob) "sub" "sub" Sample.rootWalkConfig
                    (mkDirective "generation_mode" "update_only ") [] []));
      reflexivity.
  - apply (proj1 (generation_mode_trimmed_and_bad_patterns_dropped
                    (H := LiteralGlob) "sub" "sub" Sample.rootWalkConfig
                    (mkDirective "generation_mode" "never")
                    [mkDirective "generation_mode" "update_only"]
                    [mkDirective "ignore" ""]));
      [reflexivity|discriminate|discriminate].
  - apply (proj2 (generation_mode_trimmed_and_bad_patterns_dropped
                    (H := LiteralGlob) "sub" "sub" Sample.rootWalkConfig
                    (mkDirective "exclude" "bad[")
                    [mkDirective "exclude" "gen"]
                    [mkDirective "follow" "link"]) ErrBadPattern);
      [reflexivity|by left].
Defined.

(** C5 as stated fails twice.  [dir3] is stored and is a directory of
    the sample repository, [dir3/g/h] lies beneath it, and the predicate
    does not hold of [dir3/g/h].  And a line [./e] does not store what the
    line [e] stores when [e] is empty or starts with [/], with [#] or
    with a space: the two predicates differ. *)
Lemma flat_ignore_subtree_and_dotslash_counterexample :
  ~ (forall (fs : FileSystem) (repoRoot : string) (file : scanned)
            (isBazelIgnored : isIgnoredFunc),
        os_Open fs (GoPath.Join [repoRoot; ".bazelignore"]) = inr file ->
        snd (loadBazelIgnore fs repoRoot) = Return (isBazelIgnored, None) ->
        forall p,
          isBazelIgnored p = true <->
          exists e, e ∈ omap storedEntry (scanLines file)
                    /\ (p = e
                        \/ (snd (os_ReadDir fs (GoPath.Join [repoRoot; e])) = None
                            /\ strictlyBeneath e p = true)))
  /\ (Sample.ignoredBy [""] "." = false
      /\ Sample.ignoredBy ["./"] "." = true)
  /\ (Sample.ignoredBy ["/abs"] "abs" = false
      /\ Sample.ignoredBy [".//abs"] "abs" = true)
  /\ (Sample.ignoredBy ["#x"] "#x" = false
      /\ Sample.ignoredBy ["./#x"] "#x" = true)
  /\ (Sample.ignoredBy [" x"] "x" = true
      /\ Sample.ignoredBy ["./ x"] "x" = false)
  /\ ~ (forall e, storedEntry ("./" +:+ e) = storedEntry e).
Proof.
  split; [|repeat split; try (vm_compute; reflexivity)].
  - intros Hclaim.
    destruct (Hclaim Sample.fs "/repo"
                (mkScanned Sample.bazelignoreLines None) _ eq_refl eq_refl
                "dir3/g/h") as [_ Hif].
    assert (Hfalse : false = true); [|discriminate Hfalse].
    rewrite <- Hif; [vm_compute; reflexivity|].
    exists "dir3". split.
    + apply list_elem_of_omap. exists "dir3/". split; [|reflexivity].
      unfold Sample.bazelignoreLines. simpl. set_solver.
    + right. split; reflexivity.
  - intros Hclaim. specialize (Hclaim "#x"). vm_compute in Hclaim.
    discriminate Hclaim.
Qed.

Lemma flat_ignore_is_exact_membership_witness :
  os_Open Sample.fs (GoPath.Join ["/repo"; ".bazelignore"])
  = inr (mkScanned Sample.bazelignoreLines None)
  /\ (exists isBazelIgnored : isIgnoredFunc,
        snd (loadBazelIgnore Sample.fs "/repo") = Return (isBazelIgnored, None)
        /\ forall p, isBazelIgnored p = true <->
                     exists text, text ∈ Sample.bazelignoreLines
                                  /\ storedEntry text = Some p)
  /\ storedEntry "./b.file" = storedEntry "b.file".
Proof.
  split; [reflexivity|].
  destruct (flat_ignore_is_exact_membership Sample.fs "/repo"
              (mkScanned Sample.bazelignoreLines None) eq_refl)
    as ((isBazelIgnored & Hret & Hiff & _) & _ & _ & Hdot).
  split.
  - exists isBazelIgnored. split; [exact Hret|exact Hiff].
  - apply (Hdot "b.file"); [reflexivity|discriminate|reflexivity|reflexivity].
Defined.



Lemma excluded_directory_has_empty_lists_witness :
  parentConfigOf Sample.rootConfig config_ Sample.newCache "sub"
  = ([], Return Sample.rootDerived)
  /\ loadBuildFile (WalkHelpers := Sample.helpers) Sample.rootDerived "" "sub"
       "/repo/sub" (fst (os_ReadDir Sample.fs "/repo/sub"))
     = (Some Sample.subFile, None)
  /\ configureForWalk (WalkHelpers := Sample.helpers) Sample.rootDerived "sub"
       (Some Sample.subFile) = ([], Return Sample.subDerived)
  /\ isExcludedDir (WalkHelpers := Sample.helpers) Sample.subDerived "sub" = true
  /\ exists info,
      snd (loadDirInfo (H := Sample.helpers) Sample.fs Sample.rootConfig
             Sample.newCache "sub") = Return (info, None)
      /\ Subdirs info = [] /\ RegularFiles info = []
      /\ File_ info = Some Sample.subFile
      /\ config_ info = Some Sample.subDerived.
Proof.
  split; [reflexivity|]. split; [reflexivity|]. split; [reflexivity|].
  split; [reflexivity|].
  exact (excluded_directory_has_empty_lists (H := Sample.helpers) Sample.fs
           Sample.rootConfig Sample.newCache "sub" Sample.rootDerived []
           (Some Sample.subFile) None [] Sample.subDerived
           eq_refl eq_refl eq_refl eq_refl).
Defined.

(** C7 as stated fails: reading the directory [flaky] breaks off after
    two entries, and the lists [loadDirInfo] returns are those of the two
    entries, not those of an empty directory. *)
Lemma unreadable_directory_partial_counterexample :
  os_ReadDir Sample.cutShort "/repo/flaky"
  = ([Sample.entry "d" true; Sample.entry "x.go" false],
     Some Sample.inputOutputError)
  /\ loadDirInfo (H := Sample.helpers) Sample.cutShort Sample.rootConfig
       Sample.newCache "flaky"
     = ([], Return (mkDirInfo ["d"] ["x.go"] [] None (Some Sample.rootDerived),
                    Some (joinError [Sample.inputOutputError])))
  /\ ~ (forall (fs : FileSystem) (rootConfig : Config)
               (entryMap : gmap string (cacheEntry DirInfo)) (rel : string)
               (entries : list DirEntry) (e : error) (info : DirInfo)
               (err : option error),
          os_ReadDir fs (GoPath.Join [RepoRoot rootConfig; rel])
          = (entries, Some e) ->
          snd (loadDirInfo (H := Sample.helpers) fs rootConfig entryMap rel)
          = Return (info, err) ->
          Subdirs info = [] /\ RegularFiles info = []).
Proof.
  split; [reflexivity|]. split; [reflexivity|].
  intros Hclaim.
  destruct (Hclaim Sample.cutShort Sample.rootConfig Sample.newCache "flaky"
              _ _ _ _ eq_refl eq_refl) as [Hsub _].
  discriminate Hsub.
Qed.

Lemma unreadable_directory_still_returns_witness :
  parentConfigOf Sample.rootConfig config_ Sample.newCache "locked"
  = ([], Return Sample.rootDerived)
  /\ os_ReadDir Sample.fs "/repo/locked" = ([], Some Sample.permissionDenied)
  /\ (exists info errs,
        loadDirInfo (H := Sample.helpers) Sample.fs Sample.rootConfig
          Sample.newCache "locked"
        = ([], Return (info, Some (joinError errs)))
        /\ Sample.permissionDenied ∈ errs
        /\ Subdirs info = [] /\ RegularFiles info = []
        /\ File_ info = None /\ config_ info = Some Sample.rootDerived)
  /\ (exists info errs,
        loadDirInfo (H := Sample.helpers) Sample.cutShort Sample.rootConfig
          Sample.newCache "flaky"
        = ([], Return (info, Some (joinError errs)))
        /\ Sample.inputOutputError ∈ errs
        /\ Subdirs info = ["d"] /\ RegularFiles info = ["x.go"]
        /\ config_ info = Some Sample.rootDerived)
  /\ (exists info errs,
        loadDirInfo (H := Sample.helpers) Sample.fs Sample.rootConfig
          Sample.newCache "broken"
        = ([], Return (info, Some (joinError errs)))
        /\ Sample.syntaxError ∈ errs
        /\ File_ info = None /\ config_ info = Some Sample.rootDerived
        /\ Subdirs info = [] /\ RegularFiles info = ["BUILD.bazel"; "x.go"]).
Proof.
  split; [reflexivity|]. split; [reflexivity|]. split; [|split].
  - destruct (proj1 (unreadable_directory_still_returns (H := Sample.helpers)
                       Sample.fs Sample.rootConfig Sample.newCache "locked"
                       Sample.rootDerived [] [] Sample.rootDerived eq_refl)
                [] Sample.permissionDenied None None eq_refl eq_refl eq_refl)
      as (info & errs & Hret & Hin & _ & _ & _ & Hempty & Hfile & Hcfg).
    destruct (Hempty eq_refl) as [Hsub Hreg].
    exists info, errs. repeat split; assumption.
  - destruct (proj1 (unreadable_directory_still_returns (H := Sample.helpers)
                       Sample.cutShort Sample.rootConfig Sample.newCache
                       "flaky" Sample.rootDerived [] [] Sample.rootDerived
                       eq_refl)
                _ Sample.inputOutputError None None eq_refl eq_refl eq_refl)
      as (info & errs & Hret & Hin & _ & Hsub & Hreg & _ & _ & Hcfg).
    exists info, errs. repeat split; assumption.
  - destruct (proj2 (unreadable_directory_still_returns (H := Sample.helpers)
                       Sample.fs Sample.rootConfig Sample.newCache "broken"
                       Sample.rootDerived [] [] Sample.rootDerived eq_refl)
                _ None Sample.syntaxError eq_refl eq_refl eq_refl)
      as (info & errs & Hret & Hin & _ & Hfile & Hcfg & Hsub & Hreg).
    exists info, errs. repeat split; assumption.
Defined.

Lemma newer_loadDirInfo_refines_older_witness :
  snd (loadDirInfoOld (H := Sample.helpers) Sample.fs Sample.rootConfig
         (forgetEntry <$> Sample.newCache) "dir3")
  = Return (mkDirInfoOld ["g"] [] None (Some Sample.rootDerived), None)
  /\ snd (loadDirInfo (H := Sample.helpers) Sample.fs Sample.rootConfig
            Sample.newCache "dir3")
     = Return (mkDirInfo ["g"] [] [] None (Some Sample.rootDerived), None).
Proof.
  pose proof (proj1 (proj2 (newer_loadDirInfo_refines_older
                              (H := Sample.helpers) Sample.fs Sample.rootConfig
                              Sample.newCache "dir3"))) as Hold.
  assert (Hnew : snd (loadDirInfo (H := Sample.helpers) Sample.fs
                        Sample.rootConfig Sample.newCache "dir3")
                 = Return (mkDirInfo ["g"] [] [] None (Some Sample.rootDerived),
                           None)) by reflexivity.
  split; [|exact Hnew].
  rewrite Hold, Hnew. reflexivity.
Defined.

Lemma sample_names_simple cfg dir rel e :
  e ∈ fst (os_ReadDir Sample.fs dir) ->
  simpleName (Name (maybeResolveSymlink (WalkHelpers := Sample.helpers)
                      cfg dir rel e)).
Proof.
  cbn [maybeResolveSymlink Sample.helpers os_ReadDir Sample.fs].
  repeat case_decide; cbn [fst]; intros Hin;
    repeat (apply elem_of_cons in Hin as [->|Hin]);
    try (by apply elem_of_nil in Hin);
    apply (bool_decide_unpack _); vm_compute; exact I.
Qed.

Lemma returned_result_is_final_witness :
  exists s1 s2 t r,
    initial Sample.start
    /\ run (H := Sample.helpers) Sample.serial Sample.start = Some s1
    /\ threads s1 !! 0 = Some t /\ t_get t = GRet r
    /\ run (H := Sample.helpers) Sample.racing s1 = Some s2
    /\ resolved (entryMap s2) (t_key t) r
    /\ (forall j tj rj,
          threads s2 !! j = Some tj -> t_key tj = t_key t ->
          t_get tj = GRet rj -> rj = r)
    /\ (exists new, loads s2 = new ++ loads s1 /\ t_key t ∉ new).
Proof.
  assert (Hcheck :
    match run (H := Sample.helpers) Sample.serial Sample.start with
    | Some s1 =>
        match threads s1 !! 0 with
        | Some t =>
            match t_get t with
            | GRet _ =>
                match run (H := Sample.helpers) Sample.racing s1 with
                | Some _ => true
                | None => false
                end
            | _ => false
            end
        | None => false
        end
    | None => false
    end = true) by (vm_compute; reflexivity).
  destruct (run (H := Sample.helpers) Sample.serial Sample.start)
    as [s1|] eqn:Hrun1; [|discriminate Hcheck].
  destruct (threads s1 !! 0) as [t|] eqn:Ht; [|discriminate Hcheck].
  destruct (t_get t) as [| | | | |r] eqn:Hg; try discriminate Hcheck.
  destruct (run (H := Sample.helpers) Sample.racing s1)
    as [s2|] eqn:Hrun2; [|discriminate Hcheck].
  exists s1, s2, t, r.
  pose proof (populateCache_initial (H := Sample.helpers) Sample.fs
                Sample.rootConfig Sample.rels) as Hinit.
  destruct (returned_result_is_final (H := Sample.helpers) Sample.start s1 s2
              Sample.serial Sample.racing 0 t r Hinit Hrun1 Ht Hg Hrun2)
    as (H1 & H2 & H3 & _).
  split; [exact Hinit|]. split; [reflexivity|]. split; [exact Ht|].
  split; [exact Hg|]. split; [exact Hrun2|].
  split; [exact H1|]. split; [exact H2|exact H3].
Defined.


Lemma sample_rels_clean : Forall cleanRel Sample.rels.
Proof.
  repeat constructor.
  - exists ["sub"]. split; [|reflexivity]. repeat constructor; discriminate.
  - exists ["dir3"]. split; [|reflexivity]. repeat constructor; discriminate.
  - exists ["locked"]. split; [|reflexivity]. repeat constructor; discriminate.
Qed.

Lemma parents_are_loaded_before_children_witness :
  exists s,
    Forall cleanRel Sample.rels
    /\ Forall (fun l => isRun l = true) Sample.toTheEnd
    /\ run (H := Sample.helpers) Sample.toTheEnd Sample.start = Some s
    /\ loadOrdered (loads s)
    /\ (1 < length (threads s) ->
        Forall (isResolved (entryMap s)) ("" :: prefixKeys Sample.rels))
    /\ (forall i t,
          threads s !! i = Some t -> t_key t <> "" -> halted s = false ->
          exists pinfo perr cfg,
            getLoaded (entryMap s) (parentRelOf (t_key t))
            = Return (pinfo, perr)
            /\ config pinfo = Some cfg
            /\ parentConfigOf Sample.rootConfig config (entryMap s) (t_key t)
               = ([], Return cfg)).
Proof.
  assert (Hcheck :
    match run (H := Sample.helpers) Sample.toTheEnd Sample.start with
    | Some _ => true
    | None => false
    end = true) by (vm_compute; reflexivity).
  destruct (run (H := Sample.helpers) Sample.toTheEnd Sample.start)
    as [s|] eqn:Hrun; [|discriminate Hcheck].
  exists s.
  assert (Hruns : Forall (fun l => isRun l = true) Sample.toTheEnd)
    by (repeat constructor).
  destruct (parents_are_loaded_before_children (H := Sample.helpers)
              Sample.fs Sample.rootConfig sample_names_simple Sample.rels
              Sample.toTheEnd s sample_rels_clean Hruns Hrun)
    as (_ & H2 & H3 & H4).
  split; [exact sample_rels_clean|]. split; [exact Hruns|].
  split; [reflexivity|]. split; [exact H2|]. split; [exact H3|exact H4].
Defined.

End SampleRuns.

(** ** More on the configuration chain *)

Section ConfigureMore.
Context `{Doublestar}.

Lemma matchAnyGlob_app l1 l2 p :
  matchAnyGlob (l1 ++ l2) p = matchAnyGlob l1 p || matchAnyGlob l2 p.
Proof. apply existsb_app. Qed.

(** X1.  [Configure] only adds to what is excluded and followed.  In the
    configuration it returns, a path is excluded exactly when the
    parent's configuration excludes it or it matches one of the accepted
    [exclude] patterns of the build file, and likewise for [follow]; so
    every path the parent excludes or follows, the child does too. *)
Theorem exclusions_are_inherited (c c' : Config) (wc : walkConfig)
    (rel : string) (f : option File) :
  getWalkConfig c = Return wc ->
  snd (Configure c rel f) = Return c' ->
  exists wc',
    getWalkConfig c' = Return wc'
    /\ (forall p, isExcluded wc' p
                  = isExcluded wc p
                    || matchAnyGlob
                         (acceptedPatterns rel "exclude"
                            (from_option Directives [] f)) p)
    /\ (forall p, shouldFollow wc' p
                  = shouldFollow wc p
                    || matchAnyGlob
                         (acceptedPatterns rel "follow"
                            (from_option Directives [] f)) p)
    /\ (forall p, isExcluded wc p = true -> isExcluded wc' p = true)
    /\ (forall p, shouldFollow wc p = true -> shouldFollow wc' p = true).
Proof.
  intros Hwc Hret.
  destruct (Configure_returns _ _ _ _ _ Hwc Hret) as [_ ->].
  exists (childConfig wc rel f). split; [apply getWalkConfig_stored|].
  assert (He : forall p, isExcluded (childConfig wc rel f) p
                = isExcluded wc p
                  || matchAnyGlob (acceptedPatterns rel "exclude"
                                     (from_option Directives [] f)) p).
  { intros p. unfold isExcluded. destruct f as [f|]; simpl.
    - apply matchAnyGlob_app.
    - by rewrite orb_false_r. }
  assert (Hf : forall p, shouldFollow (childConfig wc rel f) p
                = shouldFollow wc p
                  || matchAnyGlob (acceptedPatterns rel "follow"
                                     (from_option Directives [] f)) p).
  { intros p. unfold shouldFollow. destruct f as [f|]; simpl.
    - apply matchAnyGlob_app.
    - by rewrite orb_false_r. }
  split; [done|]. split; [done|]. split.
  - intros p Hp. by rewrite He, Hp.
  - intros p Hp. by rewrite Hf, Hp.
Qed.

Lemma applyDirective_unknown rel pkg wc d :
  Key d ∉ KnownDirectives -> applyDirective rel pkg wc d = ret wc.
Proof.
  intros Hk. unfold applyDirective, KnownDirectives in *.
  rewrite !decide_False; [done|..]; intros Heq; apply Hk; rewrite Heq;
    set_solver.
Qed.

Lemma applyDirectives_known rel pkg ds wc :
  applyDirectives rel pkg (filter (fun d => Key d ∈ KnownDirectives) ds) wc
  = applyDirectives rel pkg ds wc.
Proof.
  revert wc. induction ds as [|d ds IH]; intros wc; [done|].
  rewrite filter_cons. case_decide as Hk.
  - cbn [applyDirectives]. apply bind_ext. intros wc'. apply IH.
  - cbn [applyDirectives]. rewrite (applyDirective_unknown _ _ _ _ Hk).
    rewrite IH. symmetry. apply (bind_ret_l wc).
Qed.

(** X2.  [Configure] reads only the directives that [KnownDirectives]
    lists: removing every other directive from the build file changes
    neither the configuration it returns, nor its log, nor whether it
    ends the run. *)
Theorem unknown_directives_are_skipped (c : Config) (rel : string) (f : File) :
  Configure c rel (Some (knownOnly f)) = Configure c rel (Some f)
  /\ forall wc, configureWalk wc rel (Some (knownOnly f))
                = configureWalk wc rel (Some f).
Proof.
  assert (Hw : forall wc, configureWalk wc rel (Some (knownOnly f))
                          = configureWalk wc rel (Some f)).
  { intros wc. unfold configureWalk, knownOnly. simpl.
    apply applyDirectives_known. }
  split; [|done]. unfold Configure.
  destruct (getWalkConfig c); try done. by rewrite Hw.
Qed.

(** X3.  [Configure] panics exactly when the configuration it is
    given holds no walker extension under [walkName] (the key is missing
    or holds a value of another type): then it panics on the type
    assertion before anything is logged, whatever the build file.  With
    the extension present it returns or ends the run with [log.Fatalf],
    and never panics. *)
Theorem Configure_panics_exactly_without_walk_extension (c : Config)
    (rel : string) (f : option File) :
  ((forall wc, Exts c !! walkName <> Some (WalkExt wc)) <->
   exists msg, snd (Configure c rel f) = Panic msg)
  /\ ((forall wc, Exts c !! walkName <> Some (WalkExt wc)) ->
      Configure c rel f = ([], Panic "interface conversion"))
  /\ (forall wc, Exts c !! walkName = Some (WalkExt wc) ->
      snd (Configure c rel f) = Exit1
      \/ exists c', snd (Configure c rel f) = Return c').
Proof.
  assert (Hno : (forall wc, Exts c !! walkName <> Some (WalkExt wc)) ->
                Configure c rel f = ([], Panic "interface conversion")).
  { intros Hno. unfold Configure, getWalkConfig.
    destruct (Exts c !! walkName) as [[wc|]|] eqn:He; try done.
    by destruct (Hno wc). }
  assert (Hyes : forall wc, Exts c !! walkName = Some (WalkExt wc) ->
            snd (Configure c rel f) = Exit1
            \/ exists c', snd (Configure c rel f) = Return c').
  { intros wc He. unfold Configure, getWalkConfig. rewrite He.
    pose proof (configureWalk_outcome wc rel f) as Hout.
    destruct (from_option _ true f).
    - right. rewrite (bind_Return _ _ _ Hout). by eexists.
    - left. by rewrite (bind_Exit1 _ _ Hout). }
  split; [|by split]. split.
  - intros Hnone. rewrite (Hno Hnone). by eexists.
  - intros [msg Hp] wc He.
    destruct (Hyes wc He) as [Hx|[c' Hr]]; congruence.
Qed.

(** X4.  Two calls of [Configure] in a row, as for a directory and
    then one of its subdirectories, compose: the patterns of the second
    build file follow those of the first, which follow the parent's; the
    generation mode is that of the last [generation_mode] directive of
    both files read in order; and [ignore] is that of the second file
    alone. *)
Theorem Configure_twice (c c1 c2 : Config) (wc : walkConfig)
    (rel1 rel2 : string) (f1 f2 : File) :
  getWalkConfig c = Return wc ->
  snd (Configure c rel1 (Some f1)) = Return c1 ->
  snd (Configure c1 rel2 (Some f2)) = Return c2 ->
  exists wc2,
    getWalkConfig c2 = Return wc2
    /\ excludes wc2
       = excludes wc ++ acceptedPatterns rel1 "exclude" (Directives f1)
                     ++ acceptedPatterns rel2 "exclude" (Directives f2)
    /\ follow wc2
       = follow wc ++ acceptedPatterns rel1 "follow" (Directives f1)
                   ++ acceptedPatterns rel2 "follow" (Directives f2)
    /\ updateOnly wc2
       = lastGenerationMode (updateOnly wc) (Directives f1 ++ Directives f2)
    /\ ignore wc2 = hasIgnore (Directives f2).
Proof.
  intros Hwc H1 H2.
  destruct (Configure_returns _ _ _ _ _ Hwc H1) as [_ ->].
  destruct (Configure_returns _ _ _ _ _ (getWalkConfig_stored _ _ _) H2)
    as [_ ->].
  eexists. split; [apply getWalkConfig_stored|]. simpl.
  rewrite <- !app_assoc. by rewrite lastGenerationMode_app.
Qed.

End ConfigureMore.

(** ** [path.Clean] is idempotent; more on the flat ignore file *)

Section CleanIdempotent.
Import GoPath.

Lemma splitSlash_nonempty s : splitSlash s <> [].
Proof.
  induction s as [|c s IH]; [done|]. simpl.
  destruct (is_slash c); [done|]. by destruct (splitSlash s).
Qed.

Lemma splitSlash_noslashes s :
  Forall (fun e => hasSlash e = false) (splitSlash s).
Proof.
  induction s as [|c s IH]; [by repeat constructor|]. simpl.
  destruct (is_slash c) eqn:Hc; [by constructor|].
  destruct (splitSlash s) as [|seg rest].
  - repeat constructor. simpl. by rewrite Hc.
  - apply Forall_cons in IH as [Hseg Hrest]. constructor; [|done].
    simpl. by rewrite Hc, Hseg.
Qed.

Lemma cleanStack_nil rooted : cleanStack rooted [].
Proof. exists [], []. by repeat split. Qed.

Lemma cleanStep_stack rooted out e :
  hasSlash e = false -> cleanStack rooted out ->
  cleanStack rooted (cleanStep rooted out e).
Proof.
  intros He (names & dotdots & -> & Hn & Hd & Hr). unfold cleanStep.
  destruct (decide (e = "")); [by exists names, dotdots|].
  destruct (decide (e = ".")); [by exists names, dotdots|].
  destruct (decide (e = "..")) as [->|Hdd].
  - destruct names as [|x names]; simpl.
    + destruct dotdots as [|d dotdots].
      * destruct rooted; [apply cleanStack_nil|].
        exists [], [".."]. repeat split; try done. by repeat constructor.
      * apply Forall_cons in Hd as [-> Hd]. rewrite decide_True by done.
        exists [], (".." :: ".." :: dotdots). repeat split; try done.
        -- by repeat constructor.
        -- intros Hroot. by specialize (Hr Hroot).
    + apply Forall_cons in Hn as [Hx Hn].
      rewrite decide_False by (by destruct Hx as (_ & _ & ? & _)).
      by exists names, dotdots.
  - exists (e :: names), dotdots. repeat split; try done.
    by constructor.
Qed.

Lemma fold_cleanStep_stack rooted l out :
  Forall (fun e => hasSlash e = false) l -> cleanStack rooted out ->
  cleanStack rooted (fold_left (cleanStep rooted) l out).
Proof.
  revert out. induction l as [|e l IH]; intros out Hl Hout; [done|].
  apply Forall_cons in Hl as [He Hl]. cbn [fold_left].
  apply IH; [done|]. by apply cleanStep_stack.
Qed.

Lemma fold_cleanStep_dotdots l out :
  Forall (fun e => e = "..") l -> Forall (fun e => e = "..") out ->
  fold_left (cleanStep false) l out = rev l ++ out.
Proof.
  revert out. induction l as [|e l IH]; intros out Hl Hout; [done|].
  apply Forall_cons in Hl as [-> Hl]. cbn [fold_left rev].
  assert (Hstep : cleanStep false out ".." = ".." :: out).
  { unfold cleanStep. rewrite !decide_False by done.
    rewrite decide_True by done.
    destruct out as [|top rest]; [done|].
    apply Forall_cons in Hout as [-> _]. by rewrite decide_True. }
  rewrite Hstep, IH by (done || by constructor).
  by rewrite <- app_assoc.
Qed.

Lemma noslash_of_stack names dotdots :
  Forall simpleName names -> Forall (fun e => e = "..") dotdots ->
  Forall (fun e => hasSlash e = false) (rev (names ++ dotdots)).
Proof.
  intros Hn Hd. apply Forall_rev, Forall_app. split.
  - by apply Forall_simple_noslash.
  - eapply Forall_impl; [done|]. by intros ? ->.
Qed.


Lemma joinSlash_cons_nonempty x l : x <> "" -> joinSlash (x :: l) <> "".
Proof.
  intros Hx. destruct x as [|c x]; [done|].
  destruct l; [done|]. cbn [joinSlash]. by rewrite app_String.
Qed.

Lemma joinSlash_cons_rooted x l :
  x <> "" -> hasSlash x = false -> isRooted (joinSlash (x :: l)) = false.
Proof.
  intros Hx Hs. destruct x as [|c x]; [done|].
  simpl in Hs. apply orb_false_elim in Hs as [Hc _].
  destruct l; [done|]. cbn [joinSlash]. by rewrite app_String.
Qed.

(** The scan of [path.Clean] over its own output writes that output
    again. *)
Lemma fold_cleanStep_output rooted names dotdots :
  Forall simpleName names -> Forall (fun e => e = "..") dotdots ->
  (rooted = true -> dotdots = []) ->
  fold_left (cleanStep rooted) (rev (names ++ dotdots)) [] = names ++ dotdots.
Proof.
  intros Hn Hd Hr. rewrite rev_app_distr, fold_left_app.
  assert (Hdots : fold_left (cleanStep rooted) (rev dotdots) [] = dotdots).
  { destruct rooted.
    - by rewrite (Hr eq_refl).
    - rewrite fold_cleanStep_dotdots by (done || by apply Forall_rev).
      by rewrite rev_involutive, app_nil_r. }
  rewrite Hdots, fold_cleanStep_simple by by apply Forall_rev.
  by rewrite rev_involutive.
Qed.

(** [path.Clean] is idempotent. *)
Lemma Clean_idempotent p : Clean (Clean p) = Clean p.
Proof.
  destruct (decide (p = "")) as [->|Hp]; [reflexivity|].
  unfold Clean at 2 3. rewrite !(decide_False _ _ Hp).
  pose proof (fold_cleanStep_stack (isRooted p) (splitSlash p) []
                (splitSlash_noslashes p) (cleanStack_nil _))
    as (names & dotdots & Hout & Hn & Hd & Hr).
  rewrite Hout.
  pose proof (noslash_of_stack _ _ Hn Hd) as Hns.
  pose proof (fold_cleanStep_output (isRooted p) _ _ Hn Hd Hr) as Hfold.
  destruct (rev (names ++ dotdots)) as [|x l] eqn:Hrev.
  { cbn [joinSlash]. by destruct (isRooted p). }
  assert (Hx : x <> "").
  { assert (Hin : x ∈ names ++ dotdots).
    { apply list_elem_of_In, in_rev. rewrite Hrev. by left. }
    apply elem_of_app in Hin as [Hin|Hin].
    - rewrite Forall_forall in Hn. by destruct (Hn _ Hin).
    - rewrite Forall_forall in Hd. by rewrite (Hd _ Hin). }
  pose proof Hns as [Hxs _]%Forall_cons.
  pose proof (joinSlash_cons_nonempty x l Hx) as Hne.
  destruct (isRooted p) eqn:Hroot.
  - unfold Clean. rewrite decide_False by done.
    change (isRooted ("/" +:+ joinSlash (x :: l))) with true. cbv iota.
    change (splitSlash ("/" +:+ joinSlash (x :: l)))
      with ("" :: splitSlash (joinSlash (x :: l))).
    rewrite splitSlash_joinSlash by done.
    change (fold_left (cleanStep true) ("" :: x :: l) [])
      with (fold_left (cleanStep true) (x :: l) []).
    by rewrite Hfold, Hrev.
  - rewrite (decide_False _ _ Hne).
    unfold Clean. rewrite (decide_False _ _ Hne).
    rewrite (joinSlash_cons_rooted _ _ Hx Hxs).
    rewrite splitSlash_joinSlash by done.
    rewrite Hfold, Hrev.
    by rewrite (decide_False _ _ Hne).
Qed.

Lemma Clean_nonempty p : Clean p <> "".
Proof.
  unfold Clean. destruct (decide (p = "")); [done|].
  destruct (isRooted p); [done|]. by case_decide.
Qed.


End CleanIdempotent.

Section IgnoreMore.

Lemma storedEntry_clean text p :
  storedEntry text = Some p -> GoPath.Clean p = p /\ p <> "".
Proof.
  intros (_ & _ & _ & ->)%storedEntry_Some. split.
  - apply Clean_idempotent.
  - apply Clean_nonempty.
Qed.

Lemma bazelIgnoreLine_log excludes text :
  fst (bazelIgnoreLine excludes text) = bazelIgnoreLog text.
Proof.
  unfold bazelIgnoreLine, bazelIgnoreLog. cbv zeta.
  destruct (decide (GoStrings.TrimSpace text = "")); [done|].
  destruct (GoStrings.HasPrefix _ "#"); [done|].
  by destruct (GoStrings.ContainsAny _ _).
Qed.

Lemma bazelIgnoreLines_log lines excludes :
  fst (bazelIgnoreLines lines excludes) = flat_map bazelIgnoreLog lines.
Proof.
  revert excludes. induction lines as [|text lines IH]; intros excludes;
    [done|].
  cbn [bazelIgnoreLines flat_map].
  rewrite (bind_log _ _ _ (bazelIgnoreLine_outcome excludes text)).
  by rewrite bazelIgnoreLine_log, IH.
Qed.

(** X5.  The predicate [loadBazelIgnore] returns holds of clean paths
    only: a path it accepts is not empty and is left unchanged by
    [path.Clean].  So a caller that asks about a path that is not clean,
    such as [dir/] or [./dir], is answered false. *)
Theorem bazelignore_accepts_clean_paths_only (fs : FileSystem)
    (repoRoot : string) (isBazelIgnored : isIgnoredFunc) (e : option error)
    (p : string) :
  snd (loadBazelIgnore fs repoRoot) = Return (isBazelIgnored, e) ->
  isBazelIgnored p = true ->
  GoPath.Clean p = p /\ p <> "".
Proof.
  unfold loadBazelIgnore.
  destruct (os_Open fs _) as [err|file] eqn:Hopen.
  { destruct (GoErrors.IsNotExist err); by intros [= <- <-]. }
  rewrite (bind_Return _ _ _ (bazelIgnoreLines_outcome (scanLines file) ∅)).
  intros [= <- <-]. rewrite bool_decide_eq_true.
  rewrite elem_of_union, elem_of_list_to_set, list_elem_of_omap.
  intros [(text & _ & Hst)|Hin]; [|by apply elem_of_empty in Hin].
  by eapply storedEntry_clean.
Qed.

(** X6.  For a [.bazelignore] that can be opened, [loadBazelIgnore]
    logs one message for each scanned line that, trimmed, is not empty,
    is not a comment and has one of [*], [?], [[], in the order of the
    lines, and nothing else; it returns no error. *)
Theorem bazelignore_logs_glob_lines (fs : FileSystem) (repoRoot : string)
    (file : scanned) :
  os_Open fs (GoPath.Join [repoRoot; ".bazelignore"]) = inr file ->
  fst (loadBazelIgnore fs repoRoot) = flat_map bazelIgnoreLog (scanLines file)
  /\ (exists isBazelIgnored,
        snd (loadBazelIgnore fs repoRoot) = Return (isBazelIgnored, None))
  /\ (forall text,
        bazelIgnoreLog text
        = if bool_decide (GoStrings.TrimSpace text <> "")
             && negb (GoStrings.HasPrefix (GoStrings.TrimSpace text) "#")
             && GoStrings.ContainsAny (GoStrings.TrimSpace text) "*?["
          then [LogBazelIgnoreGlob (GoStrings.TrimSpace text)] else []).
Proof.
  intros Hopen. split; [|split].
  - unfold loadBazelIgnore. rewrite Hopen.
    rewrite (bind_log _ _ _ (bazelIgnoreLines_outcome (scanLines file) ∅)).
    rewrite bazelIgnoreLines_log. apply app_nil_r.
  - eexists. by apply loadBazelIgnore_opened.
  - intros text. unfold bazelIgnoreLog. cbv zeta.
    destruct (decide (GoStrings.TrimSpace text = "")) as [He|He].
    + by rewrite bool_decide_eq_false_2 by (by intros ?).
    + rewrite bool_decide_eq_true_2 by done.
      destruct (GoStrings.HasPrefix _ "#"); [done|].
      by destruct (GoStrings.ContainsAny _ _).
Qed.

End IgnoreMore.

(** ** The repository file *)

Section RepoIgnoreFacts.
Context `{Doublestar} `{BzlParser}.

Lemma ignoreDirectoriesItems_result items acc :
  ignoreDirectoriesItems items acc
  = (invalidItemsLog items, Return (acc ++ validItems items)).
Proof.
  revert acc. induction items as [|e items IH]; intros acc.
  - simpl. by rewrite app_nil_r.
  - destruct e as [name|value|l|X args|t];
      try (cbn [ignoreDirectoriesItems validItems invalidItemsLog omap
                list_omap]; apply IH).
    cbn [ignoreDirectoriesItems validItems invalidItemsLog omap list_omap].
    destruct (checkPathMatchPattern value) as [err|].
    + rewrite IH. reflexivity.
    + rewrite IH. by rewrite <- app_assoc.
Qed.

Lemma searchIgnoreDirectories_skip pre stmts :
  Forall (fun e => isIgnoreDirectoriesCall e = false) pre ->
  searchIgnoreDirectories (pre ++ stmts) = searchIgnoreDirectories stmts.
Proof.
  induction pre as [|e pre IH]; [done|].
  intros [He Hpre]%Forall_cons. cbn [app].
  destruct e as [name|value|l|X args|t]; try (by apply IH).
  destruct X as [name|value|l|X' args'|t]; try (by apply IH).
  simpl in He. apply bool_decide_eq_false in He.
  cbn [searchIgnoreDirectories]. rewrite (decide_False _ _ He). by apply IH.
Qed.

Lemma loadRepoDirectoryIgnore_parsed fs repoRoot content stmts :
  os_ReadFile fs (GoPath.Join [repoRoot; "REPO.bazel"]) = inr content ->
  bzl_Parse repoRoot content = inr stmts ->
  loadRepoDirectoryIgnore fs repoRoot
  = (found ← searchIgnoreDirectories stmts;
     match found with
     | inl err => ret (nothingIgnored, Some err)
     | inr [] => ret (nothingIgnored, None)
     | inr ignoreDirectories =>
         ret ((fun p => existsb (fun ignore => MatchUnvalidated ignore p)
                                ignoreDirectories) : isIgnoredFunc, None)
     end).
Proof. intros Hread Hparse. unfold loadRepoDirectoryIgnore. by rewrite Hread, Hparse. Qed.

(** X7.  The first statement of [REPO.bazel] that calls
    [ignore_directories] decides, when its argument is one list: the
    predicate holds of the paths that match one of the string literals
    of the list whose pattern is well formed, a message is logged for
    each literal whose pattern is not, items that are not string
    literals are passed over, and statements after the call, further
    calls included, are not looked at. *)
Theorem first_ignore_directories_list_decides (fs : FileSystem)
    (repoRoot content : string) (pre post items : list Expr) :
  os_ReadFile fs (GoPath.Join [repoRoot; "REPO.bazel"]) = inr content ->
  bzl_Parse repoRoot content
  = inr (pre ++ CallExpr (Ident "ignore_directories") [ListExpr items] :: post) ->
  Forall (fun e => isIgnoreDirectoriesCall e = false) pre ->
  exists isRepoIgnored : isIgnoredFunc,
    loadRepoDirectoryIgnore fs repoRoot
    = (invalidItemsLog items, Return (isRepoIgnored, None))
    /\ forall p, isRepoIgnored p = true <->
                 exists pattern, pattern ∈ validItems items
                                 /\ MatchUnvalidated pattern p = true.
Proof.
  intros Hread Hparse Hpre.
  rewrite (loadRepoDirectoryIgnore_parsed _ _ _ _ Hread Hparse).
  rewrite (searchIgnoreDirectories_skip _ _ Hpre).
  cbn [searchIgnoreDirectories]. rewrite decide_True by done.
  rewrite ignoreDirectoriesItems_result. cbn [app].
  destruct (validItems items) as [|v vs] eqn:Hv.
  - exists nothingIgnored. split.
    + unfold mbind, M_bind, bind, ret. simpl. by rewrite !app_nil_r.
    + intros p. split; [done|]. intros (pattern & Hin & _).
      by apply elem_of_nil in Hin.
  - eexists. split.
    + unfold mbind, M_bind, bind, ret. cbv beta iota.
      rewrite !app_nil_r. reflexivity.
    + intros p. cbv beta. rewrite existsb_exists.
      split; intros (pattern & Hin & Hm); exists pattern;
        (split; [by apply list_elem_of_In|done]).
Qed.

(** X8.  When the first call of [ignore_directories] in [REPO.bazel]
    does not have exactly one argument that is a list,
    [loadRepoDirectoryIgnore] returns the nothing-ignored predicate
    with an error that tells which of the two is wrong, and logs
    nothing; later calls are not looked at. *)
Theorem malformed_ignore_directories_call_is_an_error (fs : FileSystem)
    (repoRoot content : string) (pre post args : list Expr) :
  os_ReadFile fs (GoPath.Join [repoRoot; "REPO.bazel"]) = inr content ->
  bzl_Parse repoRoot content
  = inr (pre ++ CallExpr (Ident "ignore_directories") args :: post) ->
  Forall (fun e => isIgnoreDirectoriesCall e = false) pre ->
  (forall items, args <> [ListExpr items]) ->
  loadRepoDirectoryIgnore fs repoRoot
  = ret (nothingIgnored,
         Some (ErrorString
                 (match args with
                  | [arg] =>
                      "REPO.bazel ignore_directories() unexpected argument type: "
                      +:+ exprTypeName arg
                  | _ => "REPO.bazel ignore_directories() expects one argument"
                  end))).
Proof.
  intros Hread Hparse Hpre Hargs.
  rewrite (loadRepoDirectoryIgnore_parsed _ _ _ _ Hread Hparse).
  rewrite (searchIgnoreDirectories_skip _ _ Hpre).
  cbn [searchIgnoreDirectories]. rewrite decide_True by done.
  destruct args as [|arg [|arg2 args]]; [done| |by destruct arg].
  destruct arg as [name|value|l|X args|t]; try done.
  by destruct (Hargs l).
Qed.

(** X9.  A [REPO.bazel] that parses and has no statement calling
    [ignore_directories] ignores nothing: [loadRepoDirectoryIgnore]
    returns the nothing-ignored predicate, no error and an empty log. *)
Theorem no_ignore_directories_call_ignores_nothing (fs : FileSystem)
    (repoRoot content : string) (stmts : list Expr) :
  os_ReadFile fs (GoPath.Join [repoRoot; "REPO.bazel"]) = inr content ->
  bzl_Parse repoRoot content = inr stmts ->
  Forall (fun e => isIgnoreDirectoriesCall e = false) stmts ->
  loadRepoDirectoryIgnore fs repoRoot = ret (nothingIgnored, None).
Proof.
  intros Hread Hparse Hno.
  rewrite (loadRepoDirectoryIgnore_parsed _ _ _ _ Hread Hparse).
  rewrite <- (app_nil_r stmts), (searchIgnoreDirectories_skip _ _ Hno).
  reflexivity.
Qed.

End RepoIgnoreFacts.

(** ** More on [loadDirInfo] *)

Section LoadDirInfoMore.
Context `{WalkHelpers}.
Variable fs : FileSystem.
Variable rootConfig : Config.

Lemma parentConfigOf_slot {I} (configOf : I -> option walkConfig)
    (em em' : gmap string (cacheEntry I)) rel :
  (rel <> "" -> em !! parentRelOf rel = em' !! parentRelOf rel) ->
  parentConfigOf rootConfig configOf em rel
  = parentConfigOf rootConfig configOf em' rel.
Proof.
  intros Hslot. unfold parentConfigOf. case_decide as Hrel; [done|].
  unfold getLoaded. fold (parentRelOf rel). by rewrite (Hslot Hrel).
Qed.

Lemma parentConfigOf_unloaded {I} (configOf : I -> option walkConfig)
    (em : gmap string (cacheEntry I)) rel :
  rel <> "" ->
  (forall e, em !! parentRelOf rel = Some e -> doneC e = false) ->
  parentConfigOf rootConfig configOf em rel
  = ([], Panic "getLoaded called before it was loaded").
Proof.
  intros Hrel Hopen. unfold parentConfigOf. rewrite (decide_False _ _ Hrel).
  unfold getLoaded. fold (parentRelOf rel).
  destruct (em !! parentRelOf rel) as [e|] eqn:He; [|done].
  by rewrite (Hopen e eq_refl).
Qed.

(** X10.  Both versions of [loadDirInfo] panic, with the message of
    [getLoaded] and before anything is logged, when they are called for
    a directory other than the repository root while the cache slot of
    the parent directory is missing or not yet closed. *)
Theorem loadDirInfo_before_parent_panics
    (em : gmap string (cacheEntry DirInfo))
    (emOld : gmap string (cacheEntry dirInfo)) (rel : string) :
  rel <> "" ->
  (forall e, em !! parentRelOf rel = Some e -> doneC e = false) ->
  (forall e, emOld !! parentRelOf rel = Some e -> doneC e = false) ->
  loadDirInfo fs rootConfig em rel
    = ([], Panic "getLoaded called before it was loaded")
  /\ loadDirInfoOld fs rootConfig emOld rel
    = ([], Panic "getLoaded called before it was loaded").
Proof.
  intros Hrel Hopen HopenOld. split.
  - unfold loadDirInfo. destruct (os_ReadDir fs _) as [entries rerr].
    by rewrite (parentConfigOf_unloaded _ _ _ Hrel Hopen).
  - unfold loadDirInfoOld. destruct (os_ReadDir fs _) as [entries rerr].
    by rewrite (parentConfigOf_unloaded _ _ _ Hrel HopenOld).
Qed.

(** X11.  Of the cache, both versions of [loadDirInfo] read the slot
    of the parent directory and nothing else: on two caches that agree
    on that slot they give the same log and the same result, and for the
    repository root the cache is not read at all. *)
Theorem loadDirInfo_reads_parent_slot_only
    (em em' : gmap string (cacheEntry DirInfo))
    (emOld emOld' : gmap string (cacheEntry dirInfo)) (rel : string) :
  (rel <> "" -> em !! parentRelOf rel = em' !! parentRelOf rel) ->
  (rel <> "" -> emOld !! parentRelOf rel = emOld' !! parentRelOf rel) ->
  loadDirInfo fs rootConfig em rel = loadDirInfo fs rootConfig em' rel
  /\ loadDirInfoOld fs rootConfig emOld rel
     = loadDirInfoOld fs rootConfig emOld' rel.
Proof.
  intros Hslot HslotOld. split.
  - unfold loadDirInfo. destruct (os_ReadDir fs _) as [entries rerr].
    by rewrite (parentConfigOf_slot _ _ _ _ Hslot).
  - unfold loadDirInfoOld. destruct (os_ReadDir fs _) as [entries rerr].
    by rewrite (parentConfigOf_slot _ _ _ _ HslotOld).
Qed.

Lemma Join_errors_nil (a b : option error) :
  GoErrors.Join [a; b] = None <-> a = None /\ b = None.
Proof. destruct a, b; simpl; split; (done || by intros [? ?]). Qed.

(** What [loadDirInfo] returns, from the outcome alone. *)
Lemma loadDirInfo_inv em rel info e :
  snd (loadDirInfo fs rootConfig em rel) = Return (info, e) ->
  let dir := GoPath.Join [RepoRoot rootConfig; rel] in
  exists l1 parentConfig l2 cfg f ferr,
    parentConfigOf rootConfig config_ em rel = (l1, Return parentConfig)
    /\ loadBuildFile parentConfig (ReadBuildFilesDir rootConfig) rel dir
                     (fst (os_ReadDir fs dir)) = (f, ferr)
    /\ configureForWalk parentConfig rel f = (l2, Return cfg)
    /\ e = GoErrors.Join [snd (os_ReadDir fs dir); ferr]
    /\ info = (let entries := if isExcludedDir cfg rel then []
                              else fst (os_ReadDir fs dir) in
               mkDirInfo (keptSubdirs cfg dir rel entries)
                         (keptFiles cfg dir rel entries)
                         (findGenFiles cfg f) f (Some cfg)).
Proof.
  intros Hret dir.
  destruct (parentConfigOf rootConfig config_ em rel)
    as [l1 [parentConfig| |msg]] eqn:Hparent;
    try (unfold loadDirInfo in Hret; destruct (os_ReadDir fs _);
         rewrite Hparent in Hret; done).
  destruct (loadBuildFile parentConfig (ReadBuildFilesDir rootConfig) rel dir
              (fst (os_ReadDir fs dir))) as [f ferr] eqn:Hfile.
  destruct (configureForWalk parentConfig rel f) as [l2 [cfg| |msg]] eqn:Hcfg.
  - rewrite (loadDirInfo_returns fs rootConfig _ _ _ _ _ _ _ _
               Hparent Hfile Hcfg) in Hret.
    injection Hret as <- <-. by exists l1, parentConfig, l2, cfg, f, ferr.
  - exfalso. unfold loadDirInfo in Hret. fold dir in Hret.
    destruct (os_ReadDir fs dir) as [entries rerr]. simpl in Hfile.
    rewrite Hparent in Hret. unfold mbind, M_bind, bind in Hret.
    by rewrite Hfile, Hcfg in Hret.
  - exfalso. unfold loadDirInfo in Hret. fold dir in Hret.
    destruct (os_ReadDir fs dir) as [entries rerr]. simpl in Hfile.
    rewrite Hparent in Hret. unfold mbind, M_bind, bind in Hret.
    by rewrite Hfile, Hcfg in Hret.
Qed.

(** X12.  When the newer [loadDirInfo] returns, its error is nil
    exactly when both reading the directory and loading the build file
    succeeded; otherwise it is the join of the errors that occurred,
    the error of [os.ReadDir] first.  The file it returns is the one
    [loadBuildFile] gave. *)
Theorem loadDirInfo_error_is_nil_iff (em : gmap string (cacheEntry DirInfo))
    (rel : string) (info : DirInfo) (e : option error) :
  snd (loadDirInfo fs rootConfig em rel) = Return (info, e) ->
  let dir := GoPath.Join [RepoRoot rootConfig; rel] in
  exists l parentConfig ferr,
    parentConfigOf rootConfig config_ em rel = (l, Return parentConfig)
    /\ loadBuildFile parentConfig (ReadBuildFilesDir rootConfig) rel dir
                     (fst (os_ReadDir fs dir)) = (File_ info, ferr)
    /\ (e = None <-> snd (os_ReadDir fs dir) = None /\ ferr = None)
    /\ (forall rerr, snd (os_ReadDir fs dir) = Some rerr ->
          e = Some (joinError (rerr :: from_option (fun x => [x]) [] ferr)))
    /\ (forall x, snd (os_ReadDir fs dir) = None -> ferr = Some x ->
          e = Some (joinError [x])).
Proof.
  intros Hret dir.
  destruct (loadDirInfo_inv _ _ _ _ Hret)
    as (l1 & parentConfig & l2 & cfg & f & ferr & Hp & Hf & Hc & -> & ->).
  fold dir in Hf. fold dir.
  exists l1, parentConfig, ferr. split; [done|]. split; [done|].
  split; [apply Join_errors_nil|]. split.
  - intros rerr ->. by destruct ferr.
  - by intros x -> ->.
Qed.

Lemma length_omap_le {A B} (g : A -> option B) (l : list A) :
  length (omap g l) <= length l.
Proof.
  induction l as [|a l IH]; [done|]. cbn [omap list_omap].
  destruct (g a); simpl; lia.
Qed.

Lemma kept_lengths cfg dir rel entries :
  length (keptSubdirs cfg dir rel entries)
  + length (keptFiles cfg dir rel entries) <= length entries.
Proof.
  induction entries as [|e entries IH]; [done|].
  unfold keptSubdirs, keptFiles in *. cbn [omap list_omap].
  destruct (IsDir _); simpl.
  - destruct (isExcludedDir cfg _); simpl; lia.
  - destruct (isExcludedFile cfg _); simpl; lia.
Qed.

(** X13.  The lists the newer [loadDirInfo] returns name entries of
    the directory only: every subdirectory is the name of an entry that
    is a directory once symbolic links are resolved and that the derived
    configuration does not exclude, every regular file the name of an
    entry that is not a directory and is not excluded, the directory
    itself is not excluded when a list is not empty, and the two lists
    together are no longer than the list of entries. *)
Theorem loadDirInfo_lists_come_from_entries
    (em : gmap string (cacheEntry DirInfo)) (rel : string) (info : DirInfo)
    (e : option error) :
  snd (loadDirInfo fs rootConfig em rel) = Return (info, e) ->
  let dir := GoPath.Join [RepoRoot rootConfig; rel] in
  let entries := fst (os_ReadDir fs dir) in
  exists cfg,
    config_ info = Some cfg
    /\ length (Subdirs info) + length (RegularFiles info) <= length entries
    /\ (forall n, n ∈ Subdirs info ->
          isExcludedDir cfg rel = false
          /\ exists x, x ∈ entries
               /\ let x' := maybeResolveSymlink cfg dir
                              (GoPath.Join [rel; Name x]) x in
                  Name x' = n /\ IsDir x' = true
                  /\ isExcludedDir cfg (GoPath.Join [rel; Name x]) = false)
    /\ (forall n, n ∈ RegularFiles info ->
          isExcludedDir cfg rel = false
          /\ exists x, x ∈ entries
               /\ let x' := maybeResolveSymlink cfg dir
                              (GoPath.Join [rel; Name x]) x in
                  Name x' = n /\ IsDir x' = false
                  /\ isExcludedFile cfg (GoPath.Join [rel; Name x]) = false).
Proof.
  intros Hret dir entries.
  destruct (loadDirInfo_inv _ _ _ _ Hret)
    as (l1 & parentConfig & l2 & cfg & f & ferr & Hp & Hf & Hc & -> & ->).
  fold dir. fold entries. exists cfg. split; [done|].
  cbn [Subdirs RegularFiles].
  destruct (isExcludedDir cfg rel) eqn:Hexcl.
  { split; [simpl; lia|]. split; intros n Hn; by apply elem_of_nil in Hn. }
  split; [apply kept_lengths|]. split.
  - intros n Hn. split; [done|].
    unfold keptSubdirs in Hn. apply list_elem_of_omap in Hn as (x & Hx & Hn).
    exists x. split; [done|]. cbv zeta in *.
    destruct (IsDir _) eqn:Hd; [|done].
    destruct (isExcludedDir cfg (GoPath.Join _)) eqn:Hx'; [done|].
    simpl in Hn. by injection Hn as <-.
  - intros n Hn. split; [done|].
    unfold keptFiles in Hn. apply list_elem_of_omap in Hn as (x & Hx & Hn).
    exists x. split; [done|]. cbv zeta in *.
    destruct (IsDir _) eqn:Hd; [done|].
    destruct (isExcludedFile cfg (GoPath.Join _)) eqn:Hx'; [done|].
    simpl in Hn. by injection Hn as <-.
Qed.

End LoadDirInfoMore.

(** ** More on the cache *)

Section CacheMore.
Context `{WalkHelpers}.

(** X14.  In every state reached from a fresh cache, [getLoaded]
    returns for a key exactly what a finished [get] for the key has
    returned: it gives the pair that any returned call for the key
    received, it returns only for keys whose loader has run, and it
    panics for a key whose loader has not run or is still running. *)
Theorem getLoaded_returns_finished_loads_only (s0 s : state)
    (ls : list label) :
  initial s0 -> run ls s0 = Some s ->
  (forall i t r,
      threads s !! i = Some t -> t_get t = GRet r ->
      getLoaded (entryMap s) (t_key t) = Return r)
  /\ (forall i t,
        threads s !! i = Some t -> isOwner (t_get t) ->
        getLoaded (entryMap s) (t_key t)
        = Panic "getLoaded called before it was loaded")
  /\ (forall k r,
        getLoaded (entryMap s) k = Return r ->
        k ∈ loads s /\ resolved (entryMap s) k r)
  /\ (forall k, k ∉ loads s ->
        getLoaded (entryMap s) k
        = Panic "getLoaded called before it was loaded").
Proof.
  intros Hinit Hrun.
  pose proof (run_inv _ _ _ (initial_inv _ Hinit) Hrun) as Hinv.
  assert (Hret : forall k r, getLoaded (entryMap s) k = Return r ->
            k ∈ loads s /\ resolved (entryMap s) k r).
  { intros k r. unfold getLoaded, resolved.
    destruct (entryMap s !! k) as [e|] eqn:He; [|done].
    destruct (doneC e) eqn:Hd; [|done]. intros [= <-]. split.
    - by apply (inv_done s Hinv k e).
    - destruct e; simpl in *. by subst. }
  split; [|split; [|split; [done|]]].
  - intros i t r Ht Hg.
    pose proof (returned_is_resolved s i t r Hinv Ht Hg) as Hres.
    unfold getLoaded. rewrite Hres. by destruct r.
  - intros i t Ht Ho.
    pose proof (inv_threads s Hinv i t Ht) as Hok. unfold threadOk in Hok.
    unfold getLoaded. destruct (t_get t); try done.
    + destruct Hok as [(e & -> & ->) _]. done.
    + destruct Hok as [-> _]. done.
  - intros k Hk. destruct (getLoaded (entryMap s) k) as [r| |msg] eqn:Hget.
    + by destruct (Hret k r Hget).
    + unfold getLoaded in Hget. destruct (entryMap s !! k) as [e|]; [|done].
      by destruct (doneC e).
    + unfold getLoaded in Hget. destruct (entryMap s !! k) as [e|].
      * destruct (doneC e); [done|]. by injection Hget as <-.
      * by injection Hget as <-.
Qed.



End CacheMore.

(** ** The semaphore and the wait group of [populateCache] *)

Section SchedulingFacts.
Context `{WalkHelpers}.

Lemma countIf_app p l1 l2 :
  countIf p (l1 ++ l2) = countIf p l1 + countIf p l2.
Proof. unfold countIf. by rewrite List.filter_app, length_app. Qed.

Lemma countIf_cons p t l :
  countIf p (t :: l) = Nat.b2n (p t) + countIf p l.
Proof. unfold countIf. simpl. by destruct (p t). Qed.

Lemma countIf_insert p l i t t' :
  l !! i = Some t ->
  countIf p (<[i := t']> l) + Nat.b2n (p t) = countIf p l + Nat.b2n (p t').
Proof.
  revert i. induction l as [|x l IH]; intros i Hi; [done|].
  destruct i as [|i]; simpl in Hi.
  - injection Hi as ->. change (<[0 := t']> (t :: l)) with (t' :: l).
    rewrite !countIf_cons. lia.
  - change (<[S i := t']> (x :: l)) with (x :: <[i := t']> l).
    rewrite !countIf_cons. specialize (IH i Hi). lia.
Qed.

Lemma countIf_pos p l :
  0 < countIf p l -> exists i t, l !! i = Some t /\ p t = true.
Proof.
  induction l as [|x l IH]; [unfold countIf; simpl; lia|].
  rewrite countIf_cons. destruct (p x) eqn:Hx.
  - intros _. by exists 0, x.
  - simpl. intros Hpos. destruct (IH Hpos) as (i & t & Hi & Ht).
    by exists (S i), t.
Qed.

Lemma countIf_zero p l i t :
  countIf p l = 0 -> l !! i = Some t -> p t = false.
Proof.
  revert i. induction l as [|x l IH]; intros i Hz Hi; [done|].
  rewrite countIf_cons in Hz. destruct i as [|i]; simpl in Hi.
  - injection Hi as ->. by destruct (p t).
  - apply (IH i); [lia|done].
Qed.

Lemma visitOrigin_mono rels em em' k :
  extends em em' -> visitOrigin rels em k -> visitOrigin rels em' k.
Proof.
  intros Hext [Hin|(parent & sub & e & cfg & Hk & He & Hd & Hrest)];
    [by left|right].
  exists parent, sub, e, cfg. split; [done|]. split; [by apply Hext|done].
Qed.

(** A step that rewrites the record of goroutine [i] and starts the
    goroutines [extra] keeps the bookkeeping. *)
Lemma schedInv_rebuild closed rels (s s' : state) i t t' extra :
  schedInv closed rels s ->
  threads s !! i = Some t ->
  threads s' = <[i := t']> (threads s) ++ extra ->
  sem s' + Nat.b2n (holdsToken t)
    = sem s + Nat.b2n (holdsToken t') + length extra ->
  sem s' <= semCap ->
  wg s' + Nat.b2n (counted t)
    = wg s + Nat.b2n (counted t') + length extra ->
  (pastGet (t_cont t') = true -> exists r, t_get t' = GRet r) ->
  Forall (fun x => t_cont x = CVisit
                   /\ visitOrigin rels (entryMap s') (t_key x)) extra ->
  isMain (t_cont t') = isMain (t_cont t) ->
  (t_cont t <> CCaller -> t_cont t' <> CCaller) ->
  extends (entryMap s) (entryMap s') ->
  (forall k e, entryMap s' !! k = Some e -> doneC e = false ->
     (t_key t' = k /\ isOwner (t_get t'))
     \/ ((k <> t_key t \/ ~ isOwner (t_get t))
         /\ exists e0, entryMap s !! k = Some e0 /\ doneC e0 = false)) ->
  (isVisit (t_cont t') = true -> visitOrigin rels (entryMap s') (t_key t')) ->
  (forall r rest, t_get t' = GRet r -> t_cont t' = CRange rest ->
     (forall x, x ∈ rest -> x ∈ subdirs (fst r))
     /\ (rest <> [] -> snd r = None)) ->
  match t_cont t' with
  | CPrefix _ rs | CSpawn rs => forall x, x ∈ rs -> x ∈ rels
  | _ => True
  end ->
  (isMain (t_cont t') = true /\ t_cont t' <> CReturned)
  \/ (t_cont t' = CReturned /\ wg s' = 0)
  \/ (isMain (t_cont t) = false /\ (counted t = false -> wg s' = wg s)) ->
  schedInv closed rels s'.
Proof.
  intros Hinv Ht Hthr Hsem Hcap Hwg Hret Hextra Hmain Hcaller Hext Hown
    Horigin Hrange Hrels Hreturned.
  assert (Hlt : i < length (threads s)) by (by eapply lookup_lt_Some).
  assert (Hlook : forall j tj, threads s' !! j = Some tj ->
            (j = i /\ tj = t') \/ (j <> i /\ threads s !! j = Some tj)
            \/ (length (threads s) <= j /\ tj ∈ extra)).
  { intros j tj. rewrite Hthr, lookup_app_Some, length_insert.
    intros [Hj|[Hlen Hj]].
    - apply list_lookup_insert_Some in Hj as [(-> & <- & _)|[Hne Hj]]; auto.
    - right; right. split; [done|]. by eapply list_elem_of_lookup_2. }
  assert (Hcount : forall p, (forall x, x ∈ extra -> p x = true) ->
            countIf p (threads s') + Nat.b2n (p t)
            = countIf p (threads s) + Nat.b2n (p t') + length extra).
  { intros p Hp. rewrite Hthr, countIf_app.
    pose proof (countIf_insert p (threads s) i t t' Ht) as Hins.
    assert (Hall : countIf p extra = length extra).
    { clear -Hp. induction extra as [|x extra IH]; [done|].
      rewrite countIf_cons, (Hp x) by (by left). simpl. f_equal.
      apply IH. intros y Hy. apply Hp. by right. }
    lia. }
  rewrite Forall_forall in Hextra.
  split.
  - pose proof (Hcount holdsToken) as Hc.
    pose proof (sched_sem _ _ _ Hinv) as Hs.
    assert (forall x, x ∈ extra -> holdsToken x = true) as Hx.
    { intros x Hx. unfold holdsToken. by rewrite (proj1 (Hextra x Hx)). }
    specialize (Hc Hx). lia.
  - done.
  - pose proof (Hcount counted) as Hc.
    pose proof (sched_wg _ _ _ Hinv) as Hs.
    assert (forall x, x ∈ extra -> counted x = true) as Hx.
    { intros x Hx. unfold counted. by rewrite (proj1 (Hextra x Hx)). }
    specialize (Hc Hx). lia.
  - intros j tj Hj Hp.
    destruct (Hlook _ _ Hj) as [[-> ->]|[[Hne Hj']|[_ Hin]]].
    + by apply Hret.
    + by apply (sched_ret _ _ _ Hinv j).
    + destruct (Hextra _ Hin) as [Hc _]. by rewrite Hc in Hp.
  - intros k e He Hd.
    destruct (Hown k e He Hd) as [[Hk Ho]|[Hnot (e0 & He0 & Hd0)]].
    + exists i, t'. split; [|done].
      rewrite Hthr, lookup_app_l by (rewrite length_insert; lia).
      by apply list_lookup_insert_eq.
    + destruct (sched_owner _ _ _ Hinv k e0 He0 Hd0) as (j & tj & Hj & Hkj & Hoj).
      assert (Hne : j <> i).
      { intros ->. rewrite Ht in Hj. injection Hj as <-.
        destruct Hnot as [Hnot|Hnot]; [by apply Hnot|by apply Hnot]. }
      exists j, tj. split; [|done].
      rewrite Hthr, lookup_app_l
        by (rewrite length_insert; by eapply lookup_lt_Some).
      by rewrite list_lookup_insert_ne.
  - intros j tj Hj.
    destruct (Hlook _ _ Hj) as [[-> ->]|[[Hne Hj']|[Hlen Hin]]].
    + rewrite Hmain. by apply (sched_main _ _ _ Hinv i).
    + by apply (sched_main _ _ _ Hinv j).
    + destruct (Hextra _ Hin) as [Hc _]. rewrite Hc. simpl.
      symmetry. apply bool_decide_eq_false. lia.
  - intros Hcl j tj Hj.
    destruct (Hlook _ _ Hj) as [[-> ->]|[[Hne Hj']|[Hlen Hin]]].
    + apply Hcaller. by apply (sched_closed _ _ _ Hinv Hcl i).
    + by apply (sched_closed _ _ _ Hinv Hcl j).
    + destruct (Hextra _ Hin) as [Hc _]. by rewrite Hc.
  - intros j tj Hj Hv.
    destruct (Hlook _ _ Hj) as [[-> ->]|[[Hne Hj']|[Hlen Hin]]].
    + by apply Horigin.
    + eapply visitOrigin_mono; [done|]. by apply (sched_origin _ _ _ Hinv j).
    + by destruct (Hextra _ Hin).
  - intros j tj r rest Hj Hg Hc.
    destruct (Hlook _ _ Hj) as [[-> ->]|[[Hne Hj']|[Hlen Hin]]].
    + by apply Hrange.
    + by apply (sched_range _ _ _ Hinv j tj).
    + destruct (Hextra _ Hin) as [Hc' _]. by rewrite Hc' in Hc.
  - intros j tj Hj.
    destruct (Hlook _ _ Hj) as [[-> ->]|[[Hne Hj']|[Hlen Hin]]].
    + done.
    + by apply (sched_rels _ _ _ Hinv j).
    + destruct (Hextra _ Hin) as [Hc _]. by rewrite Hc.
  - rewrite Hthr, length_app, length_insert. lia.
  - intros t0 H0 Hc0.
    pose proof (sched_main _ _ _ Hinv i t Ht) as Hmi.
    destruct (Hlook _ _ H0) as [[<- ->]|[[Hne H0']|[Hlen Hin]]].
    + destruct Hreturned as [[_ Hnr]|[[_ Hz]|[Hnm _]]]; [done|done|].
      by rewrite Hnm in Hmi.
    + pose proof (sched_returned _ _ _ Hinv t0 H0' Hc0) as Hz.
      destruct Hreturned as [[Hm _]|[[Hr _]|[_ Hsame]]].
      * rewrite Hmain, Hmi in Hm. apply bool_decide_eq_true in Hm. lia.
      * assert (Hm : isMain (t_cont t) = true) by (by rewrite <- Hmain, Hr).
        rewrite Hmi in Hm. apply bool_decide_eq_true in Hm. lia.
      * rewrite Hsame; [done|].
        apply (countIf_zero counted (threads s) i t); [|done].
        by rewrite <- (sched_wg _ _ _ Hinv).
    + pose proof (sched_first _ _ _ Hinv). lia.
Qed.

(** The bookkeeping does not look at the log or at [halted]. *)
Lemma schedInv_same closed rels (s s' : state) :
  schedInv closed rels s ->
  entryMap s' = entryMap s -> threads s' = threads s ->
  sem s' = sem s -> wg s' = wg s ->
  schedInv closed rels s'.
Proof.
  intros [] Hem Hthr Hsem Hwg. split; rewrite ?Hem, ?Hthr, ?Hsem, ?Hwg; done.
Qed.

(** Steps inside [get]. *)
Lemma schedInv_get closed rels (s s' : state) i t g :
  schedInv closed rels s ->
  threads s !! i = Some t ->
  (forall r, t_get t <> GRet r) ->
  threads s' = <[i := setGet g t]> (threads s) ->
  sem s' = sem s -> wg s' = wg s ->
  extends (entryMap s) (entryMap s') ->
  (forall k e, entryMap s' !! k = Some e -> doneC e = false ->
     (t_key t = k /\ isOwner g)
     \/ ((k <> t_key t \/ ~ isOwner (t_get t))
         /\ exists e0, entryMap s !! k = Some e0 /\ doneC e0 = false)) ->
  schedInv closed rels s'.
Proof.
  intros Hinv Ht Hnot Hthr Hsem Hwg Hext Hown.
  assert (Hpast : pastGet (t_cont t) = false).
  { destruct (pastGet (t_cont t)) eqn:Hp; [|done].
    destruct (sched_ret _ _ _ Hinv i t Ht Hp) as [r Hr]. by destruct (Hnot r). }
  apply (schedInv_rebuild closed rels s s' i t (setGet g t) []); simpl;
    try done.
  - by rewrite app_nil_r.
  - change (holdsToken (setGet g t)) with (holdsToken t). lia.
  - pose proof (sched_cap _ _ _ Hinv). lia.
  - change (counted (setGet g t)) with (counted t). lia.
  - by rewrite Hpast.
  - intros Hv. eapply visitOrigin_mono; [done|].
    by apply (sched_origin _ _ _ Hinv i).
  - intros r rest _ Hc. by rewrite Hc in Hpast.
  - apply (sched_rels _ _ _ Hinv i t Ht).
  - destruct (isMain (t_cont t)) eqn:Hm.
    + left. split; [done|]. intros Hc. by rewrite Hc in Hpast.
    + right; right. by split.
Qed.

Lemma extends_of_step l s s' :
  cacheInv s -> stepL l s = Some s' -> extends (entryMap s) (entryMap s').
Proof.
  intros Hinv Hstep k e He Hd.
  by destruct (stepL_stable _ _ _ _ _ Hinv Hstep He Hd).
Qed.

Lemma schedInv_getStep closed rels i t s s' :
  cacheInv s -> schedInv closed rels s -> halted s = false ->
  threads s !! i = Some t ->
  extends (entryMap s) (entryMap s') ->
  getStep i t s = Some s' -> schedInv closed rels s'.
Proof.
  intros Hinv Hsch Hh Ht Hext Hstep.
  pose proof (inv_threads s Hinv i t Ht) as Hok. unfold threadOk in Hok.
  assert (Hquiet : forall k e, entryMap s !! k = Some e -> doneC e = false ->
            ~ isOwner (t_get t) ->
            (k <> t_key t \/ ~ isOwner (t_get t))
            /\ exists e0, entryMap s !! k = Some e0 /\ doneC e0 = false).
  { intros k e He Hd Hno. split; [by right|]. by exists e. }
  unfold getStep in Hstep.
  destruct (t_get t) as [| | | |r|r] eqn:Hg.
  - destruct (entryMap s !! t_key t); injection Hstep as <-;
      (eapply (schedInv_get closed rels s _ i t); simpl; try done;
       [by rewrite Hg|
        intros k e He Hd; right; rewrite Hg; apply (Hquiet k e He Hd);
        simpl; tauto]).
  - destruct (entryMap s !! t_key t) eqn:He; injection Hstep as <-.
    + eapply (schedInv_get closed rels s _ i t); simpl; try done;
        [by rewrite Hg|].
      intros k e He' Hd; right; rewrite Hg; apply (Hquiet k e He' Hd).
      simpl; tauto.
    + eapply (schedInv_get closed rels s _ i t); simpl; try done;
        [by rewrite Hg|].
      intros k e. destruct (decide (t_key t = k)) as [<-|Hne].
      * intros _ _. by left.
      * rewrite lookup_insert_ne by done. intros He' Hd. right.
        rewrite Hg. apply (Hquiet k e He' Hd). simpl; tauto.
  - destruct (entryMap s !! t_key t) as [e|]; [|done].
    destruct (doneC e); [|done]. injection Hstep as <-.
    eapply (schedInv_get closed rels s _ i t); simpl; try done;
      [by rewrite Hg|].
    intros k e' He' Hd; right; rewrite Hg; apply (Hquiet k e' He' Hd).
    simpl; tauto.
  - destruct (snd (t_load t (entryMap s) (t_key t))) as [r| |msg];
      injection Hstep as <-; [|by eapply schedInv_same..].
    eapply (schedInv_get closed rels s _ i t); simpl; try done;
      [by rewrite Hg|].
    intros k e. destruct (decide (t_key t = k)) as [<-|Hne].
    + intros _ _. by left.
    + rewrite lookup_alter_ne by done. intros He' Hd. right.
      split; [by left|]. by exists e.
  - injection Hstep as <-. destruct Hok as [He Hin].
    eapply (schedInv_get closed rels s _ i t); simpl; try done;
      [by rewrite Hg|].
    intros k e. destruct (decide (t_key t = k)) as [<-|Hne].
    + rewrite lookup_alter_eq, He. by intros [= <-].
    + rewrite lookup_alter_ne by done. intros He' Hd. right.
      split; [by left|]. by exists e.
  - done.
Qed.

Ltac sched_side Hc Hown Horig :=
  simpl; try done;
  try (by rewrite app_nil_r);
  try (by (unfold holdsToken, counted; rewrite ?Hc; simpl; lia));
  try (by (unfold semCap in *; lia));
  try (by eexists);
  try (by rewrite Hc);
  try (by apply extends_refl);
  try (by (intros ? ? He' Hd'; right; apply (Hown _ _ He' Hd')));
  try (by (intros _; apply Horig));
  try (by (left; rewrite ?Hc));
  try (by (right; left));
  try (by (right; right; rewrite Hc; split; [done|]; unfold counted;
           rewrite Hc; simpl; (done || lia))).

Lemma schedInv_contStep closed rels i t r s s' :
  cacheInv s -> schedInv closed rels s -> halted s = false ->
  threads s !! i = Some t -> t_get t = GRet r ->
  contStep i t r s = Some s' -> schedInv closed rels s'.
Proof.
  intros Hinv Hsch Hh Ht Hg Hstep.
  pose proof (returned_is_resolved s i t r Hinv Ht Hg) as Hres.
  unfold resolved in Hres.
  pose proof (sched_cap _ _ _ Hsch) as Hcap.
  pose proof (sched_rels _ _ _ Hsch i t Ht) as Hrels.
  assert (Hown : forall k e, entryMap s !! k = Some e -> doneC e = false ->
            (k <> t_key t \/ ~ isOwner (t_get t))
            /\ exists e0, entryMap s !! k = Some e0 /\ doneC e0 = false).
  { intros k e He Hd. split; [right; rewrite Hg; simpl; tauto|].
    by exists e. }
  assert (Horig : isVisit (t_cont t) = true ->
            visitOrigin rels (entryMap s) (t_key t))
    by apply (sched_origin _ _ _ Hsch i t Ht).
  assert (Hrng : forall rest, t_cont t = CRange rest ->
            (forall x, x ∈ rest -> x ∈ subdirs (fst r))
            /\ (rest <> [] -> snd r = None)).
  { intros rest Hc. by apply (sched_range _ _ _ Hsch i t r rest). }
  unfold contStep in Hstep.
  destruct (t_cont t) as [| |[|subdir rest]| |[|prefix todo] rs|[|dir rs]| |]
    eqn:Hc.
  - done.
  - (* <-sem *)
    destruct (sem s) as [|n] eqn:Hsem; [done|]. injection Hstep as <-.
    eapply (schedInv_rebuild closed rels s _ i t (setCont (CRange _) t) []);
      sched_side Hc Hown Horig.
    intros r0 rest' Hr0 Hrest'. assert (r0 = r) as -> by congruence.
    injection Hrest' as <-.
    destruct (snd r); [|done]. split; [|done].
    intros x Hx. by apply elem_of_nil in Hx.
  - (* the loop over the subdirectories is over: wg.Done *)
    destruct (wg s) as [|n] eqn:Hwg; injection Hstep as <-;
      [by eapply schedInv_same|].
    apply (schedInv_rebuild closed rels s _ i t (setCont CDone t) []);
      sched_side Hc Hown Horig.
  - (* one subdirectory *)
    destruct (Hrng _ eq_refl) as [Hsub Herr].
    destruct (config (fst r)) as [wc|] eqn:Hwc;
      [|injection Hstep as <-; by eapply schedInv_same].
    destruct (isExcludedDir wc _) eqn:Hexcl.
    + injection Hstep as <-.
      apply (schedInv_rebuild closed rels s _ i t (setCont (CRange rest) t) []);
        sched_side Hc Hown Horig.
      intros r0 rest' Hr0 Hrest'. assert (r0 = r) as -> by congruence.
    injection Hrest' as <-. split.
      * intros x Hx. apply Hsub. by right.
      * intros _. by apply Herr.
    + case_decide as Hlt; [|done]. injection Hstep as <-.
      apply (schedInv_rebuild closed rels s _ i t (setCont (CRange rest) t)
               [visitThread (t_load t) (GoPath.Join [t_key t; subdir])]);
        sched_side Hc Hown Horig.
      * constructor; [|constructor]. split; [done|]. simpl. right.
        exists (t_key t), subdir, (mkCacheEntry true (fst r) (snd r)), wc.
        simpl. repeat split; try done.
        -- by apply Herr.
        -- apply Hsub. by left.
      * intros r0 rest' Hr0 Hrest'. assert (r0 = r) as -> by congruence.
    injection Hrest' as <-. split.
        -- intros x Hx. apply Hsub. by right.
        -- intros _. by apply Herr.
  - done.
  - (* the prefixes are loaded *)
    injection Hstep as <-.
    apply (schedInv_rebuild closed rels s _ i t (setCont (CSpawn rs) t) []);
      sched_side Hc Hown Horig.
  - (* the next prefix *)
    injection Hstep as <-.
    apply (schedInv_rebuild closed rels s _ i t
             (mkThread prefix (t_load t) GLoad (CPrefix todo rs)) []);
      sched_side Hc Hown Horig.
  - (* all roots are started *)
    injection Hstep as <-.
    apply (schedInv_rebuild closed rels s _ i t (setCont CWait t) []);
      sched_side Hc Hown Horig.
  - (* one root *)
    case_decide as Hlt; [|done]. injection Hstep as <-.
    apply (schedInv_rebuild closed rels s _ i t (setCont (CSpawn rs) t)
             [visitThread (t_load t) dir]);
      sched_side Hc Hown Horig.
    + constructor; [|constructor]. split; [done|]. simpl. left.
      apply Hrels. by left.
    + intros x Hx. apply Hrels. by right.
  - (* wg.Wait *)
    destruct (wg s) as [|n] eqn:Hwg; [|done]. injection Hstep as <-.
    apply (schedInv_rebuild closed rels s _ i t (setCont CReturned t) []);
      sched_side Hc Hown Horig.
  - done.
Qed.

Lemma schedInv_step closed rels i s s' :
  cacheInv s -> schedInv closed rels s -> step i s = Some s' ->
  schedInv closed rels s'.
Proof.
  intros Hinv Hsch Hstep.
  pose proof (extends_of_step (Run i) s s' Hinv Hstep) as Hext.
  unfold step in Hstep.
  destruct (halted s) eqn:Hh; [done|].
  destruct (threads s !! i) as [t|] eqn:Ht; [|done].
  destruct (t_get t) eqn:Hg;
    try (eapply schedInv_getStep; eauto; by rewrite Hg).
  by eapply schedInv_contStep.
Qed.

Lemma schedInv_open rels s : schedInv true rels s -> schedInv false rels s.
Proof. intros []. by split. Qed.

Lemma schedInv_call rels key load s :
  schedInv false rels s -> schedInv false rels (call key load s).
Proof.
  intros Hsch.
  assert (Hlook : forall j tj,
            (threads s ++ [mkThread key load GLoad CCaller]) !! j = Some tj ->
            threads s !! j = Some tj
            \/ (j = length (threads s) /\ tj = mkThread key load GLoad CCaller)).
  { intros j tj [Hj|[Hlen Hj]]%lookup_app_Some; [by left|right].
    destruct (j - length (threads s)) as [|n] eqn:Hn; [|done].
    injection Hj as <-. split; [lia|done]. }
  split; simpl.
  - rewrite countIf_app. unfold countIf at 2. simpl.
    rewrite (sched_sem _ _ _ Hsch). lia.
  - apply (sched_cap _ _ _ Hsch).
  - rewrite countIf_app. unfold countIf at 2. simpl.
    rewrite (sched_wg _ _ _ Hsch). lia.
  - intros j tj Hj Hp. destruct (Hlook _ _ Hj) as [Hj'|[_ ->]]; [|done].
    by apply (sched_ret _ _ _ Hsch j).
  - intros k e He Hd.
    destruct (sched_owner _ _ _ Hsch k e He Hd) as (j & tj & Hj & Hrest).
    exists j, tj. split; [|done]. by apply lookup_app_l_Some.
  - intros j tj Hj. destruct (Hlook _ _ Hj) as [Hj'|[-> ->]].
    + by apply (sched_main _ _ _ Hsch j).
    + simpl. symmetry. apply bool_decide_eq_false.
      pose proof (sched_first _ _ _ Hsch). lia.
  - done.
  - intros j tj Hj Hv. destruct (Hlook _ _ Hj) as [Hj'|[_ ->]]; [|done].
    by apply (sched_origin _ _ _ Hsch j).
  - intros j tj r rest Hj Hg Hc.
    destruct (Hlook _ _ Hj) as [Hj'|[_ ->]]; [|done].
    by apply (sched_range _ _ _ Hsch j tj).
  - intros j tj Hj. destruct (Hlook _ _ Hj) as [Hj'|[_ ->]]; [|done].
    by apply (sched_rels _ _ _ Hsch j).
  - rewrite length_app. pose proof (sched_first _ _ _ Hsch). lia.
  - intros t0 H0 Hc0. destruct (Hlook _ _ H0) as [H0'|[_ ->]]; [|done].
    by apply (sched_returned _ _ _ Hsch t0).
Qed.

Lemma schedInv_stepL rels l s s' :
  cacheInv s -> schedInv false rels s -> stepL l s = Some s' ->
  schedInv false rels s'.
Proof.
  intros Hinv Hsch. destruct l as [i|key load]; simpl.
  - by apply schedInv_step.
  - destruct (halted s); [done|]. intros [= <-]. by apply schedInv_call.
Qed.

Lemma schedInv_run rels ls s s' :
  cacheInv s -> schedInv false rels s -> run ls s = Some s' ->
  schedInv false rels s'.
Proof.
  revert s. induction ls as [|l ls IH]; intros s Hinv Hsch; simpl.
  - by intros [= <-].
  - destruct (stepL l s) as [s1|] eqn:Hl; [|done].
    apply IH; [by eapply stepL_inv|by eapply schedInv_stepL].
Qed.

Lemma schedInv_run_closed rels ls s s' :
  Forall (fun l => isRun l = true) ls ->
  cacheInv s -> schedInv true rels s -> run ls s = Some s' ->
  schedInv true rels s'.
Proof.
  revert s. induction ls as [|l ls IH]; intros s Hruns Hinv Hsch; simpl.
  - by intros [= <-].
  - apply Forall_cons in Hruns as [Hl Hruns].
    destruct l as [i|key load]; [|done]. simpl.
    destruct (step i s) as [s1|] eqn:Hs; [|done].
    apply IH; [done|by apply (stepL_inv (Run i) s)|by eapply schedInv_step].
Qed.

Lemma populateCache_schedInv fs rootConfig rels :
  schedInv true rels (populateCache fs rootConfig rels).
Proof.
  assert (Hone : forall i t,
            threads (populateCache fs rootConfig rels) !! i = Some t ->
            i = 0
            /\ t = mkThread "" (loadDirInfoOld fs rootConfig) GLoad
                            (CPrefix (prefixKeys rels) rels)).
  { intros [|i] t; simpl; [by intros [= <-]|done]. }
  split; simpl; try done;
    try (unfold semCap; lia);
    try (by intros i t [-> ->]%Hone);
    try (by intros _ i t [-> ->]%Hone);
    try (by intros i t r rest [-> ->]%Hone);
    try (by intros t0 [= <-]).
  intros i t [-> ->]%Hone. simpl. auto.
Qed.

Lemma populateCache_reaches fs rootConfig rels ls s :
  run ls (populateCache fs rootConfig rels) = Some s ->
  cacheInv s /\ schedInv false rels s
  /\ (Forall (fun l => isRun l = true) ls -> schedInv true rels s).
Proof.
  intros Hrun.
  pose proof (initial_inv _ (populateCache_initial fs rootConfig rels)) as Hinv.
  pose proof (populateCache_schedInv fs rootConfig rels) as Hsch.
  split; [by eapply run_inv|]. split.
  - eapply schedInv_run; [done| |done]. by apply schedInv_open.
  - intros Hruns. by eapply schedInv_run_closed.
Qed.

Lemma countIf_le p q l :
  (forall t, t ∈ l -> p t = true -> q t = true) -> countIf p l <= countIf q l.
Proof.
  induction l as [|x l IH]; intros Hpq; [done|].
  rewrite !countIf_cons.
  assert (IH' : countIf p l <= countIf q l).
  { apply IH. intros t Ht. apply Hpq. by right. }
  destruct (p x) eqn:Hp.
  - rewrite (Hpq x) by (done || by left). simpl. lia.
  - destruct (q x); simpl; lia.
Qed.

Lemma loading_holdsToken closed rels s t :
  schedInv closed rels s -> t ∈ threads s -> loading t = true ->
  holdsToken t = true.
Proof.
  intros Hsch [i Ht]%list_elem_of_lookup_1 Hl. unfold loading in Hl.
  apply andb_true_iff in Hl as [Hv Hg]. unfold holdsToken.
  destruct (pastGet (t_cont t)) eqn:Hp.
  - destruct (sched_ret _ _ _ Hsch i t Ht Hp) as [r Hr]. by rewrite Hr in Hg.
  - by destruct (t_cont t).
Qed.

(** A goroutine inside [get] can take a step, or waits for an entry
    whose owner can. *)
Lemma get_progress closed rels s i t :
  cacheInv s -> schedInv closed rels s -> halted s = false ->
  threads s !! i = Some t -> (forall r, t_get t <> GRet r) ->
  exists j, is_Some (step j s).
Proof.
  intros Hinv Hsch Hh Ht Hnot.
  pose proof (inv_threads s Hinv i t Ht) as Hok. unfold threadOk in Hok.
  assert (Hmine : forall s1, getStep i t s = Some s1 -> is_Some (step i s)).
  { intros s1 Hs1. unfold step. rewrite Hh, Ht.
    destruct (t_get t) eqn:Hg; try by eexists. by destruct (Hnot r). }
  destruct (t_get t) as [| | | |r|r] eqn:Hg.
  - exists i. unfold getStep in Hmine. rewrite Hg in Hmine.
    destruct (entryMap s !! t_key t); by eapply Hmine.
  - exists i. unfold getStep in Hmine. rewrite Hg in Hmine.
    destruct (entryMap s !! t_key t); by eapply Hmine.
  - destruct Hok as [e He]. destruct (doneC e) eqn:Hd.
    + exists i. unfold getStep in Hmine. rewrite Hg, He, Hd in Hmine.
      by eapply Hmine.
    + destruct (sched_owner _ _ _ Hsch _ e He Hd) as (j & tj & Hj & Hk & Ho).
      exists j. unfold step. rewrite Hh, Hj. unfold getStep.
      destruct (t_get tj); try done.
      * by destruct (snd (t_load tj (entryMap s) (t_key tj))).
  - exists i. unfold getStep in Hmine. rewrite Hg in Hmine.
    destruct (snd (t_load t (entryMap s) (t_key t))); by eapply Hmine.
  - exists i. unfold getStep in Hmine. rewrite Hg in Hmine. by eapply Hmine.
  - by destruct (Hnot r).
Qed.

(** A goroutine in the loop over the subdirectories can take a step when
    the semaphore has room. *)
Lemma range_progress s i t r rest :
  halted s = false -> threads s !! i = Some t -> t_get t = GRet r ->
  t_cont t = CRange rest -> sem s < semCap -> is_Some (step i s).
Proof.
  intros Hh Ht Hg Hc Hroom. unfold step. rewrite Hh, Ht, Hg.
  unfold contStep. rewrite Hc. destruct rest as [|subdir rest].
  - by destruct (wg s).
  - destruct (config (fst r)) as [wc|]; [|done].
    destruct (isExcludedDir wc _); [done|]. by rewrite decide_True.
Qed.

(** X16.  In every state [populateCache] reaches, the number of tokens
    in the semaphore is the number of goroutines started for a visit
    that have not yet released theirs; so at most six started visits
    are inside [get] at a time, and the release of a token by a visit
    whose [get] has returned never blocks. *)
Theorem semaphore_bounds_the_loading_visits (fs : FileSystem)
    (rootConfig : Config) (rels : list string) (ls : list label) (s : state) :
  run ls (populateCache fs rootConfig rels) = Some s ->
  sem s = countIf holdsToken (threads s)
  /\ countIf loading (threads s) <= sem s
  /\ sem s <= 6
  /\ (forall i t r,
        halted s = false -> threads s !! i = Some t ->
        t_get t = GRet r -> t_cont t = CVisit -> is_Some (step i s)).
Proof.
  intros Hrun.
  destruct (populateCache_reaches _ _ _ _ _ Hrun) as (Hinv & Hsch & _).
  pose proof (sched_sem _ _ _ Hsch) as Hsem.
  split; [done|]. split; [|split; [apply (sched_cap _ _ _ Hsch)|]].
  - rewrite Hsem. apply countIf_le. intros t. by apply (loading_holdsToken false rels s).
  - intros i t r Hh Ht Hg Hc.
    unfold step. rewrite Hh, Ht, Hg. unfold contStep. rewrite Hc.
    assert (Hpos : 0 < sem s).
    { rewrite Hsem.
      destruct (countIf holdsToken (threads s)) eqn:Hz; [|lia].
      pose proof (countIf_zero _ _ _ _ Hz Ht) as Hf.
      unfold holdsToken in Hf. by rewrite Hc in Hf. }
    destruct (sem s); [lia|done].
Qed.


(** X18.  [populateCache] does not deadlock: in every state it
    reaches in which the process has not stopped, some goroutine can
    take a step, or every goroutine has finished. *)
Theorem populateCache_never_deadlocks (fs : FileSystem)
    (rootConfig : Config) (rels : list string) (ls : list label) (s : state) :
  run ls (populateCache fs rootConfig rels) = Some s ->
  halted s = false ->
  (exists i, is_Some (step i s))
  \/ Forall (fun t => finished t = true) (threads s).
Proof.
  intros Hrun Hh.
  destruct (populateCache_reaches _ _ _ _ _ Hrun) as (Hinv & Hsch & _).
  pose proof (sched_sem _ _ _ Hsch) as Hsem.
  pose proof (sched_wg _ _ _ Hsch) as Hwg.
  destruct (countIf holdsToken (threads s)) as [|n] eqn:Htok.
  - (* the semaphore is empty: whoever wants to start a goroutine can *)
    assert (Hroom : sem s < semCap) by (unfold semCap; lia).
    destruct (decide (Forall (fun t => finished t = true) (threads s)))
      as [Hall|Hsome]; [by right|left].
    apply not_Forall_Exists in Hsome; [|apply _].
    apply Exists_exists in Hsome as (t & [i Ht]%list_elem_of_lookup_1 & Hnf).
    cbv [compose] in Hnf. unfold finished in Hnf.
    destruct (t_get t) as [| | | |r0|r] eqn:Hg;
      try (eapply (get_progress false rels s i t); try done;
           intros r'; by rewrite Hg).
    destruct (t_cont t) as [| |rest| |[|prefix todo] rs|[|dir rs]| |] eqn:Hc.
    + done.
    + pose proof (countIf_zero _ _ _ _ Htok Ht) as Hf.
      unfold holdsToken in Hf. by rewrite Hc in Hf.
    + exists i. by eapply range_progress.
    + done.
    + exists i. unfold step. rewrite Hh, Ht, Hg. unfold contStep. by rewrite Hc.
    + exists i. unfold step. rewrite Hh, Ht, Hg. unfold contStep. by rewrite Hc.
    + exists i. unfold step. rewrite Hh, Ht, Hg. unfold contStep. by rewrite Hc.
    + exists i. unfold step. rewrite Hh, Ht, Hg. unfold contStep. rewrite Hc.
      by rewrite decide_True.
    + destruct (wg s) as [|m] eqn:Hm.
      * exists i. unfold step. rewrite Hh, Ht, Hg. unfold contStep.
        by rewrite Hc, Hm.
      * destruct (countIf_pos counted (threads s)) as (j & tj & Hj & Hcj);
          [lia|].
        pose proof (countIf_zero _ _ _ _ Htok Hj) as Hf.
        unfold counted in Hcj. unfold holdsToken in Hf.
        destruct (t_cont tj) as [| |rest| | | | |] eqn:Hcj'; try done.
        destruct (sched_ret _ _ _ Hsch j tj Hj) as [rj Hrj];
          [by rewrite Hcj'|].
        exists j. by eapply range_progress.
    + done.
  - (* a goroutine holds a token: it can go on, or waits for one that can *)
    left.
    destruct (countIf_pos holdsToken (threads s)) as (i & t & Ht & Hholds);
      [lia|].
    unfold holdsToken in Hholds.
    destruct (t_cont t) eqn:Hc; try done.
    destruct (t_get t) as [| | | |r0|r] eqn:Hg;
      try (eapply (get_progress false rels s i t); try done;
           intros r'; by rewrite Hg).
    exists i. unfold step. rewrite Hh, Ht, Hg. unfold contStep.
    by rewrite Hc, Hsem.
Qed.

(** X19.  [populateCache] visits only what it was asked to visit or
    what a listing names: the directory of every goroutine started for a
    visit is one of the requested roots, or the join of a directory whose
    entry is closed without error with one of the subdirectories listed
    in that entry, and is not excluded by the configuration stored
    there. *)
Theorem visits_follow_the_listings (fs : FileSystem)
    (rootConfig : Config) (rels : list string) (ls : list label) (s : state)
    (i : nat) (t : thread) :
  run ls (populateCache fs rootConfig rels) = Some s ->
  threads s !! i = Some t -> isVisit (t_cont t) = true ->
  t_key t ∈ rels
  \/ exists parent sub info cfg,
       t_key t = GoPath.Join [parent; sub]
       /\ resolved (entryMap s) parent (info, None)
       /\ sub ∈ subdirs info /\ config info = Some cfg
       /\ isExcludedDir cfg (t_key t) = false.
Proof.
  intros Hrun Ht Hv.
  destruct (populateCache_reaches _ _ _ _ _ Hrun) as (Hinv & Hsch & _).
  destruct (sched_origin _ _ _ Hsch i t Ht Hv)
    as [Hin|(parent & sub & e & cfg & Hk & He & Hd & Herr & Hsub & Hcfg & Hex)];
    [by left|right].
  exists parent, sub, (info e), cfg. split; [done|]. split; [|done].
  unfold resolved. rewrite He. destruct e as [d inf er]; simpl in *.
  by subst.
Qed.

End SchedulingFacts.

(** ** The prefix loop *)

Section PrefixLoopFacts.

Lemma is_slash_decide c : is_slash c = bool_decide ("/"%char = c).
Proof. unfold is_slash. apply bool_decide_ext. split; congruence. Qed.

Lemma slashesFrom_Index off s :
  match GoStrings.Index s "/" with
  | None => slashesFrom off s = []
  | Some i =>
      slashesFrom off s
      = (off + i) :: slashesFrom (off + i + 1) (sliceFrom (i + 1) s)
  end.
Proof.
  revert off. induction s as [|c s IH]; intros off; [done|].
  rewrite Index_cons. cbn [slashesFrom]. rewrite is_slash_decide.
  case_bool_decide as Hc.
  - cbn [app sliceFrom Nat.add]. rewrite Nat.add_0_r.
    replace (off + 1) with (S off) by lia. done.
  - specialize (IH (S off)). cbn [app].
    destruct (GoStrings.Index s "/") as [i|]; simpl; [|done].
    rewrite IH. f_equal; [lia|].
    replace (i + 1) with (S i) by lia. cbn [sliceFrom].
    f_equal. lia.
Qed.

Lemma sliceFrom_sliceFrom a b s :
  sliceFrom a (sliceFrom b s) = sliceFrom (b + a) s.
Proof.
  revert s. induction b as [|b IH]; intros s; [done|].
  destruct s as [|c s]; [by destruct a|]. simpl. apply IH.
Qed.

Lemma prefixLoop_slashes dir fuel slash :
  String.length dir - slash < fuel ->
  prefixLoop fuel dir slash
  = map (fun i => sliceTo i dir) (slashesFrom slash (sliceFrom slash dir)).
Proof.
  revert slash. induction fuel as [|fuel IH]; intros slash Hfuel; [lia|].
  cbn [prefixLoop].
  pose proof (slashesFrom_Index slash (sliceFrom slash dir)) as Hs.
  destruct (GoStrings.Index (sliceFrom slash dir) "/") as [i|] eqn:Hi.
  - rewrite Hs. cbn [map]. f_equal.
    rewrite sliceFrom_sliceFrom.
    replace (slash + (i + 1)) with (slash + i + 1) by lia.
    apply IH. apply Index_slash_lt in Hi. rewrite length_sliceFrom in Hi. lia.
  - by rewrite Hs.
Qed.

Lemma slashesFrom_cut off s i :
  i ∈ slashesFrom off s ->
  off <= i
  /\ s = sliceTo (i - off) s +:+ "/" +:+ sliceFrom (i - off + 1) s.
Proof.
  revert off. induction s as [|c s IH]; intros off; simpl.
  - by intros ?%elem_of_nil.
  - intros [Hin|Hin]%elem_of_app.
    + destruct (is_slash c) eqn:Hc; [|by apply elem_of_nil in Hin].
      apply list_elem_of_singleton in Hin as ->. split; [done|].
      rewrite Nat.sub_diag. simpl. by rewrite (is_slash_true _ Hc).
    + destruct (IH _ Hin) as [Hle Hs]. split; [lia|].
      replace (i - off) with (S (i - S off)) by lia. simpl.
      rewrite app_String. by rewrite <- Hs.
Qed.

(** X23.  The prefix loop of [populateCache] yields, for a requested
    directory, the text before each of its slashes, from the first slash
    to the last: every prefix is followed in the directory by a slash,
    and a directory without a slash has no prefix. *)
Theorem prefix_loop_cuts_at_every_slash (dir : string) :
  prefixesOf dir = map (fun i => sliceTo i dir) (slashesFrom 0 dir)
  /\ (forall p, p ∈ prefixesOf dir -> exists rest, dir = p +:+ "/" +:+ rest)
  /\ (GoPath.hasSlash dir = false -> prefixesOf dir = []).
Proof.
  assert (Heq : prefixesOf dir
                = map (fun i => sliceTo i dir) (slashesFrom 0 dir)).
  { unfold prefixesOf. rewrite prefixLoop_slashes by lia. done. }
  split; [done|]. split.
  - intros p. rewrite Heq. intros (i & -> & Hi)%list_elem_of_fmap.
    destruct (slashesFrom_cut _ _ _ Hi) as [_ Hcut].
    rewrite Nat.sub_0_r in Hcut. by eexists.
  - intros Hno. unfold prefixesOf. cbn [prefixLoop sliceFrom].
    by rewrite (Index_noslash _ Hno).
Qed.

End PrefixLoopFacts.

(** ** Import resolution of the proto extension *)

Section SortFacts.

Lemma insertString_elem x y l : y ∈ insertString x l <-> y = x \/ y ∈ l.
Proof.
  induction l as [|z l IH]; simpl.
  - rewrite list_elem_of_singleton. split; [by left|].
    by intros [?|?%elem_of_nil].
  - destruct (String.leb x z).
    + by rewrite elem_of_cons.
    + rewrite !elem_of_cons, IH. tauto.
Qed.

Lemma sort_Strings_elem y l : y ∈ sort_Strings l <-> y ∈ l.
Proof.
  induction l as [|x l IH]; [done|]. cbn [sort_Strings foldr].
  fold (sort_Strings l). by rewrite insertString_elem, IH, elem_of_cons.
Qed.

Lemma insertString_length x l : length (insertString x l) = S (length l).
Proof.
  induction l as [|z l IH]; [done|]. simpl.
  destruct (String.leb x z); simpl; by rewrite ?IH.
Qed.

Lemma sort_Strings_length l : length (sort_Strings l) = length l.
Proof.
  induction l as [|x l IH]; [done|]. cbn [sort_Strings foldr].
  fold (sort_Strings l). by rewrite insertString_length, IH.
Qed.

Lemma ltb_of_leb x y : String.leb x y = true -> x <> y -> String.ltb x y = true.
Proof.
  unfold String.leb, String.ltb. intros Hle Hne.
  destruct (String.compare x y) eqn:Hc; try done.
  by apply String.compare_eq_iff in Hc.
Qed.

Lemma leb_of_not_leb x y : String.leb x y = false -> String.leb y x = true.
Proof. intros Hf. destruct (String.leb_total x y); congruence. Qed.

(** Inserting a string that is not in a strictly ascending list keeps
    it strictly ascending. *)
Lemma insertString_sorted x l :
  x ∉ l ->
  Sorted (fun a b => String.ltb a b = true) l ->
  Sorted (fun a b => String.ltb a b = true) (insertString x l).
Proof.
  induction l as [|z l IH]; intros Hx Hs; simpl.
  - by repeat constructor.
  - assert (Hxz : x <> z) by (intros ->; apply Hx; by left).
    assert (Hxl : x ∉ l) by (intros Hin; apply Hx; by right).
    destruct (String.leb x z) eqn:Hle.
    + constructor; [done|]. constructor. by apply ltb_of_leb.
    + apply Sorted_inv in Hs as [Hs Hhd]. constructor; [by apply IH|].
      destruct l as [|w l]; simpl.
      * constructor. apply ltb_of_leb; [by apply leb_of_not_leb|done].
      * destruct (String.leb x w).
        -- constructor. apply ltb_of_leb; [by apply leb_of_not_leb|done].
        -- constructor. by apply HdRel_inv in Hhd.
Qed.

Lemma sort_Strings_sorted l :
  NoDup l -> Sorted (fun a b => String.ltb a b = true) (sort_Strings l).
Proof.
  induction 1 as [|x l Hx Hnd IH]; [constructor|].
  cbn [sort_Strings foldr]. fold (sort_Strings l).
  apply insertString_sorted; [|done]. by rewrite sort_Strings_elem.
Qed.

End SortFacts.

Section ProtoFacts.
Import Proto.
Context `{Pathtools} {R Ix : Type} `{RuleAttrs R} `{Lookups Ix}.






Lemma resolveOne_fold (c : Config) (ix : Ix) (r : R) (from : Label)
    (imports : list string) (acc : list resolveError * gset string) :
  let out := fold_left (resolveOne c ix r from) imports acc in
  forall dep, dep ∈ snd out <->
    dep ∈ snd acc
    \/ exists imp l,
         imp ∈ imports /\ resolveProto c ix r imp from = (l, None)
         /\ dep = label_String (label_Rel l (Repo from) (LabelPkg from)).
Proof.
  revert acc. induction imports as [|imp imports IH]; intros acc; cbv zeta.
  - intros dep. simpl. split; [by left|].
    intros [?|(imp & l & Hin & _)]; [done|]. by apply elem_of_nil in Hin.
  - intros dep. cbn [fold_left]. rewrite (IH _ dep). unfold resolveOne.
    destruct (resolveProto c ix r imp from) as [l [err|]] eqn:Hr.
    + assert (Hsame : snd (if decide (err = errSkipImport) then acc
                           else (fst acc ++ [err], snd acc)) = snd acc)
        by (by destruct (decide _)).
      rewrite Hsame. split.
      * intros [?|(imp' & l' & Hin & Hres & Hdep)]; [by left|right].
        exists imp', l'. split; [by right|done].
      * intros [?|(imp' & l' & Hin & Hres & Hdep)]; [by left|right].
        apply elem_of_cons in Hin as [->|Hin]; [congruence|].
        by exists imp', l'.
    + cbn [snd]. rewrite elem_of_union, elem_of_singleton. split.
      * intros [[->|?]|(imp' & l' & Hin & Hres & Hdep)].
        -- right. exists imp, l. split; [by left|done].
        -- by left.
        -- right. exists imp', l'. split; [by right|done].
      * intros [?|(imp' & l' & Hin & Hres & Hdep)]; [by left; right|].
        apply elem_of_cons in Hin as [->|Hin].
        -- left; left. rewrite Hr in Hres. by injection Hres as <-.
        -- right. by exists imp', l'.
Qed.

(** X22.  [Resolve] leaves the rule alone when the imports are nil.
    Otherwise it removes [deps] and, when at least one import resolves,
    sets [deps] to the labels of the imports that resolve, relative to
    the rule's package, each once and in strictly ascending order; when
    none resolves, [deps] stays removed. *)
Theorem Resolve_sets_sorted_distinct_deps (c : Config) (ix : Ix) (r : R)
    (imports : list string) (from : Label) :
  let resolves dep :=
    exists imp l,
      imp ∈ imports
      /\ resolveProto c ix (DelAttr r "deps") imp from = (l, None)
      /\ dep = label_String (label_Rel l (Repo from) (LabelPkg from)) in
  Resolve c ix r RawNil from = ([], Return r)
  /\ ((forall dep, ~ resolves dep) ->
      snd (Resolve c ix r (RawStrings imports) from)
      = Return (DelAttr r "deps"))
  /\ (forall dep0, resolves dep0 ->
      exists deps,
        snd (Resolve c ix r (RawStrings imports) from)
        = Return (SetAttr (DelAttr r "deps") "deps" deps)
        /\ Sorted (fun a b => String.ltb a b = true) deps
        /\ forall dep, dep ∈ deps <-> resolves dep).
Proof.
  cbv zeta. split; [done|].
  pose proof (resolveOne_fold c ix (DelAttr r "deps") from imports ([], ∅))
    as Hfold. cbv zeta in Hfold.
  unfold Resolve.
  destruct (fold_left _ imports ([], ∅)) as [printed depSet] eqn:Hf.
  cbn [snd] in Hfold.
  assert (Hmem : forall dep, dep ∈ depSet <->
            exists imp l,
              imp ∈ imports
              /\ resolveProto c ix (DelAttr r "deps") imp from = (l, None)
              /\ dep = label_String (label_Rel l (Repo from) (LabelPkg from))).
  { intros dep. rewrite Hfold. split; [|by right].
    intros [Hin|?]; [|done]. by apply elem_of_empty in Hin. }
  split.
  - intros Hnone. rewrite decide_False; [done|].
    assert (depSet = ∅) as ->.
    { apply set_eq. intros dep. rewrite Hmem. split; [|set_solver].
      intros Hd. by destruct (Hnone dep). }
    rewrite size_empty. lia.
  - intros dep0 Hdep0. rewrite decide_True.
    + eexists. split; [reflexivity|]. split.
      * apply sort_Strings_sorted, NoDup_elements.
      * intros dep. by rewrite sort_Strings_elem, elem_of_elements, Hmem.
    + apply Hmem in Hdep0.
      assert (Hne : size depSet <> 0).
      { apply size_non_empty_iff. intros Hempty. set_solver. }
      lia.
Qed.

End ProtoFacts.

(** ** Further properties on the sample repository *)

Section MoreSampleRuns.

Lemma exclusions_are_inherited_witness :
  exists c' wc',
    getWalkConfig Sample.rootConfig = Return Sample.rootWalkConfig
    /\ snd (Configure (H := LiteralGlob) Sample.rootConfig "sub"
              (Some SampleMore.subFile)) = Return c'
    /\ getWalkConfig c' = Return wc'
    /\ (forall p, isExcluded (H := LiteralGlob) Sample.rootWalkConfig p = true ->
                  isExcluded (H := LiteralGlob) wc' p = true).
Proof.
  assert (Hcheck :
    match snd (Configure (H := LiteralGlob) Sample.rootConfig "sub"
                 (Some SampleMore.subFile)) with
    | Return _ => true
    | _ => false
    end = true) by (vm_compute; reflexivity).
  destruct (snd (Configure (H := LiteralGlob) Sample.rootConfig "sub"
                   (Some SampleMore.subFile))) as [c'| |] eqn:Hret;
    try discriminate Hcheck.
  destruct (exclusions_are_inherited (H := LiteralGlob) Sample.rootConfig c'
              Sample.rootWalkConfig "sub" (Some SampleMore.subFile)
              eq_refl Hret) as (wc' & Hwc' & _ & _ & Hexcl & _).
  exists c', wc'. split; [reflexivity|]. split; [reflexivity|].
  split; [exact Hwc'|exact Hexcl].
Defined.

Lemma Configure_panics_exactly_without_walk_extension_witness :
  Configure (H := LiteralGlob) (mkConfig "/repo" "" ∅) "sub" None
  = ([], Panic "interface conversion")
  /\ Configure (H := LiteralGlob)
       (mkConfig "/repo" "" {[ walkName := OtherExt ]}) "sub"
       (Some SampleMore.subFile)
     = ([], Panic "interface conversion")
  /\ ~ (exists msg,
          snd (Configure (H := LiteralGlob) Sample.rootConfig "sub"
                 (Some SampleMore.subFile)) = Panic msg).
Proof.
  split; [|split].
  - apply (proj1 (proj2 (Configure_panics_exactly_without_walk_extension
                           (H := LiteralGlob) (mkConfig "/repo" "" ∅) "sub"
                           None))).
    intros wc. discriminate.
  - apply (proj1 (proj2 (Configure_panics_exactly_without_walk_extension
                           (H := LiteralGlob)
                           (mkConfig "/repo" "" {[ walkName := OtherExt ]})
                           "sub" (Some SampleMore.subFile)))).
    intros wc. discriminate.
  - intros Hpanic.
    apply (proj2 (proj1 (Configure_panics_exactly_without_walk_extension
                           (H := LiteralGlob) Sample.rootConfig "sub"
                           (Some SampleMore.subFile))) Hpanic
             Sample.rootWalkConfig).
    reflexivity.
Defined.

Lemma Configure_twice_witness :
  exists c1 c2 wc2,
    snd (Configure (H := LiteralGlob) Sample.rootConfig "sub"
           (Some SampleMore.subFile)) = Return c1
    /\ snd (Configure (H := LiteralGlob) c1 "sub/below"
              (Some SampleMore.belowFile)) = Return c2
    /\ getWalkConfig c2 = Return wc2
    /\ excludes wc2 = ["vendor"; "sub/gen"]
    /\ follow wc2 = ["sub/below/link"]
    /\ updateOnly wc2 = false /\ ignore wc2 = false.
Proof.
  assert (Hcheck :
    match snd (Configure (H := LiteralGlob) Sample.rootConfig "sub"
                 (Some SampleMore.subFile)) with
    | Return c1 =>
        match snd (Configure (H := LiteralGlob) c1 "sub/below"
                     (Some SampleMore.belowFile)) with
        | Return _ => true
        | _ => false
        end
    | _ => false
    end = true) by (vm_compute; reflexivity).
  destruct (snd (Configure (H := LiteralGlob) Sample.rootConfig "sub"
                   (Some SampleMore.subFile))) as [c1| |] eqn:H1;
    try discriminate Hcheck.
  destruct (snd (Configure (H := LiteralGlob) c1 "sub/below"
                   (Some SampleMore.belowFile))) as [c2| |] eqn:H2;
    try discriminate Hcheck.
  destruct (Configure_twice (H := LiteralGlob) Sample.rootConfig c1 c2
              Sample.rootWalkConfig "sub" "sub/below" SampleMore.subFile
              SampleMore.belowFile eq_refl H1 H2)
    as (wc2 & Hwc2 & He & Hf & Hu & Hi).
  exists c1, c2, wc2. split; [reflexivity|]. split; [exact H2|].
  split; [exact Hwc2|]. split; [exact He|]. split; [exact Hf|].
  split; [exact Hu|exact Hi].
Defined.

Lemma bazelignore_accepts_clean_paths_only_witness :
  exists isBazelIgnored,
    snd (loadBazelIgnore Sample.fs "/repo") = Return (isBazelIgnored, None)
    /\ isBazelIgnored "ugly/c.file" = true
    /\ GoPath.Clean "ugly/c.file" = "ugly/c.file" /\ "ugly/c.file" <> "".
Proof.
  eexists. split; [reflexivity|]. split; [reflexivity|].
  exact (bazelignore_accepts_clean_paths_only Sample.fs "/repo" _ None
           "ugly/c.file" eq_refl eq_refl).
Defined.

Lemma bazelignore_logs_glob_lines_witness :
  os_Open Sample.fs (GoPath.Join ["/repo"; ".bazelignore"])
  = inr (mkScanned Sample.bazelignoreLines None)
  /\ fst (loadBazelIgnore Sample.fs "/repo")
     = flat_map bazelIgnoreLog Sample.bazelignoreLines
  /\ flat_map bazelIgnoreLog Sample.bazelignoreLines
     = [LogBazelIgnoreGlob "foo/*"].
Proof.
  split; [reflexivity|]. split; [|reflexivity].
  exact (proj1 (bazelignore_logs_glob_lines Sample.fs "/repo"
                  (mkScanned Sample.bazelignoreLines None) eq_refl)).
Defined.

Lemma first_ignore_directories_list_decides_witness :
  exists isRepoIgnored : isIgnoredFunc,
    loadRepoDirectoryIgnore (H := LiteralGlob) (H0 := SampleMore.parser)
      (SampleMore.fsWith "list") "/repo"
    = ([LogBadIgnoreDirectories "bad[" ErrBadPattern],
       Return (isRepoIgnored, None))
    /\ forall p, isRepoIgnored p = true <->
                 exists pattern,
                   pattern ∈ ["out"; "third_party"]
                   /\ MatchUnvalidated (Doublestar := LiteralGlob) pattern p
                      = true.
Proof.
  exact (first_ignore_directories_list_decides (H := LiteralGlob)
           (H0 := SampleMore.parser) (SampleMore.fsWith "list") "/repo" "list"
           [CallExpr (Ident "repo") [StringExpr "sample"];
            OtherExpr "*build.AssignExpr"]
           [CallExpr (Ident "ignore_directories") [ListExpr [StringExpr "late"]]]
           [StringExpr "out"; StringExpr "bad["; Ident "x";
            StringExpr "third_party"]
           eq_refl eq_refl ltac:(repeat constructor)).
Defined.

Lemma malformed_ignore_directories_call_is_an_error_witness :
  loadRepoDirectoryIgnore (H := LiteralGlob) (H0 := SampleMore.parser)
    (SampleMore.fsWith "pair") "/repo"
  = ret (nothingIgnored,
         Some (ErrorString
                 "REPO.bazel ignore_directories() expects one argument")).
Proof.
  apply (malformed_ignore_directories_call_is_an_error (H := LiteralGlob)
           (H0 := SampleMore.parser) (SampleMore.fsWith "pair") "/repo" "pair"
           []
           [CallExpr (Ident "ignore_directories") [ListExpr [StringExpr "c"]]]
           [StringExpr "a"; StringExpr "b"] eq_refl eq_refl
           ltac:(repeat constructor)).
  intros items. discriminate.
Defined.

Lemma no_ignore_directories_call_ignores_nothing_witness :
  loadRepoDirectoryIgnore (H := LiteralGlob) (H0 := SampleMore.parser)
    (SampleMore.fsWith "plain") "/repo"
  = ret (nothingIgnored, None).
Proof.
  exact (no_ignore_directories_call_ignores_nothing (H := LiteralGlob)
           (H0 := SampleMore.parser) (SampleMore.fsWith "plain") "/repo"
           "plain" [CallExpr (Ident "repo") [StringExpr "sample"]]
           eq_refl eq_refl ltac:(repeat constructor)).
Defined.

Lemma loadDirInfo_before_parent_panics_witness :
  loadDirInfo (H := Sample.helpers) Sample.fs Sample.rootConfig
    Sample.newCache "dir3/g"
  = ([], Panic "getLoaded called before it was loaded")
  /\ loadDirInfoOld (H := Sample.helpers) Sample.fs Sample.rootConfig
       ∅ "dir3/g"
     = ([], Panic "getLoaded called before it was loaded").
Proof.
  apply (loadDirInfo_before_parent_panics (H := Sample.helpers) Sample.fs
           Sample.rootConfig Sample.newCache ∅ "dir3/g").
  - discriminate.
  - intros e He. vm_compute in He. discriminate He.
  - intros e He. vm_compute in He. discriminate He.
Defined.

Lemma loadDirInfo_reads_parent_slot_only_witness :
  loadDirInfo (H := Sample.helpers) Sample.fs Sample.rootConfig
    Sample.newCache "sub"
  = loadDirInfo (H := Sample.helpers) Sample.fs Sample.rootConfig
      (<["dir3" := mkCacheEntry false zeroDirInfo None]> Sample.newCache) "sub".
Proof.
  apply (loadDirInfo_reads_parent_slot_only (H := Sample.helpers) Sample.fs
           Sample.rootConfig Sample.newCache
           (<["dir3" := mkCacheEntry false zeroDirInfo None]> Sample.newCache)
           ∅ ∅ "sub").
  - intros _. vm_compute. reflexivity.
  - intros _. reflexivity.
Defined.

Lemma loadDirInfo_error_is_nil_iff_witness :
  exists info e,
    snd (loadDirInfo (H := Sample.helpers) Sample.fs Sample.rootConfig
           Sample.newCache "locked") = Return (info, e)
    /\ e = Some (joinError [Sample.permissionDenied]).
Proof.
  assert (Hcheck :
    match snd (loadDirInfo (H := Sample.helpers) Sample.fs Sample.rootConfig
                 Sample.newCache "locked") with
    | Return _ => true
    | _ => false
    end = true) by (vm_compute; reflexivity).
  destruct (snd (loadDirInfo (H := Sample.helpers) Sample.fs Sample.rootConfig
                   Sample.newCache "locked")) as [[info e]| |] eqn:Hret;
    try discriminate Hcheck.
  exists info, e. split; [reflexivity|].
  destruct (loadDirInfo_error_is_nil_iff (H := Sample.helpers) Sample.fs
              Sample.rootConfig Sample.newCache "locked" info e Hret)
    as (l & parentConfig & ferr & Hp & Hf & _ & Hrerr & _).
  assert (Hferr : ferr = None).
  { vm_compute in Hp. injection Hp as <- <-. vm_compute in Hf.
    by injection Hf as _ <-. }
  rewrite (Hrerr Sample.permissionDenied eq_refl), Hferr. reflexivity.
Defined.

Lemma loadDirInfo_lists_come_from_entries_witness :
  exists info e cfg,
    snd (loadDirInfo (H := Sample.helpers) Sample.fs Sample.rootConfig
           Sample.newCache "") = Return (info, e)
    /\ config_ info = Some cfg
    /\ length (Subdirs info) + length (RegularFiles info)
       <= length (fst (os_ReadDir Sample.fs "/repo")).
Proof.
  assert (Hcheck :
    match snd (loadDirInfo (H := Sample.helpers) Sample.fs Sample.rootConfig
                 Sample.newCache "") with
    | Return _ => true
    | _ => false
    end = true) by (vm_compute; reflexivity).
  destruct (snd (loadDirInfo (H := Sample.helpers) Sample.fs Sample.rootConfig
                   Sample.newCache "")) as [[info e]| |] eqn:Hret;
    try discriminate Hcheck.
  destruct (loadDirInfo_lists_come_from_entries (H := Sample.helpers)
              Sample.fs Sample.rootConfig Sample.newCache "" info e Hret)
    as (cfg & Hcfg & Hlen & _).
  exists info, e, cfg. split; [reflexivity|]. split; [exact Hcfg|exact Hlen].
Defined.

Lemma getLoaded_returns_finished_loads_only_witness :
  exists s t,
    initial Sample.start
    /\ run (H := Sample.helpers) [Run 0; Run 0] Sample.start = Some s
    /\ threads s !! 0 = Some t /\ isOwner (t_get t)
    /\ getLoaded (entryMap s) (t_key t)
       = Panic "getLoaded called before it was loaded".
Proof.
  assert (Hcheck :
    match run (H := Sample.helpers) [Run 0; Run 0] Sample.start with
    | Some s =>
        match threads s !! 0 with
        | Some t => match t_get t with GRun => true | _ => false end
        | None => false
        end
    | None => false
    end = true) by (vm_compute; reflexivity).
  destruct (run (H := Sample.helpers) [Run 0; Run 0] Sample.start)
    as [s|] eqn:Hrun; [|discriminate Hcheck].
  destruct (threads s !! 0) as [t|] eqn:Ht; [|discriminate Hcheck].
  destruct (t_get t) eqn:Hg; try discriminate Hcheck.
  pose proof (populateCache_initial (H := Sample.helpers) Sample.fs
                Sample.rootConfig Sample.rels) as Hinit.
  assert (Hown : isOwner (t_get t)) by (rewrite Hg; exact I).
  exists s, t. split; [exact Hinit|]. split; [reflexivity|].
  split; [exact Ht|]. split; [exact Hown|].
  exact (proj1 (proj2 (getLoaded_returns_finished_loads_only
                         (H := Sample.helpers) Sample.start s [Run 0; Run 0]
                         Hinit Hrun)) 0 t Ht Hown).
Defined.


Lemma semaphore_bounds_the_loading_visits_witness :
  exists s,
    run (H := Sample.helpers) (Sample.serial ++ Sample.racing) Sample.start
    = Some s
    /\ sem s = countIf holdsToken (threads s)
    /\ countIf loading (threads s) <= sem s /\ sem s <= 6.
Proof.
  assert (Hcheck :
    match run (H := Sample.helpers) (Sample.serial ++ Sample.racing)
              Sample.start with
    | Some _ => true
    | None => false
    end = true) by (vm_compute; reflexivity).
  destruct (run (H := Sample.helpers) (Sample.serial ++ Sample.racing)
              Sample.start) as [s|] eqn:Hrun; [|discriminate Hcheck].
  exists s. split; [reflexivity|].
  destruct (semaphore_bounds_the_loading_visits (H := Sample.helpers)
              Sample.fs Sample.rootConfig Sample.rels _ s Hrun)
    as (H1 & H2 & H3 & _).
  split; [exact H1|]. split; [exact H2|exact H3].
Defined.


Lemma populateCache_never_deadlocks_witness :
  exists s,
    run (H := Sample.helpers) (Sample.serial ++ Sample.racing) Sample.start
    = Some s
    /\ halted s = false
    /\ ((exists i, is_Some (step (H := Sample.helpers) i s))
        \/ Forall (fun t => finished t = true) (threads s)).
Proof.
  assert (Hcheck :
    match run (H := Sample.helpers) (Sample.serial ++ Sample.racing)
              Sample.start with
    | Some s => negb (halted s)
    | None => false
    end = true) by (vm_compute; reflexivity).
  destruct (run (H := Sample.helpers) (Sample.serial ++ Sample.racing)
              Sample.start) as [s|] eqn:Hrun; [|discriminate Hcheck].
  destruct (halted s) eqn:Hh; [discriminate Hcheck|].
  exists s. split; [reflexivity|]. split; [exact Hh|].
  exact (populateCache_never_deadlocks (H := Sample.helpers) Sample.fs
           Sample.rootConfig Sample.rels _ s Hrun Hh).
Defined.

Lemma visits_follow_the_listings_witness :
  exists s t,
    run (H := Sample.helpers) Sample.toTheEnd Sample.start = Some s
    /\ threads s !! 4 = Some t /\ isVisit (t_cont t) = true
    /\ (t_key t ∈ Sample.rels
        \/ exists parent sub info cfg,
             t_key t = GoPath.Join [parent; sub]
             /\ resolved (entryMap s) parent (info, None)
             /\ sub ∈ subdirs info /\ config info = Some cfg
             /\ isExcludedDir (WalkHelpers := Sample.helpers) cfg (t_key t)
                = false).
Proof.
  assert (Hcheck :
    match run (H := Sample.helpers) Sample.toTheEnd Sample.start with
    | Some s =>
        match threads s !! 4 with
        | Some t => isVisit (t_cont t)
        | None => false
        end
    | None => false
    end = true) by (vm_compute; reflexivity).
  destruct (run (H := Sample.helpers) Sample.toTheEnd Sample.start)
    as [s|] eqn:Hrun; [|discriminate Hcheck].
  destruct (threads s !! 4) as [t|] eqn:Ht; [|discriminate Hcheck].
  exists s, t. split; [reflexivity|]. split; [exact Ht|].
  split; [exact Hcheck|].
  exact (visits_follow_the_listings (H := Sample.helpers) Sample.fs
           Sample.rootConfig Sample.rels Sample.toTheEnd s 4 t Hrun Ht Hcheck).
Defined.

Lemma prefix_loop_cuts_at_every_slash_witness :
  prefixesOf "a//b/c" = ["a"; "a/"; "a//b"]
  /\ (exists rest, "a//b/c" = "a/" +:+ "/" +:+ rest)
  /\ prefixesOf "plain" = [].
Proof.
  destruct (prefix_loop_cuts_at_every_slash "a//b/c") as (Heq & Hcut & _).
  split; [rewrite Heq; reflexivity|]. split.
  - apply Hcut. rewrite Heq. vm_compute. right. left.
  - apply (proj2 (proj2 (prefix_loop_cuts_at_every_slash "plain"))).
    reflexivity.
Defined.



Lemma Resolve_sets_sorted_distinct_deps_witness :
  exists deps,
    snd (Proto.Resolve (H0 := SampleMore.ruleAttrs) (H1 := SampleMore.lookups)
           Sample.rootConfig SampleMore.protoIndex SampleMore.protoRule
           (Proto.RawStrings SampleMore.protoImports) SampleMore.here)
    = Return (Proto.SetAttr (RuleAttrs := SampleMore.ruleAttrs)
                (Proto.DelAttr (RuleAttrs := SampleMore.ruleAttrs)
                   SampleMore.protoRule "deps") "deps" deps)
    /\ Sorted (fun a b => String.ltb a b = true) deps
    /\ "//b:b_proto" ∈ deps.
Proof.
  destruct (proj2 (proj2 (Resolve_sets_sorted_distinct_deps
                            (H0 := SampleMore.ruleAttrs)
                            (H1 := SampleMore.lookups)
                            Sample.rootConfig SampleMore.protoIndex
                            SampleMore.protoRule SampleMore.protoImports
                            SampleMore.here)) "//b:b_proto")
    as (deps & Hres & Hsorted & Hmem).
  - exists "b/b.proto", (Proto.mkLabel "" "b" "b_proto" false).
    split; [by left|]. split; reflexivity.
  - exists deps. split; [exact Hres|]. split; [exact Hsorted|].
    apply Hmem. exists "b/b.proto", (Proto.mkLabel "" "b" "b_proto" false).
    split; [by left|]. split; reflexivity.
Defined.

End MoreSampleRuns.
